(** * @qwickapps/logging: the logger hierarchy and its emission pipeline

    A shallow embedding of the logger module (the [Logger] class, the
    process-wide registry behind [getLogger], and the module's start-up code
    that acquires pino), followed by the properties the specification states
    about it.

    Conventions.
    - Logger instances live in a store ([Heap]); a reference is an index into
      it, so reference identity is equality of indices.
    - The module-level constants [isProd], [stripLogs], [pinoAvailable] and
      [basePino] are gathered in [Env]; they are fixed once the module is
      loaded.
    - Everything a call does to the outside world (a backend call, a
      transport call, a console line) is recorded, in order, as [Event]s.
    - A JS call either returns or throws: [Completion].  Backends and the
      console are sinks whose methods return; a transport's [handle] may
      throw, and does not call back into the logger.  An emission call
      itself throws when it cannot delete the Error of its context. *)

From Stdlib Require Import ZArith Ascii String List Lia.
From stdpp Require Import base option list strings pretty gmap.

Local Open Scope string_scope.
Local Open Scope list_scope.
Set Warnings "-register-all".

(** ** JavaScript values *)

(** The attributes of an own data property that the code depends on:
    [Object.assign] copies the enumerable properties, [delete] removes a
    configurable property and throws on another. *)
Record Attributes : Type := {
  enumerable : bool;
  configurable : bool
}.

(** Values are data: an object holds data properties with string keys
    only (no accessors, no symbols, no proxies), its prototype is
    [Object.prototype] or [null], and the arguments of one call are
    distinct objects. *)
Inductive JsValue : Type :=
| JUndefined
| JNull
| JBool (b : bool)
| JNumber (n : Z)
| JString (s : string)
| JErrorInst (name message stack : JsValue)   (* [v instanceof Error] *)
| JPlain (fields : gmap string JsValue)
    (* object literal: prototype [Object.prototype], every property
       enumerable and configurable *)
| JObject (nullProto : bool) (props : gmap string (Attributes * JsValue))
    (* any other object of data properties: sealed, frozen, made by
       [Object.create(null)] or [Object.defineProperty] *)
| JObjectFunction                             (* the global [Object] *)
| JOpaque (tag : string).                     (* array, function, class instance *)

(** The own enumerable properties of a plain object. *)
Abbreviation JsObj := (gmap string JsValue).

(** The own properties of an object, each with its attributes. *)
Abbreviation Props := (gmap string (Attributes * JsValue)).

Definition literal_attributes : Attributes :=
  {| enumerable := true; configurable := true |}.

Definition own_properties (v : JsValue) : Props :=
  match v with
  | JPlain fields => (fun x => (literal_attributes, x)) <$> fields
  | JObject _ props => props
  | _ => ∅
  end.

Definition enumerable_values (props : Props) : JsObj :=
  omap (fun p => if enumerable (fst p) then Some (snd p) else None) props.

(** The spread [{...a, ...b}]: every property is defined as an own property
    of the new object, those of [b] last. *)
Definition object_spread (a b : JsObj) : JsObj := b ∪ a.

(** [Object.assign(target, source)] on a target that inherits from
    [Object.prototype]: each own enumerable property of the source is
    assigned, those of the source win, and assigning [__proto__] runs the
    setter of [Object.prototype], which makes no own property.  The
    prototype that this setter may install on the target is not tracked. *)
Definition object_assign (target : JsObj) (source : Props) : JsObj :=
  delete "__proto__" (enumerable_values source) ∪ target.

(** A [Map<string, _>] with its insertion order, which [forEach] follows. *)
Section Assoc.
Context {A : Type}.

(** [m.get(k)]; [m.has(k)] is [is_Some (assoc_get k m)]. *)
Fixpoint assoc_get (k : string) (m : list (string * A)) : option A :=
  match m with
  | [] => None
  | (k', v) :: m' => if String.eqb k' k then Some v else assoc_get k m'
  end.

(** [m.set(k, v)]: an existing key keeps its position, a new key goes
    last. *)
Fixpoint assoc_set (k : string) (v : A) (m : list (string * A))
  : list (string * A) :=
  match m with
  | [] => [(k, v)]
  | (k', v') :: m' =>
      if String.eqb k' k then (k, v) :: m' else (k', v') :: assoc_set k v m'
  end.

End Assoc.

(** [v.constructor === Object] on an object of data properties: an own
    [constructor] is read first, then the one of [Object.prototype]. *)
Definition constructor_is_Object (nullProto : bool) (props : Props) : bool :=
  match props !! "constructor" with
  | Some (_, JObjectFunction) => true
  | Some _ => false
  | None => negb nullProto
  end.

(** [isPlainObject(v)]: non-null, [typeof v === 'object'], and
    [v.constructor === Object] or prototype-less. *)
Definition isPlainObject (v : JsValue) : bool :=
  match v with
  | JPlain _ => constructor_is_Object false (own_properties v)
  | JObject nullProto props => constructor_is_Object nullProto props || nullProto
  | _ => false
  end.

Definition instanceof_Error (v : JsValue) : bool :=
  match v with
  | JErrorInst _ _ _ => true
  | _ => false
  end.

(** A call returns normally or throws a value. *)
Inductive Completion : Type :=
| Normal
| Throw (exn : JsValue).

(** An expression gives a value or throws. *)
Inductive Outcome (A : Type) : Type :=
| Returns (a : A)
| Throws (exn : JsValue).
Arguments Returns {A} a.
Arguments Throws {A} exn.

Definition TypeError (msg : string) : JsValue :=
  JErrorInst (JString "TypeError") (JString msg) JUndefined.

(** ** Levels *)

Inductive LogLevel : Type := Debug | Info | Warn | Error.

Definition LogLevel_eqb (a b : LogLevel) : bool :=
  match a, b with
  | Debug, Debug | Info, Info | Warn, Warn | Error, Error => true
  | _, _ => false
  end.

Definition levelOrder (l : LogLevel) : Z :=
  match l with
  | Debug => 10
  | Info => 20
  | Warn => 30
  | Error => 40
  end%Z.

Definition levelEnabled (target current : LogLevel) : bool :=
  (levelOrder current <=? levelOrder target)%Z.

Inductive Frequency : Type := Daily | Hourly.

(** ** Transports, backends, options *)

(** A [LogTransport]: an external sink.  [handle] tells, for the arguments of
    one call, whether that call returns or throws; the call itself is
    recorded by the caller as an event carrying [tname]. *)
Record LogTransport : Type := {
  tname : string;
  handle : LogLevel -> string -> string -> JsObj -> Completion
}.

(** The three backends [buildBackend] can produce. *)
Inductive Backend : Type :=
| PinoChild (bindings : JsObj)       (* basePino.child(bindings) *)
| ConsoleBackend (ns : string)       (* consoleBackendFactory(ns): empty methods *)
| NoopBackend.                       (* noopBackend *)

Record LoggerOptions : Type := {
  opt_namespace : option string;
  opt_enabled : option bool;
  opt_level : option LogLevel;
  opt_bindings : option JsObj;
  opt_logDir : option string;
  opt_logFileName : option string;
  opt_disableConsole : option bool;
  opt_maxSize : option string;
  opt_maxFiles : option Z;
  opt_frequency : option Frequency;
  opt_transports : option (list LogTransport)
}.

(** The options object [{}]. *)
Definition no_options : LoggerOptions :=
  {| opt_namespace := None; opt_enabled := None; opt_level := None;
     opt_bindings := None; opt_logDir := None; opt_logFileName := None;
     opt_disableConsole := None; opt_maxSize := None; opt_maxFiles := None;
     opt_frequency := None; opt_transports := None |}.

(** The options object [{ namespace: ns }]. *)
Definition named (ns : string) : LoggerOptions :=
  {| opt_namespace := Some ns; opt_enabled := None; opt_level := None;
     opt_bindings := None; opt_logDir := None; opt_logFileName := None;
     opt_disableConsole := None; opt_maxSize := None; opt_maxFiles := None;
     opt_frequency := None; opt_transports := None |}.

(** ** The module-level constants *)

Record Env : Type := {
  isProd : bool;           (* NODE_ENV === 'production' *)
  stripLogs : bool;        (* STRIP_LOGS === 'true' *)
  pinoAvailable : bool;
  basePino : bool          (* is [basePino] truthy *)
}.

(** ** The store of Logger instances *)

Abbreviation ref := nat.

Record LoggerObj : Type := {
  namespace : string;
  enabled : bool;
  backend : Backend;
  minLevel : LogLevel;
  logDir : string;
  logFileName : string;
  disableConsole : bool;
  maxSize : option string;
  maxFiles : option Z;
  frequency : option Frequency;
  children : list (string * ref);    (* Map<string, Logger>, insertion order *)
  transports : list LogTransport
}.

Abbreviation Heap := (list LoggerObj).

(** ** What a call does to the outside world *)

Inductive Event : Type :=
| EvBackend (b : Backend) (level : LogLevel) (entry : JsObj) (args : list JsValue)
| EvTransport (t : string) (level : LogLevel) (ns message : string) (context : JsObj)
| EvConsoleDiag (label : string) (exn : JsValue)     (* console.error(label, exn) *)
| EvConsole (method : string) (line : string).       (* console[method](line) *)

(** ** The clock: [new Date().toISOString()] *)

Record Instant : Type := {
  year : N; month : N; day : N;
  hours : N; minutes : N; seconds : N; millis : N
}.

Definition digit (n : N) : ascii := ascii_of_N (48 + n mod 10)%N.

Definition pad2 (n : N) : string :=
  String (digit (n / 10)%N) (String (digit n) "").

Definition pad3 (n : N) : string := String (digit (n / 100)%N) (pad2 n).

Definition pad4 (n : N) : string := String (digit (n / 1000)%N) (pad3 n).

Definition pad6 (n : N) : string :=
  String (digit (n / 100000)%N) (String (digit (n / 10000)%N) (pad4 n)).

(** [YYYY-MM-DDTHH:MM:SS.mmmZ]; years past 9999 use the expanded
    [+YYYYYY] form. *)
Definition toISOString (d : Instant) : string :=
  (if (year d <=? 9999)%N then pad4 (year d) else "+" +:+ pad6 (year d))
  +:+ "-" +:+ pad2 (month d) +:+ "-" +:+ pad2 (day d)
  +:+ "T" +:+ pad2 (hours d) +:+ ":" +:+ pad2 (minutes d)
  +:+ ":" +:+ pad2 (seconds d) +:+ "." +:+ pad3 (millis d) +:+ "Z".

(** [s.substring(from, to)] for [from <= to]. *)
Definition js_substring (from to : nat) (s : string) : string :=
  String.substring from (to - from) s.

Definition formatConsoleMessage (now : Instant) (ns msg : string) : string :=
  let timestamp := js_substring 11 19 (toISOString now) in
  timestamp +:+ " [" +:+ ns +:+ "] " +:+ msg.

Definition level_name (l : LogLevel) : string :=
  match l with
  | Debug => "debug"
  | Info => "info"
  | Warn => "warn"
  | Error => "error"
  end.

Definition writeToConsole (now : Instant) (level : LogLevel) (ns msg : string)
  : list Event :=
  let formatted := formatConsoleMessage now ns msg in
  let method := if LogLevel_eqb level Debug then "log" else level_name level in
  [EvConsole method formatted].

(** ** Sequencing of effects *)

(** The events of a statement and how it completed. *)
Abbreviation Run := (list Event * Completion)%type.

(** [s1; s2]: [s2] runs only if [s1] returned. *)
Definition and_then (s1 : Run) (s2 : Run) : Run :=
  match s1 with
  | (evs, Normal) => (evs ++ fst s2, snd s2)
  | (evs, Throw e) => (evs, Throw e)
  end.

(** [try { body } catch (error) { handler(error) }] *)
Definition try_catch (body : Run) (handler : JsValue -> Run) : Run :=
  match body with
  | (evs, Normal) => (evs, Normal)
  | (evs, Throw e) => (evs ++ fst (handler e), snd (handler e))
  end.

(** ** class Logger *)

Section LoggerClass.
Variable E : Env.

(** [s || d] on strings: the empty string is falsy. *)
Definition str_or (s : option string) (d : string) : string :=
  match s with
  | Some x => if String.eqb x "" then d else x
  | None => d
  end.

Definition buildBackend (ns : string) (extraBindings : option JsObj) : Backend :=
  if pinoAvailable E && basePino E then
    PinoChild (object_spread {["ns" := JString ns]} (default ∅ extraBindings))
  else if negb (isProd E) then ConsoleBackend ns
  else NoopBackend.

(** [new Logger(options)]: the fields of the fresh instance. *)
Definition constructor (options : LoggerOptions) : LoggerObj :=
  let ns := str_or (opt_namespace options) "Anonymous" in
  let ts := default [] (opt_transports options) in
  let hasTransports := negb (Nat.eqb (length ts) 0) in
  {| namespace := ns;
     minLevel := default (if isProd E then Info else Debug) (opt_level options);
     logDir := str_or (opt_logDir options) "./logs";
     logFileName := str_or (opt_logFileName options) "app.log";
     disableConsole := default false (opt_disableConsole options);
     maxSize := opt_maxSize options;
     maxFiles := opt_maxFiles options;
     frequency := opt_frequency options;
     transports := ts;
     backend := buildBackend ns (opt_bindings options);
     children := [];
     enabled :=
       negb (stripLogs E)
       && match opt_enabled options with Some false => false | _ => true end
       && (negb (isProd E) || pinoAvailable E || hasTransports) |}.

(** The loop [for (const transport of transports) transport.handle(...)]:
    a throwing [handle] ends the loop. *)
Fixpoint fanout (ts : list LogTransport) (level : LogLevel)
  (ns message : string) (entry : JsObj) : Run :=
  match ts with
  | [] => ([], Normal)
  | t :: ts' =>
      and_then
        ([EvTransport (tname t) level ns message entry],
         handle t level ns message entry)
        (fanout ts' level ns message entry)
  end.

(** The second stage of [emit]: the loop inside its [try]/[catch]. *)
Definition transport_stage (this : LoggerObj) (level : LogLevel)
  (message : string) (entry : JsObj) : Run :=
  if negb (Nat.eqb (length (transports this)) 0) then
    try_catch
      (fanout (transports this) level (namespace this) message entry)
      (fun error =>
         ([EvConsoleDiag "[LogTransport] Error in custom transport:" error],
          Normal))
  else ([], Normal).

(** The leading plain-object argument, shifted off [args]. *)
Definition take_context (args : list JsValue)
  : option JsValue * list JsValue :=
  match args with
  | a0 :: rest =>
      if isPlainObject a0 && negb (instanceof_Error a0)
      then (Some a0, rest) else (None, args)
  | [] => (None, args)
  end.

(** [{ name: e.name, message: e.message, stack: e.stack }] *)
Definition error_fields (n m st : JsValue) : JsObj :=
  {[ "name" := n; "message" := m; "stack" := st ]}.

(** [context?.error instanceof Error]: the flattened error and the
    properties of the context once [delete context.error] has run.  The
    code is strict, so deleting a property that is not configurable (as
    every property of a sealed or frozen object) throws a TypeError. *)
Definition lift_error (context : option JsValue)
  : Outcome (option JsValue * option Props) :=
  match context with
  | Some c =>
      match own_properties c !! "error" with
      | Some (a, JErrorInst n m st) =>
          if configurable a then
            Returns (Some (JPlain (error_fields n m st)),
                     Some (delete "error" (own_properties c)))
          else
            Throws (TypeError "Cannot delete property 'error' of #<Object>")
      | _ => Returns (None, Some (own_properties c))
      end
  | None => Returns (None, None)
  end.

(** [entry], as built from what the lifting left. *)
Definition merge_entry (message : string)
  (lifted : option JsValue * option Props) : JsObj :=
  let '(errObj, context) := lifted in
  let entry : JsObj := {["msg" := JString message]} in
  let entry := match context with
               | Some c => object_assign entry c
               | None => entry
               end in
  match errObj with
  | Some e => <["err" := e]> entry
  | None => entry
  end.

(** The entry of a call; no entry is built when the lifting throws. *)
Definition build_entry (message : string) (args : list JsValue) : JsObj :=
  match lift_error (fst (take_context args)) with
  | Returns lifted => merge_entry message lifted
  | Throws _ => ∅
  end.

(** The gate at the head of [emit]: [true] when the call returns at once. *)
Definition gated (this : LoggerObj) (level : LogLevel) : bool :=
  negb (LogLevel_eqb level Error)
  && (negb (enabled this)
      || (negb (pinoAvailable E) && negb (levelEnabled level (minLevel this)))).

Definition emit (now : Instant) (this : LoggerObj) (level : LogLevel)
  (message : string) (args : list JsValue) (writeConsole : bool) : Run :=
  if gated this level then ([], Normal)
  else
    match lift_error (fst (take_context args)) with
    | Throws exn => ([], Throw exn)
    | Returns lifted =>
        let entry := merge_entry message lifted in
        let rest := snd (take_context args) in
        (* 1. structured logging *)
        and_then ([EvBackend (backend this) level entry rest], Normal)
        (* 2. custom transports *)
        (and_then
           (transport_stage this level message entry)
        (* 3. clean console output *)
           (if writeConsole && negb (LogLevel_eqb level Debug)
               && negb (disableConsole this)
            then (writeToConsole now level (namespace this) message, Normal)
            else ([], Normal)))
    end.

Definition debug (now : Instant) (this : LoggerObj) (message : string)
  (args : list JsValue) : Run := emit now this Debug message args false.

Definition info (now : Instant) (this : LoggerObj) (message : string)
  (args : list JsValue) : Run := emit now this Info message args true.

Definition warn (now : Instant) (this : LoggerObj) (message : string)
  (args : list JsValue) : Run := emit now this Warn message args true.

Definition error (now : Instant) (this : LoggerObj) (message : string)
  (args : list JsValue) : Run := emit now this Error message args true.

(** The public emission method of each level. *)
Definition log (level : LogLevel) : Instant -> LoggerObj -> string ->
  list JsValue -> Run :=
  match level with
  | Debug => debug
  | Info => info
  | Warn => warn
  | Error => error
  end.

End LoggerClass.

(** ** Methods that read or write the store *)

(** Sequential iteration with an early exit on failure. *)
Fixpoint forEach {A S : Type} (f : A -> S -> option S) (l : list A) (s : S)
  : option S :=
  match l with
  | [] => Some s
  | x :: l' => s' ← f x s; forEach f l' s'
  end.

Section LoggerStore.
Variable E : Env.

(** [new Logger(options)] as an allocation: the fresh reference is the next
    free index. *)
Definition alloc (o : LoggerObj) (h : Heap) : ref * Heap :=
  (length h, h ++ [o]).

Definition with_children (o : LoggerObj) (cs : list (string * ref)) : LoggerObj :=
  {| namespace := namespace o; enabled := enabled o; backend := backend o;
     minLevel := minLevel o; logDir := logDir o; logFileName := logFileName o;
     disableConsole := disableConsole o; maxSize := maxSize o;
     maxFiles := maxFiles o; frequency := frequency o;
     children := cs; transports := transports o |}.

(** The options [child] passes to [new Logger]. *)
Definition child_options (this : LoggerObj) (subNamespace : string)
  (bindings : option JsObj) : LoggerOptions :=
  {| opt_namespace := Some (namespace this +:+ "." +:+ subNamespace);
     opt_enabled := Some (enabled this);
     opt_level := Some (minLevel this);
     opt_logDir := Some (logDir this);
     opt_logFileName := Some (logFileName this);
     opt_disableConsole := Some (disableConsole this);
     opt_maxSize := maxSize this;
     opt_maxFiles := maxFiles this;
     opt_frequency := frequency this;
     opt_transports := Some (transports this);
     opt_bindings := bindings |}.

(** [this.child(subNamespace, bindings)]; [None] only for a dangling
    [this]. *)
Definition child (this : ref) (subNamespace : string)
  (bindings : option JsObj) (h : Heap) : option (ref * Heap) :=
  o ← h !! this;
  match assoc_get subNamespace (children o) with
  | Some c => Some (c, h)
  | None =>
      let '(childLogger, h1) :=
        alloc (constructor E (child_options o subNamespace bindings)) h in
      Some (childLogger,
            <[this := with_children o
                        (assoc_set subNamespace childLogger (children o))]> h1)
  end.

(** The assignments [setConfig] makes to [this], in source order. *)
Definition setConfig_fields (config : LoggerOptions) (this : LoggerObj)
  : LoggerObj :=
  let nonempty (ts : list LogTransport) := negb (Nat.eqb (length ts) 0) in
  let enabled1 :=
    match opt_enabled config with
    | Some b =>
        let hasTransports :=
          match opt_transports config with
          | Some ts => nonempty ts
          | None => false
          end || nonempty (transports this) in
        negb (stripLogs E) && b
        && (negb (isProd E) || pinoAvailable E || hasTransports)
    | None => enabled this
    end in
  let enabled2 :=
    match opt_transports config with
    | Some ts =>
        if nonempty ts && negb enabled1 && negb (stripLogs E) then true
        else enabled1
    | None => enabled1
    end in
  {| namespace := namespace this;
     backend := backend this;
     children := children this;
     logDir := default (logDir this) (opt_logDir config);
     logFileName := default (logFileName this) (opt_logFileName config);
     disableConsole := default (disableConsole this) (opt_disableConsole config);
     maxSize := match opt_maxSize config with
                | Some x => Some x
                | None => maxSize this
                end;
     maxFiles := match opt_maxFiles config with
                 | Some x => Some x
                 | None => maxFiles this
                 end;
     frequency := match opt_frequency config with
                  | Some x => Some x
                  | None => frequency this
                  end;
     minLevel := default (minLevel this) (opt_level config);
     enabled := enabled2;
     transports := default (transports this) (opt_transports config) |}.

(** [this.setConfig(config)], with the recursion depth bounded by [fuel];
    [None] when the fuel runs out or a reference dangles. *)
Fixpoint setConfig_rec (fuel : nat) (config : LoggerOptions) (this : ref)
  (h : Heap) : option Heap :=
  match fuel with
  | 0 => None
  | S fuel' =>
      o ← h !! this;
      forEach (fun kc h' => setConfig_rec fuel' config (snd kc) h')
        (children o) (<[this := setConfig_fields config o]> h)
  end.

(** A chain of children is never longer than the store. *)
Definition setConfig (config : LoggerOptions) (this : ref) (h : Heap)
  : option Heap :=
  setConfig_rec (length h) config this h.

(** The options [with] passes to [new Logger]: no [transports]. *)
Definition with_options (this : LoggerObj) (bindings : JsObj) : LoggerOptions :=
  {| opt_namespace := Some (namespace this);
     opt_enabled := Some (enabled this);
     opt_level := Some (minLevel this);
     opt_logDir := Some (logDir this);
     opt_logFileName := Some (logFileName this);
     opt_disableConsole := Some (disableConsole this);
     opt_maxSize := maxSize this;
     opt_maxFiles := maxFiles this;
     opt_frequency := frequency this;
     opt_transports := None;
     opt_bindings := Some bindings |}.

(** [this.with(bindings)]; [with] is a Rocq keyword. *)
Definition with_ (this : ref) (bindings : JsObj) (h : Heap)
  : option (ref * Heap) :=
  o ← h !! this;
  Some (alloc (constructor E (with_options o bindings)) h).

(** ** The registry and [getLogger] *)

Record State : Type := {
  heap : Heap;
  loggerRegistry : gmap string ref
}.

(** [s.split('.')] *)
Fixpoint split_dot (s : string) : list string :=
  match s with
  | EmptyString => [""]
  | String c rest =>
      if Ascii.eqb c "."%char then "" :: split_dot rest
      else match split_dot rest with
           | [] => [String c ""]
           | x :: xs => String c x :: xs
           end
  end.

(** The loop of [getLogger] over [parts[1..]]. *)
Fixpoint walk (parts : list string) (currentLogger : ref)
  (currentPath : string) (st : State) : option (ref * State) :=
  match parts with
  | [] => Some (currentLogger, st)
  | childName :: rest =>
      let currentPath := currentPath +:+ "." +:+ childName in
      st1 ← match loggerRegistry st !! currentPath with
            | Some _ => Some st
            | None =>
                '(childLogger, h1) ← child currentLogger childName None (heap st);
                Some {| heap := h1;
                        loggerRegistry :=
                          <[currentPath := childLogger]> (loggerRegistry st) |}
            end;
      currentLogger ← loggerRegistry st1 !! currentPath;
      walk rest currentLogger currentPath st1
  end.

Definition getLogger (path : string) (st : State) : option (ref * State) :=
  match loggerRegistry st !! path with
  | Some r => Some (r, st)
  | None =>
      let parts := split_dot path in
      let rootName := hd "" parts in
      let st1 :=
        match loggerRegistry st !! rootName with
        | Some _ => st
        | None =>
            let '(rootLogger, h1) :=
              alloc (constructor E (named rootName)) (heap st) in
            {| heap := h1;
               loggerRegistry := <[rootName := rootLogger]> (loggerRegistry st) |}
        end in
      currentLogger ← loggerRegistry st1 !! rootName;
      walk (tl parts) currentLogger rootName st1
  end.

(** The module's exports: [logger = getLogger('QwickApps')] and the eight
    [commonLoggers], created in source order. *)
Definition commonLogger_names : list string :=
  ["App"; "API"; "Auth"; "Data"; "UI"; "Performance"; "Error"; "Debug"].

Definition module_state : option (ref * State) :=
  '(logger, st) ← getLogger "QwickApps" {| heap := []; loggerRegistry := ∅ |};
  h ← forEach (fun name h => snd <$> child logger name None h)
        commonLogger_names (heap st);
  Some (logger, {| heap := h; loggerRegistry := loggerRegistry st |}).

End LoggerStore.

(** ** Module start-up: acquiring pino *)

Definition bind_outcome {A B : Type} (m : Outcome A) (k : A -> Outcome B)
  : Outcome B :=
  match m with
  | Returns a => k a
  | Throws e => Throws e
  end.

(** [try { body } catch { fallback }] *)
Definition try_or {A : Type} (body : Outcome A) (fallback : A) : Outcome A :=
  match body with
  | Returns a => Returns a
  | Throws _ => Returns fallback
  end.

(** What the host gives the module when it is loaded. *)
Record Host : Type := {
  window_defined : bool;             (* typeof window !== 'undefined' *)
  process_defined : bool;            (* typeof process !== 'undefined' *)
  NODE_ENV : option string;
  STRIP_LOGS : option string;
  LOG_FILE : option string;
  LOG_FILE_PATH : option string;
  LOGFIRE_TOKEN : option string;
  HOSTNAME : option string;
  require_defined : bool;            (* typeof require !== 'undefined' *)
  require_pino : Outcome bool;       (* require('pino'): is the module truthy *)
  os_hostname : Outcome string;      (* require('os').hostname() *)
  pinoModule_call : Outcome bool     (* pinoModule(pinoConfig): is the instance truthy *)
}.

Definition truthy_str (s : option string) : bool :=
  match s with
  | Some x => negb (String.eqb x "")
  | None => false
  end.

Definition str_is (s : option string) (lit : string) : bool :=
  match s with
  | Some x => String.eqb x lit
  | None => false
  end.

Definition ReferenceError (msg : string) : JsValue :=
  JErrorInst (JString "ReferenceError") (JString msg) JUndefined.

(** An unguarded [process.env.X]. *)
Definition process_env {A : Type} (H : Host) (v : A) : Outcome A :=
  if process_defined H then Returns v
  else Throws (ReferenceError "process is not defined").

(** The module's top-level statements up to [basePino], in source order. *)
Definition module_init (H : Host) : Outcome Env :=
  let isBrowser := window_defined H in
  let isProd := process_defined H && str_is (NODE_ENV H) "production" in
  let stripLogs := process_defined H && str_is (STRIP_LOGS H) "true" in
  bind_outcome
    (try_or
       (if require_defined H then require_pino H else Returns false)
       false)
    (fun pinoAvailable =>
  bind_outcome
    (if pinoAvailable
     then process_env H (str_is (LOG_FILE H) "true" && truthy_str (LOG_FILE_PATH H))
     else Returns false)
    (fun logFileEnabled =>
  bind_outcome
    (if negb isBrowser then process_env H (truthy_str (LOGFIRE_TOKEN H))
     else Returns false)
    (fun logfireEnabled =>
  bind_outcome
    (if pinoAvailable then
       bind_outcome (process_env H tt) (fun _ =>
       bind_outcome
         (if truthy_str (HOSTNAME H) then Returns tt
          else bind_outcome (os_hostname H) (fun _ => Returns tt))
         (fun _ => pinoModule_call H))
     else Returns false)
    (fun basePino =>
  Returns {| isProd := isProd; stripLogs := stripLogs;
             pinoAvailable := pinoAvailable; basePino := basePino |})))).

(** ** The bootstrap logger: class StartupLogger *)

(** [Required<StartupLoggerConfig>]: the configuration after the defaults
    have been merged in. *)
Record StartupConfig : Type := {
  maxFileSize : N;                 (* bytes *)
  maxBackups : nat;
  includeEnv : bool;
  envWhitelist : list string;
  envBlacklist : list string
}.

Definition DEFAULT_CONFIG : StartupConfig :=
  {| maxFileSize := 5 * 1024 * 1024;
     maxBackups := 3;
     includeEnv := true;
     envWhitelist := [];
     envBlacklist :=
       ["PAYLOAD_SECRET"; "DATABASE_PASSWORD"; "API_KEY"; "SECRET"; "TOKEN";
        "PASSWORD"; "PRIVATE_KEY"] |}.

(** [s.includes(sub)] *)
Fixpoint includes (s sub : string) : bool :=
  if String.prefix sub s then true
  else match s with
       | EmptyString => false
       | String _ rest => includes rest sub
       end.

Section SafeEnv.
(** [String.prototype.toLowerCase], left to the host. *)
Variable toLowerCase : string -> string.

(** [blacklistPatterns.some(pattern => keyLower.includes(pattern))] *)
Definition isBlacklisted (config : StartupConfig) (key : string) : bool :=
  existsb (fun pattern => includes (toLowerCase key) pattern)
    (map toLowerCase (envBlacklist config)).

(** [env[key] = value] on the accumulator, an object literal: the key
    [__proto__] runs the setter of [Object.prototype], which ignores a
    string, so nothing is recorded under it. *)
Definition assigned (key value : string) : option string :=
  if String.eqb key "__proto__" then None else Some value.

(** What the loop of [getSafeEnv] does with one entry of [process.env]:
    [None] when nothing is recorded. *)
Definition safe_entry (config : StartupConfig) (key value : string)
  : option string :=
  if String.eqb value "" then None
  else if negb (Nat.eqb (length (envWhitelist config)) 0)
          && negb (existsb (String.eqb key) (envWhitelist config))
  then None
  else if isBlacklisted config key then assigned key "[REDACTED]"
  else assigned key value.

(** [getSafeEnv()], on the entries of [process.env]. *)
Definition getSafeEnv (config : StartupConfig) (env : gmap string string)
  : gmap string string :=
  map_imap (safe_entry config) env.

End SafeEnv.

(** ASCII lower-casing, the behaviour of [toLowerCase] on the names of
    environment variables. *)
Definition ascii_lower (c : ascii) : ascii :=
  let n := nat_of_ascii c in
  if (Nat.leb 65 n && Nat.leb n 90)%bool then ascii_of_nat (n + 32) else c.

Fixpoint string_lower (s : string) : string :=
  match s with
  | EmptyString => EmptyString
  | String c rest => String (ascii_lower c) (string_lower rest)
  end.

(** ASCII upper-casing, the behaviour of [toUpperCase] on the names of
    the levels. *)
Definition ascii_upper (c : ascii) : ascii :=
  let n := nat_of_ascii c in
  if (Nat.leb 97 n && Nat.leb n 122)%bool then ascii_of_nat (n - 32) else c.

Fixpoint string_upper (s : string) : string :=
  match s with
  | EmptyString => EmptyString
  | String c rest => String (ascii_upper c) (string_upper rest)
  end.

(** The files of the log directory: resolved path to content.  File
    operations on existing files are taken to succeed. *)
Abbreviation FileSystem := (gmap string string).

(** [`${logPath}.${i}`] *)
Definition backup_path (logPath : string) (i : nat) : string :=
  logPath +:+ "." +:+ pretty i.

(** [i === 0 ? logPath : `${logPath}.${i}`] *)
Definition rotation_slot (logPath : string) (i : nat) : string :=
  if Nat.eqb i 0 then logPath else backup_path logPath i.

(** One round of the rotation loop, for the index [i]. *)
Definition rotate_step (config : StartupConfig) (logPath : string)
  (fs : FileSystem) (i : nat) : FileSystem :=
  let current := rotation_slot logPath i in
  let next := backup_path logPath (i + 1) in
  match fs !! current with
  | Some content =>
      if Nat.eqb i (maxBackups config - 1) then delete current fs
      else <[next := content]> (delete current fs)
  | None => fs
  end.

(** [rotateIfNeeded()], with [logPath] the resolved path of the log; the
    loop runs [i] from [maxBackups - 1] down to [0]. *)
Definition rotateIfNeeded (config : StartupConfig) (logPath : string)
  (fs : FileSystem) : FileSystem :=
  match fs !! logPath with
  | None => fs
  | Some content =>
      if (N.of_nat (String.length content) <? maxFileSize config)%N then fs
      else fold_left (rotate_step config logPath)
             (rev (seq 0 (maxBackups config))) fs
  end.

Inductive StartupPhase : Type :=
| INIT | CONFIG | DATABASE | PAYLOAD | PLUGINS | SERVER | READY
| ERROR | SHUTDOWN.

(** A [StartupLogEntry] as [parseLog] returns it: the level and the phase
    are whatever strings the line of the log file holds. *)
Record StartupLogEntry : Type := {
  se_timestamp : string;
  se_level : string;
  se_phase : string;
  se_message : string;
  se_duration : option Z;
  se_metadata : option JsObj;
  se_error : option JsObj
}.

Inductive StartupStatus : Type := success | failed | in_progress.

(** [timing.end ? timing.end - timing.start : 'incomplete'] *)
Inductive PhaseReport : Type :=
| elapsed (ms : Z)
| incomplete.

Definition phase_report (timing : Z * option Z) : PhaseReport :=
  match snd timing with
  | Some e => if (e =? 0)%Z then incomplete else elapsed (e - fst timing)
  | None => incomplete
  end.

Record Diagnostics : Type := {
  diag_entries : list StartupLogEntry;
  diag_errors : list StartupLogEntry;
  diag_phases : list (StartupPhase * PhaseReport);
  diag_status : StartupStatus
}.

(** [getDiagnostics()], given what [parseLog()] returned and the [phases]
    map of the instance. *)
Definition getDiagnostics (entries : list StartupLogEntry)
  (phases : list (StartupPhase * (Z * option Z))) : Diagnostics :=
  let hasReady := existsb (fun e => String.eqb (se_phase e) "READY") entries in
  let hasFailed := existsb (fun e => String.eqb (se_phase e) "ERROR") entries in
  {| diag_entries := drop (length entries - 100) entries;
     diag_errors :=
       filter (fun e => String.eqb (se_level e) "error" = true) entries;
     diag_phases := map (fun pt => (fst pt, phase_report (snd pt))) phases;
     diag_status := if hasFailed then failed
                    else if hasReady then success else in_progress |}.

(** ** The bootstrap logger: phases and entries *)

Definition StartupPhase_eqb (a b : StartupPhase) : bool :=
  match a, b with
  | INIT, INIT | CONFIG, CONFIG | DATABASE, DATABASE | PAYLOAD, PAYLOAD
  | PLUGINS, PLUGINS | SERVER, SERVER | READY, READY | ERROR, ERROR
  | SHUTDOWN, SHUTDOWN => true
  | _, _ => false
  end.

(** The string a phase is at run time. *)
Definition phase_name (p : StartupPhase) : string :=
  match p with
  | INIT => "INIT" | CONFIG => "CONFIG" | DATABASE => "DATABASE"
  | PAYLOAD => "PAYLOAD" | PLUGINS => "PLUGINS" | SERVER => "SERVER"
  | READY => "READY" | ERROR => "ERROR" | SHUTDOWN => "SHUTDOWN"
  end.

(** JavaScript truthiness, as [||] and [if] test it. *)
Definition js_truthy (v : JsValue) : bool :=
  match v with
  | JUndefined | JNull => false
  | JBool b => b
  | JNumber n => negb (n =? 0)%Z
  | JString s => negb (String.eqb s "")
  | _ => true
  end.

(** [o.k] on an object: [undefined] when the property is missing. *)
Definition js_prop (o : JsObj) (k : string) : JsValue :=
  default JUndefined (o !! k).

Fixpoint spaces (n : nat) : string :=
  match n with
  | 0 => ""
  | S n' => String " "%char (spaces n')
  end.

(** [s.padEnd(n)] *)
Definition padEnd (s : string) (n : nat) : string :=
  s +:+ spaces (n - String.length s).

(** [timing.end ? ... : 'incomplete'] as the JSON value of the summary. *)
Definition report_value (r : PhaseReport) : JsValue :=
  match r with
  | elapsed ms => JNumber ms
  | incomplete => JString "incomplete"
  end.

Module Startup.

(** [Map<StartupPhase, { start, end? }>] with its insertion order. *)
Abbreviation PhaseMap := (list (StartupPhase * (Z * option Z))).

(** [phases.get(phase)]; [phases.has(phase)] is [is_Some] of it. *)
Fixpoint phases_get (phase : StartupPhase) (m : PhaseMap)
  : option (Z * option Z) :=
  match m with
  | [] => None
  | (p, t) :: m' =>
      if StartupPhase_eqb p phase then Some t else phases_get phase m'
  end.

(** [phases.set(phase, t)], also the in-place update of a record of the
    map: an existing key keeps its position. *)
Fixpoint phases_set (phase : StartupPhase) (t : Z * option Z) (m : PhaseMap)
  : PhaseMap :=
  match m with
  | [] => [(phase, t)]
  | (p, t') :: m' =>
      if StartupPhase_eqb p phase then (phase, t) :: m'
      else (p, t') :: phases_set phase t m'
  end.

(** [Object.fromEntries(Array.from(phases.entries()).map(...))] *)
Definition phase_summary (m : PhaseMap) : JsObj :=
  fold_left
    (fun acc pt => <[phase_name (fst pt) := report_value (phase_report (snd pt))]> acc)
    m ∅.

(** The fields of an instance. *)
Record StartupLogger : Type := {
  config : StartupConfig;
  startTime : Z;
  currentPhase : StartupPhase;
  phaseStartTime : Z;
  phases : PhaseMap
}.

(** What the header reads from [process]. *)
Record Process : Type := {
  version : string;
  platform : string;
  arch : string;
  pid : Z;
  cwd : string;
  env : gmap string string
}.

(** What an instance does to the outside, each [append] being an
    [appendFileSync] on the log file. *)
Inductive Output : Type :=
| AppendHeader (header : JsObj)
    (* separator + JSON.stringify(header, null, 2) + '\n' *)
| AppendEntry (entry : StartupLogEntry)
    (* JSON.stringify(entry) + '\n' *)
| AppendSummary (summary : JsObj)
    (* '\n' + JSON.stringify(summary, null, 2) + '\n' *)
| AppendSeparator
    (* '\n' + '='.repeat(80) + '\n' *)
| ConsoleLog (line : string)
| ConsoleError (v : JsValue).

(** The process around the instance: how often the clock has been read,
    and what has been written. *)
Record World : Type := {
  reads : nat;
  outputs : list Output
}.

Section Methods.
(** The value of the n-th reading of the clock, [Date.now()] or
    [new Date()]. *)
Variable Date_now : nat -> Z.
(** [new Date(ms)] *)
Variable Date_of : Z -> Instant.
Variable toLowerCase : string -> string.
Variable toUpperCase : string -> string.

Definition read_clock (w : World) : Z * World :=
  (Date_now (reads w), {| reads := S (reads w); outputs := outputs w |}).

Definition write (o : list Output) (w : World) : World :=
  {| reads := reads w; outputs := outputs w ++ o |}.

Definition writeHeader (process : Process) (this : StartupLogger)
  (w : World) : World :=
  let header : JsObj :=
    {[ "type" := JString "STARTUP_BEGIN";
       "timestamp" := JString (toISOString (Date_of (startTime this)));
       "node_version" := JString (version process);
       "platform" := JString (platform process);
       "arch" := JString (arch process);
       "pid" := JNumber (pid process);
       "cwd" := JString (cwd process);
       "env" := if includeEnv (config this)
                then JPlain (JString <$> getSafeEnv toLowerCase (config this)
                                           (env process))
                else JUndefined ]} in
  write [AppendHeader header] w.

(** [new StartupLogger(config)], with [config] already merged over the
    defaults and [logPath] resolved: the rotated log directory, the
    instance and the header written. *)
Definition constructor (config : StartupConfig) (logPath : string)
  (process : Process) (fs : FileSystem) (w : World)
  : StartupLogger * FileSystem * World :=
  let '(t, w1) := read_clock w in
  let this :=
    {| config := config; startTime := t; currentPhase := INIT;
       phaseStartTime := t; phases := [] |} in
  (this, rotateIfNeeded config logPath fs, writeHeader process this w1).

Definition writeEntry (entry : StartupLogEntry) (w : World) : World :=
  let prefix := "[" +:+ se_phase entry +:+ "]" in
  let levelPrefix := padEnd (toUpperCase (se_level entry)) 5 in
  write
    (AppendEntry entry
     :: ConsoleLog (levelPrefix +:+ " " +:+ prefix +:+ " " +:+ se_message entry)
     :: match se_error entry with
        | Some err =>
            [ConsoleError (if js_truthy (js_prop err "stack")
                           then js_prop err "stack"
                           else js_prop err "message")]
        | None => []
        end)
    w.

Definition log (level : LogLevel) (message : string)
  (metadata : option JsObj) (this : StartupLogger) (w : World) : World :=
  let '(t1, w1) := read_clock w in
  let '(t2, w2) := read_clock w1 in
  writeEntry
    {| se_timestamp := toISOString (Date_of t1);
       se_level := level_name level;
       se_phase := phase_name (currentPhase this);
       se_message := message;
       se_duration := Some (t2 - startTime this)%Z;
       se_metadata := metadata;
       se_error := None |}
    w2.

(** [logError(message, error, metadata)] for an Error instance with the
    properties [n], [m] and [st]. *)
Definition logError (message : string) (n m st : JsValue)
  (metadata : option JsObj) (this : StartupLogger) (w : World) : World :=
  let '(t1, w1) := read_clock w in
  let '(t2, w2) := read_clock w1 in
  writeEntry
    {| se_timestamp := toISOString (Date_of t1);
       se_level := "error";
       se_phase := phase_name (currentPhase this);
       se_message := message;
       se_duration := Some (t2 - startTime this)%Z;
       se_metadata := metadata;
       se_error := Some (error_fields n m st) |}
    w2.

(** [if (this.phases.has(this.currentPhase)) { ... .end = Date.now() }] *)
Definition close_current (this : StartupLogger) (w : World)
  : PhaseMap * World :=
  match phases_get (currentPhase this) (phases this) with
  | Some timing =>
      let '(t, w1) := read_clock w in
      (phases_set (currentPhase this) (fst timing, Some t) (phases this), w1)
  | None => (phases this, w)
  end.

Definition startPhase (phase : StartupPhase) (message : option string)
  (this : StartupLogger) (w : World) : StartupLogger * World :=
  let '(closed, w1) := close_current this w in
  let '(t, w2) := read_clock w1 in
  let this' :=
    {| config := config this; startTime := startTime this;
       currentPhase := phase; phaseStartTime := t;
       phases := phases_set phase (t, None) closed |} in
  (this',
   log Info (str_or message ("Starting phase: " +:+ phase_name phase)) None
     this' w2).

Definition completePhase (message : option string) (this : StartupLogger)
  (w : World) : StartupLogger * World :=
  let '(t, w1) := read_clock w in
  let phaseDuration := (t - phaseStartTime this)%Z in
  let '(closed, w2) := close_current this w1 in
  let this' :=
    {| config := config this; startTime := startTime this;
       currentPhase := currentPhase this;
       phaseStartTime := phaseStartTime this; phases := closed |} in
  (this',
   log Info
     (str_or message
        ("Phase " +:+ phase_name (currentPhase this) +:+ " completed"))
     (Some {[ "phaseDuration" := JNumber phaseDuration ]}) this' w2).

Definition complete (message : option string) (this : StartupLogger)
  (w : World) : StartupLogger * World :=
  let '(t, w1) := read_clock w in
  let totalDuration := (t - startTime this)%Z in
  let '(this', w2) := startPhase READY None this w1 in
  let '(t', w3) := read_clock w2 in
  let summary : JsObj :=
    {[ "type" := JString "STARTUP_COMPLETE";
       "timestamp" := JString (toISOString (Date_of t'));
       "totalDuration" := JNumber totalDuration;
       "phases" := JPlain (phase_summary (phases this')) ]} in
  (this',
   write [AppendSeparator]
     (log Info (str_or message "Application startup complete") (Some summary)
        this' w3)).

Definition fail (n m st : JsValue) (message : option string)
  (this : StartupLogger) (w : World) : StartupLogger * World :=
  let '(this', w1) := startPhase ERROR None this w in
  let w2 := logError (str_or message "Startup failed") n m st None this' w1 in
  let '(t1, w3) := read_clock w2 in
  let '(t2, w4) := read_clock w3 in
  let summary : JsObj :=
    {[ "type" := JString "STARTUP_FAILED";
       "timestamp" := JString (toISOString (Date_of t1));
       "totalDuration" := JNumber (t2 - startTime this')%Z;
       "error" := JPlain {[ "name" := n; "message" := m ]} ]} in
  (this', write [AppendSummary summary] w4).

(** A call of a public method by the application. *)
Inductive Call : Type :=
| CallLog (level : LogLevel) (message : string) (metadata : option JsObj)
| CallLogError (message : string) (n m st : JsValue)
    (metadata : option JsObj)
| CallStartPhase (phase : StartupPhase) (message : option string)
| CallCompletePhase (message : option string)
| CallComplete (message : option string)
| CallFail (n m st : JsValue) (message : option string).

Definition call (s : StartupLogger * World) (c : Call)
  : StartupLogger * World :=
  let '(this, w) := s in
  match c with
  | CallLog level message metadata => (this, log level message metadata this w)
  | CallLogError message n m st metadata =>
      (this, logError message n m st metadata this w)
  | CallStartPhase phase message => startPhase phase message this w
  | CallCompletePhase message => completePhase message this w
  | CallComplete message => complete message this w
  | CallFail n m st message => fail n m st message this w
  end.

(** The instance and the world after the application has made [calls] on
    a new instance. *)
Definition run (config : StartupConfig) (logPath : string)
  (process : Process) (fs : FileSystem) (w : World) (calls : list Call)
  : StartupLogger * World :=
  let '(this, _, w1) := constructor config logPath process fs w in
  fold_left call calls (this, w1).

End Methods.

(** The phase that a call opens, if any. *)
Definition opens (c : Call) : option StartupPhase :=
  match c with
  | CallStartPhase phase _ => Some phase
  | CallComplete _ => Some READY
  | CallFail _ _ _ _ => Some ERROR
  | _ => None
  end.

(** The entries among the outputs. *)
Definition entries_of (o : list Output) : list StartupLogEntry :=
  omap (fun x => match x with AppendEntry e => Some e | _ => None end) o.

End Startup.

(** * Observations and invariants

    The vocabulary in which the properties below are stated. *)

Definition is_console_line (ev : Event) : bool :=
  match ev with
  | EvConsole _ _ => true
  | _ => false
  end.

Definition is_backend_call (ev : Event) : bool :=
  match ev with
  | EvBackend _ _ _ _ => true
  | _ => false
  end.

(** Events of the transport stage: a [handle] call or the diagnostic of the
    [catch] block. *)
Definition is_transport_stage (ev : Event) : bool :=
  match ev with
  | EvTransport _ _ _ _ _ | EvConsoleDiag _ _ => true
  | _ => false
  end.

Definition is_diagnostic (ev : Event) : bool :=
  match ev with
  | EvConsoleDiag _ _ => true
  | _ => false
  end.

(** The [handle] call made on transport [t]. *)
Definition handle_call (level : LogLevel) (ns message : string) (entry : JsObj)
  (t : LogTransport) : Event :=
  EvTransport (tname t) level ns message entry.

Definition returns_on (level : LogLevel) (ns message : string) (entry : JsObj)
  (t : LogTransport) : Prop :=
  handle t level ns message entry = Normal.

(** The decision procedure in the words of the specification. *)
Definition enabled_rule (E : Env) (options : LoggerOptions) : bool :=
  if stripLogs E then false
  else if bool_decide (opt_enabled options = Some false) then false
  else if isProd E && negb (pinoAvailable E)
          && bool_decide (default [] (opt_transports options) = [])
  then false
  else true.

(** [c] is a cached child of [p]. *)
Definition edge (h : Heap) (p c : ref) : Prop :=
  exists o k, h !! p = Some o /\ (k, c) ∈ children o.

(** [d] is [r] or one of its cached children, grandchildren, ... *)
Definition descendant (h : Heap) : ref -> ref -> Prop := rtc (edge h).

(** What [setConfig] never writes: the namespace and the children map. *)
Definition skeleton (o : LoggerObj) : string * list (string * ref) :=
  (namespace o, children o).

(** The stores the class can build: no namespace is empty, children are
    allocated after their parent, a logger is cached by one parent under
    one key, and a child's namespace extends its parent's. *)
Record heap_wf (h : Heap) : Prop := {
  wf_named : forall p o, h !! p = Some o -> namespace o <> "";
  wf_order : forall p c, edge h p c -> p < c < length h;
  wf_parent : forall p1 p2 c, edge h p1 c -> edge h p2 c -> p1 = p2;
  wf_once : forall p o, h !! p = Some o -> NoDup (children o).*2;
  wf_namespace : forall p o k c oc,
    h !! p = Some o -> (k, c) ∈ children o -> h !! c = Some oc ->
    namespace oc = namespace o +:+ "." +:+ k
}.

(** What [setConfig(config)] leaves in a logger that was [o]: each option
    that is present replaces its field; [enabled] follows the two
    assignments of the source; namespace, backend and children stay. *)
Record configured (E : Env) (config : LoggerOptions) (o o' : LoggerObj)
  : Prop := {
  cfg_logDir : logDir o' = default (logDir o) (opt_logDir config);
  cfg_logFileName :
    logFileName o' = default (logFileName o) (opt_logFileName config);
  cfg_disableConsole :
    disableConsole o' = default (disableConsole o) (opt_disableConsole config);
  cfg_maxSize :
    maxSize o' = from_option Some (maxSize o) (opt_maxSize config);
  cfg_maxFiles :
    maxFiles o' = from_option Some (maxFiles o) (opt_maxFiles config);
  cfg_frequency :
    frequency o' = from_option Some (frequency o) (opt_frequency config);
  cfg_level : minLevel o' = default (minLevel o) (opt_level config);
  cfg_transports :
    transports o' = default (transports o) (opt_transports config);
  cfg_enabled :
    enabled o'
    = (match opt_enabled config with
       | Some b =>
           negb (stripLogs E) && b
           && (negb (isProd E) || pinoAvailable E
               || bool_decide (default [] (opt_transports config) <> [])
               || bool_decide (transports o <> []))
       | None => enabled o
       end
       || (bool_decide (default [] (opt_transports config) <> [])
           && negb (stripLogs E)));
  cfg_namespace : namespace o' = namespace o;
  cfg_backend : backend o' = backend o;
  cfg_children : children o' = children o
}.

(** No ["."] occurs in [s]. *)
Fixpoint dotfree (s : string) : bool :=
  match s with
  | EmptyString => true
  | String c rest => negb (Ascii.eqb c "."%char) && dotfree rest
  end.

(** [parts.join('.')] *)
Fixpoint join_dots (parts : list string) : string :=
  match parts with
  | [] => ""
  | [x] => x
  | x :: rest => x +:+ "." +:+ join_dots rest
  end.

(** The value of [currentPath] after the loop of [getLogger] has gone
    through [parts]. *)
Definition join_from (root : string) (parts : list string) : string :=
  fold_left (fun p s => p +:+ "." +:+ s) parts root.

(** A later store keeps every cached child of an earlier one. *)
Definition heap_ext (h h' : Heap) : Prop :=
  forall r o k c, h !! r = Some o -> assoc_get k (children o) = Some c ->
    exists o', h' !! r = Some o' /\ assoc_get k (children o') = Some c.

(** A later state keeps every registry entry and every cached child. *)
Record state_ext (st st' : State) : Prop := {
  ext_registry : loggerRegistry st ⊆ loggerRegistry st';
  ext_heap : heap_ext (heap st) (heap st')
}.

(** The states the module can reach: the store is well-formed, the
    registry points into it, and the entry for [p.b] is the child that the
    entry for [p] caches under [b]. *)
Record state_wf (st : State) : Prop := {
  st_heap : heap_wf (heap st);
  st_live : forall p r, loggerRegistry st !! p = Some r -> r < length (heap st);
  st_tree : forall p b r,
    dotfree b = true -> loggerRegistry st !! (p +:+ "." +:+ b) = Some r ->
    exists rp op, loggerRegistry st !! p = Some rp /\ heap st !! rp = Some op
                  /\ assoc_get b (children op) = Some r
}.

(** One call of the module's API by the application. *)
Inductive api_step (E : Env) : State -> State -> Prop :=
| step_getLogger path st r st' :
    getLogger E path st = Some (r, st') -> api_step E st st'
| step_child this s b st c h' :
    child E this s b (heap st) = Some (c, h') ->
    api_step E st {| heap := h'; loggerRegistry := loggerRegistry st |}
| step_setConfig config this st h' :
    setConfig E config this (heap st) = Some h' ->
    api_step E st {| heap := h'; loggerRegistry := loggerRegistry st |}
| step_with this bindings st w h' :
    with_ E this bindings (heap st) = Some (w, h') ->
    api_step E st {| heap := h'; loggerRegistry := loggerRegistry st |}
| step_new options st :
    api_step E st {| heap := heap st ++ [constructor E options];
                     loggerRegistry := loggerRegistry st |}.

(** [st'] is reached from [st] by any number of API calls. *)
Definition later (E : Env) : State -> State -> Prop := rtc (api_step E).

(** The namespace of the logger that [getLogger] registers under a path:
    the path itself, an empty root segment being read as [Anonymous]. *)
Definition canon (path : string) : string :=
  match split_dot path with
  | [] => ""
  | root :: rest => join_from (str_or (Some root) "Anonymous") rest
  end.

(** Every registry entry points at a logger named after its path. *)
Definition registry_named (st : State) : Prop :=
  forall p r o, loggerRegistry st !! p = Some r -> heap st !! r = Some o ->
    namespace o = canon p.

(** A later store keeps the namespace of every logger of an earlier one. *)
Definition ns_ext (h h' : Heap) : Prop :=
  forall r o, h !! r = Some o ->
    exists o', h' !! r = Some o' /\ namespace o' = namespace o.

(** [delete context.error] goes through: the leading context of the call,
    if there is one, holds no Error under an [error] property that is not
    configurable. *)
Definition error_deletable (args : list JsValue) : bool :=
  match fst (take_context args) with
  | Some c =>
      match own_properties c !! "error" with
      | Some (a, JErrorInst _ _ _) => configurable a
      | _ => true
      end
  | None => true
  end.

(** The entry keeps the prototype of an object literal: the leading
    context has no enumerable property of its own named [__proto__]. *)
Definition keeps_prototype (args : list JsValue) : bool :=
  match fst (take_context args) with
  | Some c =>
      match enumerable_values (own_properties c) !! "__proto__" with
      | Some _ => false
      | None => true
      end
  | None => true
  end.

(** The calls whose leading context, if any, the code takes apart without
    an exception and without touching the prototype of the entry. *)
Definition context_ok (args : list JsValue) : bool :=
  error_deletable args && keeps_prototype args.

(** The [phases] map of a bootstrap logger has one record per phase, and
    every record but the current phase's has its [end] set to a reading of
    the clock that is not zero. *)
Definition phases_inv (this : Startup.StartupLogger) : Prop :=
  NoDup (map fst (Startup.phases this))
  /\ forall p t,
       Startup.phases_get p (Startup.phases this) = Some t ->
       p <> Startup.currentPhase this ->
       exists e, snd t = Some e /\ e <> 0%Z.

(** * Example inputs *)

(** Development, pino not installed. *)
Definition dev_env : Env :=
  {| isProd := false; stripLogs := false; pinoAvailable := false;
     basePino := false |}.

(** Production without pino: only transports can carry a log line. *)
Definition prod_env : Env :=
  {| isProd := true; stripLogs := false; pinoAvailable := false;
     basePino := false |}.

Definition noon : Instant :=
  {| year := 2026; month := 2; day := 8;
     hours := 14; minutes := 23; seconds := 5; millis := 120 |}.

Definition boom : JsValue :=
  JErrorInst (JString "Error") (JString "boom") (JString "Error: boom at <anonymous>").

Definition failing_sink : LogTransport :=
  {| tname := "first"; handle := fun _ _ _ _ => Throw boom |}.

Definition healthy_sink : LogTransport :=
  {| tname := "second"; handle := fun _ _ _ _ => Normal |}.

Definition with_transports (ts : list LogTransport) (o : LoggerOptions)
  : LoggerOptions :=
  {| opt_namespace := opt_namespace o; opt_enabled := opt_enabled o;
     opt_level := opt_level o; opt_bindings := opt_bindings o;
     opt_logDir := opt_logDir o; opt_logFileName := opt_logFileName o;
     opt_disableConsole := opt_disableConsole o; opt_maxSize := opt_maxSize o;
     opt_maxFiles := opt_maxFiles o; opt_frequency := opt_frequency o;
     opt_transports := Some ts |}.

Definition with_enabled (b : bool) (o : LoggerOptions) : LoggerOptions :=
  {| opt_namespace := opt_namespace o; opt_enabled := Some b;
     opt_level := opt_level o; opt_bindings := opt_bindings o;
     opt_logDir := opt_logDir o; opt_logFileName := opt_logFileName o;
     opt_disableConsole := opt_disableConsole o; opt_maxSize := opt_maxSize o;
     opt_maxFiles := opt_maxFiles o; opt_frequency := opt_frequency o;
     opt_transports := opt_transports o |}.

(** A parent [A] with two cached children [A.B] and [A.C]. *)
Definition two_children (E : Env) : option Heap :=
  '(_, h1) ← child E 0 "B" None [constructor E (named "A")];
  '(_, h2) ← child E 0 "C" None h1;
  Some h2.

(** The registry before the first [getLogger]. *)
Definition empty_state : State := {| heap := []; loggerRegistry := ∅ |}.

(** A build with [STRIP_LOGS=true]. *)
Definition strip_env : Env :=
  {| isProd := false; stripLogs := true; pinoAvailable := true;
     basePino := true |}.

(** Node with pino installed. *)
Definition pino_env : Env :=
  {| isProd := true; stripLogs := false; pinoAvailable := true;
     basePino := true |}.

(** The error the release notes of 1.0.3 report from pino's
    initialization. *)
Definition pino_type_error : JsValue :=
  JErrorInst (JString "TypeError")
    (JString "Cannot read properties of undefined (reading 'Symbol(pino.wildcardFirst)')")
    JUndefined.

(** A Node host on which [require('pino')] yields a module whose
    construction throws. *)
Definition broken_pino_host : Host :=
  {| window_defined := false; process_defined := true;
     NODE_ENV := Some "production"; STRIP_LOGS := None;
     LOG_FILE := None; LOG_FILE_PATH := None; LOGFIRE_TOKEN := None;
     HOSTNAME := Some "web-1";
     require_defined := true;
     require_pino := Returns true;
     os_hostname := Returns "web-1";
     pinoModule_call := Throws pino_type_error |}.

(** A Node host without pino installed. *)
Definition no_pino_host : Host :=
  {| window_defined := false; process_defined := true;
     NODE_ENV := Some "production"; STRIP_LOGS := None;
     LOG_FILE := None; LOG_FILE_PATH := None; LOGFIRE_TOKEN := None;
     HOSTNAME := Some "web-1";
     require_defined := true;
     require_pino :=
       Throws (JErrorInst (JString "Error")
                 (JString "Cannot find module 'pino'") JUndefined);
     os_hostname := Returns "web-1";
     pinoModule_call := Throws pino_type_error |}.

(** A browser bundle: [window] but neither [process] nor [require]. *)
Definition browser_host : Host :=
  {| window_defined := true; process_defined := false;
     NODE_ENV := None; STRIP_LOGS := None;
     LOG_FILE := None; LOG_FILE_PATH := None; LOGFIRE_TOKEN := None;
     HOSTNAME := None;
     require_defined := false;
     require_pino := Returns true;
     os_hostname := Throws JUndefined;
     pinoModule_call := Throws JUndefined |}.

(** A worker-like host: no [window], no [process], no [require]. *)
Definition worker_host : Host :=
  {| window_defined := false; process_defined := false;
     NODE_ENV := None; STRIP_LOGS := None;
     LOG_FILE := None; LOG_FILE_PATH := None; LOGFIRE_TOKEN := None;
     HOSTNAME := None;
     require_defined := false;
     require_pino := Returns true;
     os_hostname := Throws JUndefined;
     pinoModule_call := Throws JUndefined |}.

(** A Node host with a working pino. *)
Definition node_host : Host :=
  {| window_defined := false; process_defined := true;
     NODE_ENV := Some "production"; STRIP_LOGS := None;
     LOG_FILE := None; LOG_FILE_PATH := None; LOGFIRE_TOKEN := None;
     HOSTNAME := None;
     require_defined := true;
     require_pino := Returns true;
     os_hostname := Returns "web-1";
     pinoModule_call := Returns true |}.

(** The environment of a small deployment. *)
Definition sample_process_env : gmap string string :=
  {[ "LOGFIRE_TOKEN" := "lf-123"; "PORT" := "3000"; "EMPTY" := "" ]}.

(** A log that has reached a limit of ten bytes, with two backups. *)
Definition small_limit : StartupConfig :=
  {| maxFileSize := 10; maxBackups := 3; includeEnv := true;
     envWhitelist := []; envBlacklist := [] |}.

Definition full_log_dir : FileSystem :=
  {[ "startup.log" := "0123456789";
     "startup.log.1" := "older";
     "startup.log.2" := "oldest";
     "other.txt" := "kept" ]}.

(** [Object.freeze({error: new Error("boom")})] *)
Definition frozen_context : JsValue :=
  JObject false
    {[ "error" := ({| enumerable := true; configurable := false |}, boom) ]}.

(** A clock that starts in November 2023 and advances by a millisecond
    per reading. *)
Definition tick_clock (n : nat) : Z := 1700000000000 + Z.of_nat n.

Definition sample_process : Startup.Process :=
  {| Startup.version := "v20.11.0"; Startup.platform := "linux";
     Startup.arch := "x64"; Startup.pid := 4242; Startup.cwd := "/app";
     Startup.env := sample_process_env |}.

Definition quiet_world : Startup.World :=
  {| Startup.reads := 0; Startup.outputs := [] |}.

(** * Properties *)

(** ** The console formatter *)

Lemma timestamp_is_HH_MM_SS now :
  (year now <= 9999)%N ->
  js_substring 11 19 (toISOString now)
  = pad2 (hours now) +:+ ":" +:+ pad2 (minutes now) +:+ ":" +:+ pad2 (seconds now).
Proof.
  intros Hy. unfold toISOString.
  apply N.leb_le in Hy. rewrite Hy. reflexivity.
Qed.

(** ** The transport loop *)

Section Emission.
Variable E : Env.

Lemma fanout_all_return ts level ns message entry :
  Forall (returns_on level ns message entry) ts ->
  fanout ts level ns message entry
  = (map (handle_call level ns message entry) ts, Normal).
Proof.
  induction 1 as [|t ts Ht _ IH]; simpl; [done|].
  unfold returns_on in Ht. rewrite Ht, IH. done.
Qed.

Lemma fanout_stops_at_throw pre t post level ns message entry exn :
  Forall (returns_on level ns message entry) pre ->
  handle t level ns message entry = Throw exn ->
  fanout (pre ++ t :: post) level ns message entry
  = (map (handle_call level ns message entry) (pre ++ [t]), Throw exn).
Proof.
  intros Hpre Ht. induction Hpre as [|p pre Hp _ IH]; simpl.
  - rewrite Ht. done.
  - unfold returns_on in Hp. rewrite Hp, IH. done.
Qed.

Lemma fanout_only_handle_calls ts level ns message entry :
  Forall (fun ev => is_transport_stage ev = true /\ is_diagnostic ev = false)
    (fst (fanout ts level ns message entry)).
Proof.
  induction ts as [|t ts IH]; simpl; [constructor|].
  destruct (handle t level ns message entry); simpl.
  - constructor; [done|]. exact IH.
  - constructor; [done|constructor].
Qed.

Lemma transport_stage_returns this level message entry :
  snd (transport_stage this level message entry) = Normal.
Proof.
  unfold transport_stage, try_catch.
  destruct (negb _); [|done].
  destruct (fanout _ _ _ _ _) as [evs [|e]]; done.
Qed.

Lemma transport_stage_events this level message entry :
  Forall (fun ev => is_transport_stage ev = true)
    (fst (transport_stage this level message entry)).
Proof.
  unfold transport_stage, try_catch.
  destruct (negb _); [|constructor].
  pose proof (fanout_only_handle_calls (transports this) level
                (namespace this) message entry) as Hf.
  destruct (fanout _ _ _ _ _) as [evs [|e]]; simpl in *.
  - eapply Forall_impl; [exact Hf|]. by intros ? [? _].
  - apply Forall_app. split.
    + eapply Forall_impl; [exact Hf|]. by intros ? [? _].
    + by constructor.
Qed.

(** [delete context.error] either goes through or throws a TypeError. *)
Lemma lift_error_deletable args :
  error_deletable args = true ->
  exists lifted, lift_error (fst (take_context args)) = Returns lifted.
Proof.
  unfold error_deletable, lift_error.
  destruct (fst (take_context args)) as [c|]; [|by eexists].
  destruct (own_properties c !! "error") as [[a v]|]; [|by eexists].
  destruct v; try by eexists. intros ->. by eexists.
Qed.

Lemma lift_error_locked args :
  error_deletable args = false ->
  exists msg, lift_error (fst (take_context args)) = Throws (TypeError msg).
Proof.
  unfold error_deletable, lift_error.
  destruct (fst (take_context args)) as [c|]; [|done].
  destruct (own_properties c !! "error") as [[a v]|]; [|done].
  destruct v; try done. intros ->. by eexists.
Qed.

(** What a call that passes the gate does once its context is taken apart:
    one backend call, the transport stage, then the console line if it is
    wanted. *)
Lemma emit_ungated now this level message args writeConsole :
  gated E this level = false ->
  error_deletable args = true ->
  emit E now this level message args writeConsole
  = (EvBackend (backend this) level (build_entry message args)
       (snd (take_context args))
     :: fst (transport_stage this level message (build_entry message args))
     ++ (if writeConsole && negb (LogLevel_eqb level Debug)
            && negb (disableConsole this)
         then [EvConsole (level_name level)
                 (formatConsoleMessage now (namespace this) message)]
         else []),
     Normal).
Proof.
  intros Hg Hdel. unfold emit, build_entry. rewrite Hg.
  destruct (lift_error_deletable args Hdel) as [lifted ->].
  pose proof (transport_stage_returns this level message
                (merge_entry message lifted)) as Hn.
  destruct (transport_stage _ _ _ _) as [tevs c]. simpl in Hn. subst c.
  unfold and_then; simpl.
  destruct writeConsole; simpl; [|done].
  destruct level; simpl; try done; by destruct (disableConsole this).
Qed.

(** A call that passes the gate with an Error under an [error] property
    that cannot be deleted throws before it has done anything. *)
Lemma emit_locked now this level message args writeConsole :
  gated E this level = false ->
  error_deletable args = false ->
  exists msg,
    emit E now this level message args writeConsole
    = ([], Throw (TypeError msg)).
Proof.
  intros Hg Hdel. unfold emit. rewrite Hg.
  destruct (lift_error_locked args Hdel) as [msg ->]. by exists msg.
Qed.

Lemma emit_gated now this level message args writeConsole :
  gated E this level = true ->
  emit E now this level message args writeConsole = ([], Normal).
Proof. intros Hg. unfold emit. by rewrite Hg. Qed.


Lemma context_ok_deletable args :
  context_ok args = true -> error_deletable args = true.
Proof. unfold context_ok. by intros [? _]%andb_true_iff. Qed.

Lemma log_is_emit level now this message args :
  log E level now this message args
  = emit E now this level message args (negb (LogLevel_eqb level Debug)).
Proof. by destruct level. Qed.

End Emission.

(** ** C6: the constructor's [enabled] *)

(** C6. For every options value the constructor sets [enabled] to: false if
    the strip flag is set; else false if [options.enabled === false]; else
    false if in production mode with no structured backend and no transports
    supplied; else true. *)
Theorem C6_constructor_enabled (E : Env) (options : LoggerOptions) :
  enabled (constructor E options) = enabled_rule E options.
Proof.
  unfold enabled_rule, constructor; simpl.
  destruct (stripLogs E); simpl; [done|].
  destruct (opt_enabled options) as [[|]|]; simpl;
    destruct (isProd E), (pinoAvailable E); simpl; try done;
    destruct (default [] (opt_transports options)); done.
Qed.

(** ** C2: the gate *)

(** C2. A call below error level on a disabled logger does nothing at all,
    and neither does one below the minimum level when pino is not
    available; an error call passes the gate whatever the flags and, once
    its context is taken apart, calls the backend and, unless
    [disableConsole] is set, writes its console line.  When the context
    holds an Error under an [error] property that cannot be deleted, the
    error call throws a TypeError instead, before the backend is called. *)
Theorem C2_gate (E : Env) (now : Instant) (this : LoggerObj)
  (message : string) (args : list JsValue) :
  (forall L, L <> Error -> enabled this = false ->
     log E L now this message args = ([], Normal))
  /\ (forall L, L <> Error -> pinoAvailable E = false ->
        (levelOrder L < levelOrder (minLevel this))%Z ->
        log E L now this message args = ([], Normal))
  /\ (context_ok args = true ->
      exists tevs,
        error E now this message args
        = (EvBackend (backend this) Error (build_entry message args)
             (snd (take_context args))
           :: tevs
           ++ (if disableConsole this then []
               else [EvConsole "error"
                       (formatConsoleMessage now (namespace this) message)]),
           Normal)
        /\ Forall (fun ev => is_transport_stage ev = true) tevs)
  /\ (error_deletable args = false ->
      exists msg,
        error E now this message args = ([], Throw (TypeError msg))).
Proof.
  split; [|split; [|split]].
  - intros L HL Hen. rewrite log_is_emit. apply emit_gated.
    unfold gated. rewrite Hen. by destruct L.
  - intros L HL Hp Hlt. rewrite log_is_emit. apply emit_gated.
    unfold gated, levelEnabled. rewrite Hp.
    apply Z.leb_gt in Hlt. rewrite Hlt.
    destruct L; try done; by destruct (enabled this).
  - intros Hok%context_ok_deletable.
    exists (fst (transport_stage this Error message (build_entry message args))).
    split; [|apply transport_stage_events].
    unfold error. rewrite emit_ungated by done. simpl.
    by destruct (disableConsole this).
  - intros Hlocked. unfold error. by apply emit_locked.
Qed.

(** The specification's example: [new Logger({enabled: false})], then
    [warn("x")] and [error("x")]; and an error call with a frozen
    context. *)
Lemma C2_gate_witness :
  let this := constructor dev_env (with_enabled false no_options) in
  warn dev_env noon this "x" [] = ([], Normal)
  /\ fst (error dev_env noon this "x" [])
     = [EvBackend (ConsoleBackend "Anonymous") Error {["msg" := JString "x"]} [];
        EvConsole "error" "14:23:05 [Anonymous] x"]
  /\ exists msg,
       error dev_env noon this "x" [frozen_context]
       = ([], Throw (TypeError msg)).
Proof.
  intros this.
  destruct (C2_gate dev_env noon this "x" []) as (Hoff & _ & _).
  destruct (C2_gate dev_env noon this "x" [frozen_context])
    as (_ & _ & _ & Hthrow).
  split; [|split].
  - apply (Hoff Warn); [discriminate | reflexivity].
  - vm_compute. reflexivity.
  - apply Hthrow. reflexivity.
Defined.

(** ** C3: which calls reach the console stage *)

Lemma transport_stage_not_console ev :
  is_transport_stage ev = true ->
  is_console_line ev = false /\ is_backend_call ev = false.
Proof. by destruct ev. Qed.

Lemma transport_stage_no_console_line this level message entry :
  Forall (fun ev => is_console_line ev = false)
    (fst (transport_stage this level message entry)).
Proof.
  eapply Forall_impl; [apply transport_stage_events|].
  intros ev Hev. by apply transport_stage_not_console.
Qed.

(** Whatever the arguments, a call writes no console line unless the
    console stage is reached. *)
Lemma emit_no_console_line (E : Env) now this level message args :
  Forall (fun ev => is_console_line ev = false)
    (fst (emit E now this level message args false)).
Proof.
  destruct (gated E this level) eqn:Hg.
  { rewrite emit_gated by done. constructor. }
  destruct (error_deletable args) eqn:Hdel.
  - rewrite emit_ungated by done. simpl. constructor; [done|].
    rewrite app_nil_r. apply transport_stage_no_console_line.
  - destruct (emit_locked E now this level message args false Hg Hdel)
      as [msg ->]. constructor.
Qed.

(** C3. A debug call never writes a console line.  An info, warn or error
    call that passes the gate writes none when [disableConsole] is set;
    otherwise, once its context is taken apart, it writes exactly one, as
    its last action, of the form [HH:MM:SS [namespace] message].  When the
    context holds an Error under an [error] property that cannot be
    deleted, the call throws a TypeError instead and writes nothing. *)
Theorem C3_console_stage (E : Env) (now : Instant) (this : LoggerObj)
  (message : string) (args : list JsValue) :
  Forall (fun ev => is_console_line ev = false)
    (fst (debug E now this message args))
  /\ forall L, L <> Debug -> gated E this L = false ->
       (disableConsole this = true ->
        Forall (fun ev => is_console_line ev = false)
          (fst (log E L now this message args)))
       /\ (disableConsole this = false -> (year now <= 9999)%N ->
           context_ok args = true ->
           exists evs,
             fst (log E L now this message args)
             = evs ++ [EvConsole (level_name L)
                         (pad2 (hours now) +:+ ":" +:+ pad2 (minutes now)
                          +:+ ":" +:+ pad2 (seconds now)
                          +:+ " [" +:+ namespace this +:+ "] " +:+ message)]
             /\ Forall (fun ev => is_console_line ev = false) evs)
       /\ (error_deletable args = false ->
           exists msg,
             log E L now this message args = ([], Throw (TypeError msg))).
Proof.
  split; [apply emit_no_console_line|].
  intros L HL Hg. rewrite log_is_emit.
  assert (negb (LogLevel_eqb L Debug) = true) as -> by by destruct L.
  split; [|split].
  - intros Hoff. destruct (error_deletable args) eqn:Hdel.
    + rewrite emit_ungated by done. simpl. rewrite Hoff, andb_false_r.
      constructor; [done|].
      rewrite app_nil_r. apply transport_stage_no_console_line.
    + destruct (emit_locked E now this L message args true Hg Hdel)
        as [msg ->]. constructor.
  - intros Hon Hy Hok%context_ok_deletable.
    rewrite emit_ungated by done. rewrite Hon.
    assert (negb (LogLevel_eqb L Debug) = true) as -> by by destruct L.
    simpl.
    eexists (EvBackend _ _ _ _ :: fst (transport_stage this L message _)).
    split.
    + unfold formatConsoleMessage. by rewrite timestamp_is_HH_MM_SS.
    + constructor; [done|]. apply transport_stage_no_console_line.
  - intros Hlocked. by apply emit_locked.
Qed.

Lemma C3_console_stage_witness :
  let this := constructor dev_env (named "TestService") in
  (exists evs,
     fst (info dev_env noon this "Service initialized" [])
     = evs ++ [EvConsole "info" "14:23:05 [TestService] Service initialized"]
     /\ Forall (fun ev => is_console_line ev = false) evs)
  /\ exists msg,
       info dev_env noon this "Service initialized" [frozen_context]
       = ([], Throw (TypeError msg)).
Proof.
  intros this.
  destruct (C3_console_stage dev_env noon this "Service initialized" [])
    as [_ Hlevels].
  destruct (Hlevels Info) as (_ & Hline & _); [discriminate | reflexivity |].
  destruct (C3_console_stage dev_env noon this "Service initialized"
              [frozen_context]) as [_ Hfrozen].
  destruct (Hfrozen Info) as (_ & _ & Hthrow); [discriminate | reflexivity |].
  split.
  - apply Hline; [reflexivity | cbv; discriminate | reflexivity].
  - apply Hthrow. reflexivity.
Defined.

(** ** C1: a transport that throws *)

(** The claim at a concrete call: the first of two transports throws.  The
    call returns and the diagnostic is printed, but the second transport is
    never invoked. *)
Lemma C1_later_transports_skipped :
  let this :=
    constructor dev_env
      (with_transports [failing_sink; healthy_sink] (named "App")) in
  let run := info dev_env noon this "ready" [] in
  run = ([EvBackend (ConsoleBackend "App") Info {["msg" := JString "ready"]} [];
          EvTransport "first" Info "App" "ready" {["msg" := JString "ready"]};
          EvConsoleDiag "[LogTransport] Error in custom transport:" boom;
          EvConsole "info" "14:23:05 [App] ready"], Normal)
  /\ ~ (forall tj, In tj [healthy_sink] ->
          In (handle_call Info "App" "ready" {["msg" := JString "ready"]} tj)
            (fst run)).
Proof.
  intros this run.
  assert (run = ([EvBackend (ConsoleBackend "App") Info {["msg" := JString "ready"]} [];
          EvTransport "first" Info "App" "ready" {["msg" := JString "ready"]};
          EvConsoleDiag "[LogTransport] Error in custom transport:" boom;
          EvConsole "info" "14:23:05 [App] ready"], Normal)) as Hrun
    by (vm_compute; reflexivity).
  split; [exact Hrun|].
  intros Hall. specialize (Hall healthy_sink (or_introl eq_refl)).
  rewrite Hrun in Hall. simpl in Hall. unfold handle_call in Hall. simpl in Hall.
  destruct Hall as [H|[H|[H|[H|[]]]]]; discriminate H.
Qed.

(** C1 (as the code has it). When a transport throws in a call whose
    context has been taken apart, the exception does not leave the emission
    call, the transports before it and the throwing one have each been
    invoked once, in order, with the same level, namespace, message and
    entry, the transports after it are not invoked, and one diagnostic line
    is printed; the console stage still runs. *)
Theorem C1_transport_failure (E : Env) (now : Instant) (this : LoggerObj)
  (level : LogLevel) (message : string) (args : list JsValue)
  (pre post : list LogTransport) (t : LogTransport) (exn : JsValue) :
  gated E this level = false ->
  context_ok args = true ->
  transports this = pre ++ t :: post ->
  Forall (returns_on level (namespace this) message (build_entry message args))
    pre ->
  handle t level (namespace this) message (build_entry message args)
  = Throw exn ->
  log E level now this message args
  = (EvBackend (backend this) level (build_entry message args)
       (snd (take_context args))
     :: map (handle_call level (namespace this) message
               (build_entry message args)) (pre ++ [t])
     ++ [EvConsoleDiag "[LogTransport] Error in custom transport:" exn]
     ++ (if negb (LogLevel_eqb level Debug) && negb (disableConsole this)
         then [EvConsole (level_name level)
                 (formatConsoleMessage now (namespace this) message)]
         else []),
     Normal).
Proof.
  intros Hg Hok%context_ok_deletable Hts Hpre Ht.
  rewrite log_is_emit, emit_ungated by done.
  unfold transport_stage. rewrite Hts.
  rewrite (fanout_stops_at_throw _ _ _ _ _ _ _ exn) by done.
  assert (negb (length (pre ++ t :: post) =? 0)%nat = true) as ->
    by by destruct pre.
  simpl. rewrite <- !app_assoc. simpl.
  by destruct (negb (LogLevel_eqb level Debug)).
Qed.

Lemma C1_transport_failure_witness :
  let this :=
    constructor dev_env
      (with_transports [healthy_sink; failing_sink; healthy_sink] (named "App")) in
  log dev_env Warn noon this "ready" []
  = ([EvBackend (ConsoleBackend "App") Warn {["msg" := JString "ready"]} [];
      EvTransport "second" Warn "App" "ready" {["msg" := JString "ready"]};
      EvTransport "first" Warn "App" "ready" {["msg" := JString "ready"]};
      EvConsoleDiag "[LogTransport] Error in custom transport:" boom;
      EvConsole "warn" "14:23:05 [App] ready"], Normal).
Proof.
  intros this.
  rewrite (C1_transport_failure dev_env noon this Warn "ready" []
             [healthy_sink] [healthy_sink] failing_sink boom).
  - vm_compute. reflexivity.
  - reflexivity.
  - reflexivity.
  - reflexivity.
  - constructor; [reflexivity | constructor].
  - reflexivity.
Defined.

(** ** C7: lifting [context.error] *)

Lemma lookup_enumerable_values (props : Props) (k : string) :
  enumerable_values props !! k
  = props !! k ≫= (fun p => if enumerable (fst p) then Some (snd p) else None).
Proof. unfold enumerable_values. by rewrite lookup_omap. Qed.

Lemma enumerable_values_delete (props : Props) (k : string) :
  enumerable_values (delete k props) = delete k (enumerable_values props).
Proof.
  apply map_eq. intros k'. rewrite lookup_enumerable_values.
  destruct (String.eqb_spec k k') as [<-|Hne].
  - by rewrite !lookup_delete_eq.
  - by rewrite !lookup_delete_ne, lookup_enumerable_values.
Qed.

Lemma enumerable_values_literal (fields : JsObj) :
  enumerable_values (own_properties (JPlain fields)) = fields.
Proof.
  apply map_eq. intros k. rewrite lookup_enumerable_values. simpl.
  rewrite lookup_fmap. by destruct (fields !! k).
Qed.

(** A value that [isPlainObject] accepts is taken as the context. *)
Lemma take_context_plain (c : JsValue) (rest : list JsValue) :
  isPlainObject c = true -> take_context (c :: rest) = (Some c, rest).
Proof. intros Hc. unfold take_context. rewrite Hc. by destruct c. Qed.

Lemma build_entry_with_error message c rest a n m st :
  isPlainObject c = true ->
  own_properties c !! "error" = Some (a, JErrorInst n m st) ->
  configurable a = true ->
  enumerable_values (own_properties c) !! "__proto__" = None ->
  build_entry message (c :: rest)
  = <["err" := JPlain (error_fields n m st)]>
      (delete "error" (enumerable_values (own_properties c))
       ∪ {["msg" := JString message]}).
Proof.
  intros Hc Herr Ha Hproto. unfold build_entry.
  rewrite take_context_plain by done. simpl.
  rewrite Herr, Ha. simpl. unfold object_assign.
  rewrite enumerable_values_delete. f_equal. f_equal.
  apply delete_id. by rewrite lookup_delete_ne.
Qed.

(** The claim at four concrete calls, each with an Error under [error].
    A context property [err] is not carried into the entry, where the
    lifted error takes its place; a context property [msg] takes the place
    of the message; a context property [__proto__] is not carried into the
    entry; and a frozen context makes the call throw, so that no entry
    reaches the backend at all. *)
Lemma C7_context_not_all_merged :
  let this := constructor dev_env (named "TestService") in
  (let context : JsObj := {[ "error" := boom; "err" := JNumber 1 ]} in
   exists entry tail,
     fst (error dev_env noon this "failed" [JPlain context])
     = EvBackend (ConsoleBackend "TestService") Error entry [] :: tail
     /\ ~ (forall k v, k <> "error" ->
             context !! k = Some v -> entry !! k = Some v))
  /\ (let context : JsObj := {[ "error" := boom; "msg" := JString "other" ]} in
      exists entry tail,
        fst (error dev_env noon this "failed" [JPlain context])
        = EvBackend (ConsoleBackend "TestService") Error entry [] :: tail
        /\ entry !! "msg" <> Some (JString "failed"))
  /\ (let context : JsObj := {[ "error" := boom; "__proto__" := JNumber 1 ]} in
      exists entry tail,
        fst (error dev_env noon this "failed" [JPlain context])
        = EvBackend (ConsoleBackend "TestService") Error entry [] :: tail
        /\ ~ (forall k v, k <> "error" ->
                context !! k = Some v -> entry !! k = Some v))
  /\ exists msg,
       error dev_env noon this "failed" [frozen_context]
       = ([], Throw (TypeError msg)).
Proof.
  intros this. split; [|split; [|split]].
  - intros context. eexists _, _. split; [vm_compute; reflexivity|].
    intros Hall. specialize (Hall "err" (JNumber 1)).
    assert (("err" : string) <> "error") as Hne by discriminate.
    specialize (Hall Hne eq_refl). vm_compute in Hall. discriminate Hall.
  - intros context. eexists _, _. split; [vm_compute; reflexivity|].
    vm_compute. discriminate.
  - intros context. eexists _, _. split; [vm_compute; reflexivity|].
    intros Hall. specialize (Hall "__proto__" (JNumber 1)).
    assert (("__proto__" : string) <> "error") as Hne by discriminate.
    specialize (Hall Hne eq_refl). vm_compute in Hall. discriminate Hall.
  - eexists. vm_compute. reflexivity.
Qed.

(** C7 (as the code has it). When the first variadic argument is accepted
    as the context, has an Error instance under an [error] property that
    can be deleted, and has no enumerable property of its own named
    [__proto__], the one entry handed to the backend has no [error]
    property, has [err = {name, message, stack}] taken from that Error in
    place of any [err] of the context, and carries every other enumerable
    property of the context; [msg] is the message unless the context has a
    [msg] of its own. *)
Theorem C7_error_lifting (E : Env) (now : Instant) (this : LoggerObj)
  (level : LogLevel) (message : string) (c : JsValue)
  (rest : list JsValue) (a : Attributes) (n m st : JsValue) :
  gated E this level = false ->
  isPlainObject c = true ->
  own_properties c !! "error" = Some (a, JErrorInst n m st) ->
  configurable a = true ->
  enumerable_values (own_properties c) !! "__proto__" = None ->
  exists entry tail,
    log E level now this message (c :: rest)
    = (EvBackend (backend this) level entry rest :: tail, Normal)
    /\ Forall (fun ev => is_backend_call ev = false) tail
    /\ entry !! "error" = None
    /\ entry !! "err"
       = Some (JPlain {[ "name" := n; "message" := m; "stack" := st ]})
    /\ (forall k v, k <> "error" -> k <> "err" ->
          enumerable_values (own_properties c) !! k = Some v ->
          entry !! k = Some v)
    /\ (enumerable_values (own_properties c) !! "msg" = None ->
        entry !! "msg" = Some (JString message))
    /\ dom entry
       = {["msg"; "err"]}
         ∪ (dom (enumerable_values (own_properties c)) ∖ {["error"]}).
Proof.
  intros Hg Hc Herr Ha Hproto.
  assert (error_deletable (c :: rest) = true) as Hdel.
  { unfold error_deletable. rewrite take_context_plain by done. simpl.
    by rewrite Herr. }
  exists (build_entry message (c :: rest)).
  eexists. rewrite log_is_emit, emit_ungated by done.
  rewrite take_context_plain by done. simpl.
  split; [reflexivity|].
  rewrite (build_entry_with_error _ _ _ a n m st) by done.
  split; [|split; [|split; [|split; [|split]]]].
  - apply Forall_app. split.
    + eapply Forall_impl; [apply transport_stage_events|].
      intros ev Hev. by apply transport_stage_not_console.
    + destruct (_ && _); repeat constructor.
  - rewrite lookup_insert_ne by done.
    rewrite lookup_union, lookup_delete_eq, lookup_singleton_ne by done. done.
  - by rewrite lookup_insert_eq.
  - intros k v Hk1 Hk2 Hkv.
    rewrite lookup_insert_ne by done.
    apply lookup_union_Some_l. by rewrite lookup_delete_ne.
  - intros Hmsg.
    rewrite lookup_insert_ne by done.
    rewrite lookup_union, lookup_delete_ne, Hmsg by done.
    by rewrite lookup_singleton_eq.
  - rewrite dom_insert_L, dom_union_L, dom_delete_L, dom_singleton_L.
    apply set_eq. intros k.
    rewrite !elem_of_union, !elem_of_singleton. tauto.
Qed.

(** The specification's example, [context = {error: new Error("boom")}],
    with one more context property. *)
Lemma C7_error_lifting_witness :
  let this := constructor dev_env (named "TestService") in
  let context : JsObj := {[ "error" := boom; "retries" := JNumber 3 ]} in
  exists entry tail,
    error dev_env noon this "Database connection failed" [JPlain context]
    = (EvBackend (ConsoleBackend "TestService") Error entry [] :: tail, Normal)
    /\ entry !! "error" = None
    /\ entry !! "err"
       = Some (JPlain {[ "name" := JString "Error"; "message" := JString "boom";
                         "stack" := JString "Error: boom at <anonymous>" ]})
    /\ entry !! "retries" = Some (JNumber 3)
    /\ entry !! "msg" = Some (JString "Database connection failed").
Proof.
  intros this context.
  destruct (C7_error_lifting dev_env noon this Error
              "Database connection failed" (JPlain context) []
              literal_attributes
              (JString "Error") (JString "boom")
              (JString "Error: boom at <anonymous>"))
    as (entry & tail & Hrun & _ & Hno & Herr & Hkeep & Hmsg & _).
  - reflexivity.
  - reflexivity.
  - reflexivity.
  - reflexivity.
  - reflexivity.
  - exists entry, tail. split; [exact Hrun|]. split; [exact Hno|].
    split; [exact Herr|]. split.
    + apply Hkeep; [discriminate | discriminate | reflexivity].
    + apply Hmsg. reflexivity.
Defined.

(** ** The shape of the store *)

Section AssocFacts.
Context {A : Type}.
Implicit Types m : list (string * A).

Lemma assoc_get_elem k v m : assoc_get k m = Some v -> (k, v) ∈ m.
Proof.
  induction m as [|[k' v'] m IH]; simpl; [done|].
  destruct (String.eqb k' k) eqn:Hk.
  - apply String.eqb_eq in Hk. intros [= ->]. subst. left.
  - intros Hm. right. by apply IH.
Qed.

Lemma assoc_set_fresh k v m :
  assoc_get k m = None -> assoc_set k v m = m ++ [(k, v)].
Proof.
  induction m as [|[k' v'] m IH]; simpl; [done|].
  destruct (String.eqb k' k); [done|]. intros Hm. by rewrite IH.
Qed.

Lemma assoc_get_snoc k k' v m :
  assoc_get k' (m ++ [(k, v)])
  = match assoc_get k' m with
    | Some x => Some x
    | None => if String.eqb k k' then Some v else None
    end.
Proof.
  induction m as [|[k0 v0] m IH]; simpl; [done|].
  by destruct (String.eqb k0 k').
Qed.

End AssocFacts.

Implicit Types g h : Heap.

Lemma dotted_nonempty a b : String.eqb (a +:+ "." +:+ b) "" = false.
Proof. by destruct a. Qed.

Lemma skeleton_lookup g h r o :
  skeleton <$> g = skeleton <$> h -> g !! r = Some o ->
  exists o', h !! r = Some o' /\ namespace o = namespace o'
             /\ children o = children o'.
Proof.
  intros Hsk Hr.
  assert ((skeleton <$> h) !! r = Some (skeleton o)) as Hh
    by by rewrite <- Hsk, list_lookup_fmap, Hr.
  rewrite list_lookup_fmap in Hh.
  destruct (h !! r) as [o'|]; [|done].
  exists o'. simpl in Hh. unfold skeleton in Hh. by simplify_eq.
Qed.

Lemma skeleton_length g h :
  skeleton <$> g = skeleton <$> h -> length g = length h.
Proof.
  intros Hsk. by rewrite <- (length_fmap skeleton g), Hsk, length_fmap.
Qed.

Lemma skeleton_edge g h p c :
  skeleton <$> g = skeleton <$> h -> edge g p c -> edge h p c.
Proof.
  intros Hsk (o & k & Ho & Hk).
  destruct (skeleton_lookup g h p o Hsk Ho) as (o' & Ho' & _ & Hc).
  exists o', k. by rewrite <- Hc.
Qed.

(** Well-formedness only looks at the skeleton. *)
Lemma heap_wf_skeleton g h :
  skeleton <$> g = skeleton <$> h -> heap_wf h -> heap_wf g.
Proof.
  intros Hsk [Hnamed Hord Hpar Honce Hns]. split.
  - intros p o Hp.
    destruct (skeleton_lookup g h p o Hsk Hp) as (o' & Ho' & -> & _).
    by eapply Hnamed.
  - intros p c Hpc. rewrite (skeleton_length g h Hsk).
    apply Hord. by eapply skeleton_edge.
  - intros p1 p2 c H1 H2. eapply Hpar; by eapply skeleton_edge.
  - intros p o Hp.
    destruct (skeleton_lookup g h p o Hsk Hp) as (o' & Ho' & _ & ->).
    by eapply Honce.
  - intros p o k c oc Hp Hk Hc.
    destruct (skeleton_lookup g h p o Hsk Hp) as (o' & Ho' & -> & Hco).
    destruct (skeleton_lookup g h c oc Hsk Hc) as (oc' & Hoc' & -> & _).
    rewrite Hco in Hk. by eapply Hns.
Qed.

Lemma skeleton_insert g r o o' :
  g !! r = Some o -> skeleton o' = skeleton o ->
  skeleton <$> <[r := o']> g = skeleton <$> g.
Proof.
  intros Hr Hsk. rewrite list_fmap_insert. apply list_insert_id.
  by rewrite list_lookup_fmap, Hr, Hsk.
Qed.

(** ** Allocation keeps the store well-formed *)

Lemma alloc_lookup_old (h : Heap) o r x :
  h !! r = Some x -> (h ++ [o]) !! r = Some x.
Proof. apply lookup_app_l_Some. Qed.

Lemma alloc_lookup_inv (h : Heap) o r x :
  (h ++ [o]) !! r = Some x ->
  h !! r = Some x \/ (r = length h /\ x = o).
Proof.
  intros Hr. apply lookup_snoc_Some in Hr as [[_ Hr]|[-> ->]]; auto.
Qed.

Lemma alloc_edge (h : Heap) o p c :
  children o = [] -> edge (h ++ [o]) p c -> edge h p c.
Proof.
  intros Hnil (x & k & Hp & Hk).
  apply alloc_lookup_inv in Hp as [Hp|[_ ->]].
  - by exists x, k.
  - rewrite Hnil in Hk. by apply elem_of_nil in Hk.
Qed.

Lemma heap_wf_alloc h o :
  children o = [] -> namespace o <> "" -> heap_wf h -> heap_wf (h ++ [o]).
Proof.
  intros Hnil Hname [Hnamed Hord Hpar Honce Hns]. split.
  - intros p x Hp. apply alloc_lookup_inv in Hp as [Hp|[_ ->]]; [|done].
    by eapply Hnamed.
  - intros p c Hpc. apply (alloc_edge _ _ _ _ Hnil), Hord in Hpc.
    rewrite length_app. simpl. lia.
  - intros p1 p2 c H1 H2. eapply Hpar; by eapply alloc_edge.
  - intros p x Hp. apply alloc_lookup_inv in Hp as [Hp|[_ ->]].
    + by eapply Honce.
    + rewrite Hnil. constructor.
  - intros p x k c oc Hp Hk Hc.
    apply alloc_lookup_inv in Hp as [Hp|[_ ->]];
      [|rewrite Hnil in Hk; by apply elem_of_nil in Hk].
    assert (edge h p c) as Hpc by by exists x, k.
    apply Hord in Hpc.
    apply alloc_lookup_inv in Hc as [Hc|[-> _]]; [|lia].
    by eapply Hns.
Qed.

Lemma constructor_named E options : namespace (constructor E options) <> "".
Proof.
  unfold constructor, str_or; simpl.
  destruct (opt_namespace options) as [s|]; [|done].
  destruct (String.eqb s "") eqn:Hs; [done|]. by apply String.eqb_neq.
Qed.

(** ** [child] keeps the store well-formed *)

Lemma child_cached E this sub b h o c :
  h !! this = Some o -> assoc_get sub (children o) = Some c ->
  child E this sub b h = Some (c, h).
Proof. intros Ho Hc. unfold child. rewrite Ho; simpl. by rewrite Hc. Qed.

Lemma child_fresh E this sub b h o :
  h !! this = Some o -> assoc_get sub (children o) = None ->
  child E this sub b h
  = Some (length h,
          <[this := with_children o (children o ++ [(sub, length h)])]>
            (h ++ [constructor E (child_options o sub b)])).
Proof.
  intros Ho Hc. unfold child. rewrite Ho; simpl. rewrite Hc; simpl.
  by rewrite assoc_set_fresh.
Qed.

(** The store after a parent at [this] got a new object appended and its
    own record replaced. *)
Lemma grown_lookup h this o' new x y :
  this < length h ->
  <[this := o']> (h ++ [new]) !! x = Some y ->
  (x = this /\ y = o') \/ (x = length h /\ y = new)
  \/ (x <> this /\ h !! x = Some y).
Proof.
  intros Hlt Hx. destruct (decide (x = this)) as [->|Hne].
  - rewrite list_lookup_insert_eq in Hx by (rewrite length_app; simpl; lia).
    left. by simplify_eq.
  - rewrite list_lookup_insert_ne in Hx by done.
    apply alloc_lookup_inv in Hx as [Hx|[-> ->]]; auto.
Qed.

Lemma heap_wf_grow h this o sub new :
  heap_wf h -> h !! this = Some o ->
  children new = [] -> namespace new = namespace o +:+ "." +:+ sub ->
  heap_wf (<[this := with_children o (children o ++ [(sub, length h)])]>
             (h ++ [new])).
Proof.
  intros [Hnamed Hord Hpar Honce Hns] Ho Hnil Hnew.
  assert (this < length h) as Hlt by by eapply lookup_lt_Some.
  set (o' := with_children o (children o ++ [(sub, length h)])).
  assert (forall p c, edge (<[this := o']> (h ++ [new])) p c ->
            edge h p c \/ (p = this /\ c = length h)) as Hedge.
  { intros p c (y & k & Hp & Hk).
    apply grown_lookup in Hp as [[-> ->]|[[-> ->]|[_ Hp]]]; [|by rewrite Hnil in Hk; apply elem_of_nil in Hk|left; by exists y, k|done].
    simpl in Hk. apply elem_of_app in Hk as [Hk|Hk].
    - left. by exists o, k.
    - apply list_elem_of_singleton in Hk. right. by simplify_eq. }
  split.
  - intros p y Hp.
    apply grown_lookup in Hp as [[-> ->]|[[-> ->]|[_ Hp]]];
      [exact (Hnamed this o Ho)| |by eapply Hnamed|done].
    rewrite Hnew. intros Hempty.
    pose proof (dotted_nonempty (namespace o) sub) as Hd.
    rewrite Hempty in Hd. done.
  - intros p c Hpc. rewrite length_insert, length_app; simpl.
    apply Hedge in Hpc as [Hpc|[-> ->]]; [apply Hord in Hpc|]; lia.
  - intros p1 p2 c H1 H2.
    apply Hedge in H1 as [H1|[Hp1 Hc1]], H2 as [H2|[Hp2 Hc2]].
    + by eapply Hpar.
    + subst. apply Hord in H1. lia.
    + subst. apply Hord in H2. lia.
    + by subst.
  - intros p y Hp.
    apply grown_lookup in Hp as [[-> ->]|[[-> ->]|[_ Hp]]];
      [|rewrite Hnil; constructor|by eapply Honce|done].
    simpl. rewrite fmap_app. simpl. apply NoDup_app. split; [by eapply Honce|].
    split; [|apply NoDup_singleton].
    intros c Hc Hc'. apply list_elem_of_singleton in Hc'.
    apply list_elem_of_fmap in Hc as ([k c0] & Heq & Hk). simpl in Heq. subst.
    assert (edge h this (length h)) as He by by exists o, k.
    apply Hord in He. lia.
  - intros p y k c oc Hp Hk Hc.
    assert (namespace o' = namespace o) as Hno by done.
    apply grown_lookup in Hp as [[-> ->]|[[-> ->]|[Hpne Hp]]];
      [|by rewrite Hnil in Hk; apply elem_of_nil in Hk| |done].
    + simpl in Hk. apply elem_of_app in Hk as [Hk|Hk].
      * assert (edge h this c) as He by by exists o, k.
        apply Hord in He.
        apply grown_lookup in Hc as [[-> _]|[[-> _]|[_ Hc]]]; [lia|lia| |done].
        rewrite Hno. by eapply Hns.
      * apply list_elem_of_singleton in Hk. simplify_eq.
        apply grown_lookup in Hc as [[? _]|[[_ ->]|[_ Hc]]];
          [lia|by rewrite Hno| |done].
        apply lookup_lt_Some in Hc. lia.
    + assert (edge h p c) as He by by exists y, k.
      apply Hord in He.
      apply grown_lookup in Hc as [[-> ->]|[[-> _]|[_ Hc]]]; [|lia| |done].
      * rewrite Hno. by eapply Hns.
      * by eapply Hns.
Qed.

Lemma constructor_child_namespace E o sub b :
  namespace (constructor E (child_options o sub b))
  = namespace o +:+ "." +:+ sub.
Proof. unfold constructor; simpl. by rewrite dotted_nonempty. Qed.

(** [child] on a live reference always returns, and the store stays
    well-formed. *)
Lemma child_total E this sub b h :
  heap_wf h -> this < length h ->
  exists c h', child E this sub b h = Some (c, h') /\ heap_wf h'
               /\ length h <= length h' /\ c < length h'.
Proof.
  intros Hwf Hlt.
  destruct (lookup_lt_is_Some_2 h this Hlt) as [o Ho].
  destruct (assoc_get sub (children o)) as [c|] eqn:Hc.
  - exists c, h. split; [by eapply child_cached|]. split; [done|].
    split; [lia|]. apply assoc_get_elem in Hc.
    assert (edge h this c) as He by by exists o, sub.
    apply (wf_order h Hwf) in He. lia.
  - eexists _, _. split; [by eapply child_fresh|].
    split; [|rewrite length_insert, length_app; simpl; lia].
    apply heap_wf_grow; [done..|apply constructor_child_namespace].
Qed.

Lemma heap_wf_nil : heap_wf [].
Proof.
  split.
  - intros p o Hp. done.
  - intros p c (o & k & Hp & _). done.
  - intros p1 p2 c (o & k & Hp & _). done.
  - intros p o Hp. done.
  - intros p o k c oc Hp. done.
Qed.

(** ** Subtrees *)

Section Subtrees.
Variable h : Heap.
Hypothesis Hwf : heap_wf h.

Lemma descendant_ge a d : descendant h a d -> a <= d.
Proof.
  induction 1 as [|x y z Hxy _ IH]; [done|].
  apply (wf_order h Hwf) in Hxy. lia.
Qed.

(** Two ancestors of one logger lie on one line of descent. *)
Lemma descendant_comparable a b d :
  descendant h a d -> descendant h b d ->
  descendant h a b \/ descendant h b a.
Proof.
  intros Ha. revert b. revert d Ha.
  apply (rtc_ind_r (fun d => forall b, descendant h b d ->
                      descendant h a b \/ descendant h b a)).
  - intros b Hb. by right.
  - intros y z Hay Hyz IH b Hb.
    apply rtc_inv_r in Hb as [->|(y' & Hby' & Hy'z)].
    + left. by eapply rtc_r.
    + assert (y = y') as <- by by eapply (wf_parent h Hwf).
      by apply IH.
Qed.

(** The subtrees of two distinct children of one parent share nothing. *)
Lemma sibling_subtrees_disjoint p c1 c2 d :
  edge h p c1 -> edge h p c2 -> c1 <> c2 ->
  descendant h c1 d -> descendant h c2 d -> False.
Proof.
  assert (forall x y, edge h p x -> edge h p y -> x <> y ->
            descendant h x y -> False) as Hline.
  { intros x y Hx Hy Hne Hxy.
    apply rtc_inv_r in Hxy as [->|(q & Hxq & Hqy)]; [done|].
    assert (q = p) as -> by by eapply (wf_parent h Hwf).
    apply descendant_ge in Hxq. apply (wf_order h Hwf) in Hx. lia. }
  intros H1 H2 Hne Hd1 Hd2.
  destruct (descendant_comparable _ _ _ Hd1 Hd2); eauto.
Qed.

End Subtrees.

(** ** [setConfig] on a well-formed store *)

Section SetConfig.
Variable E : Env.
Variable config : LoggerOptions.
Variable h : Heap.
Hypothesis Hwf : heap_wf h.

(** The loop over the children of [p], started in a store [g] with the
    skeleton of [h], given that each recursive call behaves. *)
Lemma forEach_children fuel p (cs : list (string * ref)) :
  (forall c g, edge h p c -> skeleton <$> g = skeleton <$> h ->
     exists g', setConfig_rec E fuel config c g = Some g'
       /\ skeleton <$> g' = skeleton <$> h
       /\ (forall d, descendant h c d -> g' !! d = setConfig_fields E config <$> g !! d)
       /\ (forall d, ~ descendant h c d -> g' !! d = g !! d)) ->
  (forall kc, kc ∈ cs -> edge h p kc.2) -> NoDup cs.*2 ->
  forall g, skeleton <$> g = skeleton <$> h ->
  exists g',
    forEach (fun kc h' => setConfig_rec E fuel config kc.2 h') cs g = Some g'
    /\ skeleton <$> g' = skeleton <$> h
    /\ (forall d, (exists kc, kc ∈ cs /\ descendant h kc.2 d) ->
          g' !! d = setConfig_fields E config <$> g !! d)
    /\ (forall d, (forall kc, kc ∈ cs -> ~ descendant h kc.2 d) ->
          g' !! d = g !! d).
Proof.
  intros Hcall.
  induction cs as [|[k c] cs IH]; intros Hedges Hnodup g Hsk.
  - exists g. split; [done|]. split; [done|]. split; [|done].
    intros d (kc & Hkc & _). by apply elem_of_nil in Hkc.
  - simpl in Hnodup. apply NoDup_cons in Hnodup as [Hc Hnodup].
    assert (edge h p c) as Hpc by (apply (Hedges (k, c)); left).
    destruct (Hcall c g Hpc Hsk) as (g1 & Hrun & Hsk1 & Hin & Hout).
    destruct (IH (fun kc Hkc => Hedges kc (list_elem_of_further _ _ _ Hkc))
                Hnodup g1 Hsk1) as (g' & Hrest & Hsk' & Hin' & Hout').
    exists g'. simpl. rewrite Hrun; simpl.
    split; [done|]. split; [done|].
    assert (forall kc d, kc ∈ cs -> descendant h c d ->
              descendant h kc.2 d -> False) as Hdisj.
    { intros kc d Hkc Hd Hd'.
      eapply (sibling_subtrees_disjoint h Hwf p c kc.2 d); eauto.
      - apply Hedges. by right.
      - intros ->. apply Hc. apply list_elem_of_fmap. by exists kc. }
    split.
    + intros d (kc & Hkc & Hd). apply elem_of_cons in Hkc as [->|Hkc].
      * simpl in Hd. rewrite Hout' by (intros kc' Hkc' Hd'; eauto).
        by apply Hin.
      * rewrite Hin' by eauto. rewrite Hout; [done|].
        intros Hd'. eauto.
    + intros d Hnone. rewrite Hout'.
      * apply Hout. apply (Hnone (k, c)). left.
      * intros kc Hkc. apply Hnone. by right.
Qed.

(** [setConfig] returns as soon as the fuel covers the references past
    [r]; it rewrites the descendants of [r], each once, and nothing else. *)
Lemma setConfig_rec_spec fuel :
  forall r g, r < length h -> length h - r <= fuel ->
  skeleton <$> g = skeleton <$> h ->
  exists g', setConfig_rec E fuel config r g = Some g'
    /\ skeleton <$> g' = skeleton <$> h
    /\ (forall d, descendant h r d -> g' !! d = setConfig_fields E config <$> g !! d)
    /\ (forall d, ~ descendant h r d -> g' !! d = g !! d).
Proof.
  induction fuel as [|fuel IH]; intros r g Hr Hfuel Hsk; [lia|].
  assert (length g = length h) as Hlen by by apply skeleton_length.
  destruct (lookup_lt_is_Some_2 g r) as [o Ho]; [lia|].
  destruct (skeleton_lookup g h r o Hsk Ho) as (o' & Ho' & _ & Hkids).
  assert (skeleton <$> <[r := setConfig_fields E config o]> g = skeleton <$> h) as Hsk1.
  { rewrite <- Hsk. by eapply skeleton_insert. }
  assert (forall kc, kc ∈ children o -> edge h r kc.2) as Hedges.
  { intros [k c] Hkc. exists o', k. by rewrite <- Hkids. }
  destruct (forEach_children fuel r (children o)) with (g := <[r := setConfig_fields E config o]> g)
    as (g' & Hrun & Hsk' & Hin & Hout); [|done| |done|].
  { intros c g0 Hrc Hg0. apply (wf_order h Hwf) in Hrc. apply IH; [lia..|done]. }
  { rewrite Hkids. by eapply (wf_once h Hwf). }
  exists g'. simpl. rewrite Ho; simpl. split; [exact Hrun|].
  split; [done|]. split.
  - intros d Hd. apply rtc_inv in Hd as [<-|(c & Hrc & Hcd)].
    + rewrite Hout.
      * rewrite list_lookup_insert_eq by lia. by rewrite Ho.
      * intros kc Hkc Hd. apply (descendant_ge h Hwf) in Hd.
        apply Hedges, (wf_order h Hwf) in Hkc. lia.
    + destruct Hrc as (o'' & k & Ho'' & Hk).
      assert (o'' = o') as -> by congruence.
      rewrite Hin by (exists (k, c); by rewrite Hkids).
      rewrite list_lookup_insert_ne; [done|].
      apply (descendant_ge h Hwf) in Hcd.
      assert (edge h r c) as Hrc by by exists o', k.
      apply (wf_order h Hwf) in Hrc. lia.
  - intros d Hd. rewrite Hout.
    + apply list_lookup_insert_ne. intros <-. by apply Hd.
    + intros kc Hkc Hd'. apply Hd. eapply rtc_l; [|exact Hd'].
      by apply Hedges.
Qed.

(** [setConfig(config)] on a live logger returns; afterwards every logger
    in the subtree of [this] has had the assignments of [setConfig_fields]
    applied once, every other logger is untouched, and the store is still
    well-formed. *)
Lemma setConfig_spec this :
  this < length h ->
  exists h', setConfig E config this h = Some h'
    /\ heap_wf h' /\ length h' = length h
    /\ skeleton <$> h' = skeleton <$> h
    /\ (forall d, descendant h this d -> h' !! d = setConfig_fields E config <$> h !! d)
    /\ (forall d, ~ descendant h this d -> h' !! d = h !! d).
Proof.
  intros Hthis.
  destruct (setConfig_rec_spec (length h) this h) as (h' & Hrun & Hsk & Hin & Hout);
    [lia..|done|].
  exists h'. split; [exact Hrun|].
  split; [by eapply heap_wf_skeleton|].
  split; [by apply skeleton_length|]. done.
Qed.

End SetConfig.

(** ** C9: [child] is memoized and extends the namespace *)

(** C9. On a live parent, [child(s)] called twice returns the same
    reference, the child's namespace is the parent's namespace, a dot and
    [s], and in the resulting store every cached child's namespace is its
    parent's namespace, a dot and the key it is cached under. *)
Theorem C9_child_memoized (E : Env) (h : Heap) (this : ref) (o : LoggerObj)
  (s : string) (b1 b2 : option JsObj) :
  heap_wf h -> h !! this = Some o ->
  exists c h1 oc,
    child E this s b1 h = Some (c, h1)
    /\ child E this s b2 h1 = Some (c, h1)
    /\ h1 !! c = Some oc
    /\ namespace oc = namespace o +:+ "." +:+ s
    /\ (forall p op k x ox,
          h1 !! p = Some op -> (k, x) ∈ children op -> h1 !! x = Some ox ->
          namespace ox = namespace op +:+ "." +:+ k).
Proof.
  intros Hwf Ho.
  assert (this < length h) as Hlt by by eapply lookup_lt_Some.
  destruct (assoc_get s (children o)) as [c|] eqn:Hc.
  - assert ((s, c) ∈ children o) as Hsc by by apply assoc_get_elem.
    assert (edge h this c) as He by by exists o, s.
    apply (wf_order h Hwf) in He.
    destruct (lookup_lt_is_Some_2 h c) as [oc Hoc]; [lia|].
    exists c, h, oc. rewrite !(child_cached E this s _ h o c) by done.
    split; [done|]. split; [done|]. split; [done|].
    split; [by eapply (wf_namespace h Hwf)|]. apply (wf_namespace h Hwf).
  - set (new := constructor E (child_options o s b1)).
    set (o' := with_children o (children o ++ [(s, length h)])).
    exists (length h), (<[this := o']> (h ++ [new])), new.
    split; [by apply child_fresh|].
    assert (heap_wf (<[this := o']> (h ++ [new]))) as Hwf1.
    { apply heap_wf_grow; [done..|apply constructor_child_namespace]. }
    split; [|split; [|split]].
    + apply (child_cached E this s b2 _ o').
      * apply list_lookup_insert_eq. rewrite length_app; simpl; lia.
      * simpl. rewrite assoc_get_snoc, Hc. by rewrite String.eqb_refl.
    + rewrite list_lookup_insert_ne by lia. by apply list_lookup_middle.
    + apply constructor_child_namespace.
    + apply (wf_namespace _ Hwf1).
Qed.

Lemma heap_wf_single E options : heap_wf [constructor E options].
Proof.
  apply (heap_wf_alloc [] (constructor E options));
    [done | apply constructor_named | apply heap_wf_nil].
Qed.

Lemma C9_child_memoized_witness :
  let parent := constructor dev_env (named "A") in
  exists c h1 oc,
    child dev_env 0 "B" None [parent] = Some (c, h1)
    /\ child dev_env 0 "B" None h1 = Some (c, h1)
    /\ h1 !! c = Some oc
    /\ namespace oc = "A.B".
Proof.
  intros parent.
  destruct (C9_child_memoized dev_env [parent] 0 parent "B" None None)
    as (c & h1 & oc & H1 & H2 & H3 & H4 & _).
  - apply heap_wf_single.
  - reflexivity.
  - exists c, h1, oc. repeat split; assumption.
Defined.

(** ** C4: [setConfig] *)

Lemma setConfig_fields_configured E config o :
  configured E config o (setConfig_fields E config o).
Proof.
  split; try done;
    try (simpl; by match goal with |- context [from_option _ _ ?x] =>
                     destruct x end).
  unfold setConfig_fields; simpl.
  destruct (opt_transports config) as [[|t ts]|], (opt_enabled config) as [[|]|];
    simpl; destruct (stripLogs E), (isProd E), (pinoAvailable E),
      (transports o), (enabled o); done.
Qed.

(** The rule of the constructor does not govern [setConfig]: in production
    without pino, a logger that is enabled only through its transports stays
    enabled when [setConfig] empties its transport list, whereas a logger
    constructed with that empty list is disabled. *)
Lemma C4_enabled_not_recomputed :
  let this := constructor prod_env (with_transports [healthy_sink] (named "A")) in
  let config := with_transports [] no_options in
  exists this',
    setConfig prod_env config 0 [this] = Some [this']
    /\ transports this' = []
    /\ enabled this' = true
    /\ enabled_rule prod_env config = false
    /\ enabled (constructor prod_env
                  (with_transports (transports this') (named "A"))) = false.
Proof.
  intros this config. eexists. split; [vm_compute; reflexivity|].
  repeat split.
Qed.

(** C4 (as the code has it). [setConfig(config)] on a live logger returns;
    it leaves every logger outside the subtree of the receiver untouched,
    and rewrites the receiver and each cached descendant once, as
    [configured] says: the options present replace their fields (namespace
    and bindings are ignored), [enabled], when present, becomes
    [!stripLogs && config.enabled && (!isProd || pinoAvailable ||
    transports given or already there)], and a non-empty [transports]
    enables the logger unless the strip flag is set.  In particular
    [setConfig({transports: [t]})] sets the transport list of every cached
    child to [[t]] and enables it unless the strip flag is set. *)
Theorem C4_setConfig (E : Env) (config : LoggerOptions) (h : Heap)
  (this : ref) :
  heap_wf h -> this < length h ->
  exists h',
    setConfig E config this h = Some h'
    /\ (forall d o, descendant h this d -> h !! d = Some o ->
          exists o', h' !! d = Some o' /\ configured E config o o')
    /\ (forall d, ~ descendant h this d -> h' !! d = h !! d)
    /\ (forall t o k c oc,
          config = with_transports [t] no_options ->
          h !! this = Some o -> (k, c) ∈ children o -> h !! c = Some oc ->
          exists oc', h' !! c = Some oc' /\ transports oc' = [t]
                      /\ enabled oc' = enabled oc || negb (stripLogs E)).
Proof.
  intros Hwf Hthis.
  destruct (setConfig_spec E config h Hwf this Hthis)
    as (h' & Hrun & _ & _ & _ & Hin & Hout).
  exists h'. split; [exact Hrun|].
  assert (forall d o, descendant h this d -> h !! d = Some o ->
            exists o', h' !! d = Some o' /\ configured E config o o') as Hall.
  { intros d o Hd Ho. exists (setConfig_fields E config o).
    rewrite Hin, Ho by done. split; [done|].
    apply setConfig_fields_configured. }
  split; [exact Hall|]. split; [exact Hout|].
  intros t o k c oc -> Ho Hk Hc.
  destruct (Hall c oc) as (oc' & Hoc' & Hcfg); [|done|].
  { apply rtc_once. by exists o, k. }
  exists oc'. split; [done|]. destruct Hcfg. split; [done|].
  by rewrite cfg_enabled0.
Qed.

Lemma two_children_wf E h : two_children E = Some h -> heap_wf h /\ 0 < length h.
Proof.
  unfold two_children. intros Hh.
  destruct (child_total E 0 "B" None [constructor E (named "A")])
    as (c1 & h1 & Hc1 & Hwf1 & Hlen1 & _);
    [apply heap_wf_single | simpl; lia |].
  rewrite Hc1 in Hh; simpl in Hh, Hlen1.
  destruct (child_total E 0 "C" None h1) as (c2 & h2 & Hc2 & Hwf2 & Hlen2 & _);
    [done | lia |].
  rewrite Hc2 in Hh; simpl in Hh. injection Hh as <-. split; [done|lia].
Qed.

(** The specification's example, in production without pino: both
    children were disabled and end up enabled with the new transport. *)
Lemma C4_setConfig_witness :
  exists h h' o1 o2,
    two_children prod_env = Some h
    /\ enabled <$> h !! 1 = Some false
    /\ enabled <$> h !! 2 = Some false
    /\ setConfig prod_env (with_transports [healthy_sink] no_options) 0 h
       = Some h'
    /\ h' !! 1 = Some o1 /\ transports o1 = [healthy_sink] /\ enabled o1 = true
    /\ h' !! 2 = Some o2 /\ transports o2 = [healthy_sink] /\ enabled o2 = true.
Proof.
  destruct (two_children prod_env) as [h|] eqn:Hh;
    [|vm_compute in Hh; discriminate].
  destruct (two_children_wf prod_env h Hh) as [Hwf Hlen].
  destruct (C4_setConfig prod_env (with_transports [healthy_sink] no_options)
              h 0 Hwf Hlen) as (h' & Hrun & _ & _ & Hchildren).
  vm_compute in Hh. injection Hh as <-.
  edestruct (Hchildren healthy_sink) with (k := "B") (c := 1)
    as (o1 & Ho1 & Ht1 & He1); [reflexivity | reflexivity | | reflexivity |].
  { apply list_elem_of_In. left. reflexivity. }
  edestruct (Hchildren healthy_sink) with (k := "C") (c := 2)
    as (o2 & Ho2 & Ht2 & He2); [reflexivity | reflexivity | | reflexivity |].
  { apply list_elem_of_In. right. left. reflexivity. }
  eexists _, h', o1, o2.
  split; [reflexivity|]. split; [reflexivity|]. split; [reflexivity|].
  split; [exact Hrun|]. repeat split; assumption.
Defined.

(** ** C10: [with] *)

(** In production without pino a logger can only be enabled through its
    transports; [with] drops them, and the constructor then disables the
    copy. *)
Lemma C10_enabled_not_shared :
  let this := constructor prod_env (with_transports [healthy_sink] (named "A")) in
  exists w h1 copy,
    with_ prod_env 0 ∅ [this] = Some (w, h1)
    /\ h1 !! w = Some copy
    /\ enabled this = true
    /\ enabled copy = false.
Proof.
  intros this. eexists _, _, _. split; [vm_compute; reflexivity|].
  split; [reflexivity|]. split; reflexivity.
Qed.

(** C10 (as the code has it). [with(bindings)] allocates a fresh logger and
    touches no existing one, so no children map records it.  The copy has
    the receiver's namespace, minimum level, [disableConsole] and rotation
    settings, its [logDir] and [logFileName] unless they are empty, no
    transports and no children; its [enabled] is computed by the
    constructor from the receiver's flag and the empty transport list.  No
    later [setConfig] on a logger that existed before reaches it. *)
Theorem C10_with_fresh (E : Env) (h : Heap) (this : ref) (o : LoggerObj)
  (bindings : JsObj) :
  heap_wf h -> h !! this = Some o ->
  exists w h1 copy,
    with_ E this bindings h = Some (w, h1)
    /\ h !! w = None /\ h1 !! w = Some copy
    /\ (forall r, r <> w -> h1 !! r = h !! r)
    /\ (forall p, ~ edge h1 p w)
    /\ namespace copy = namespace o
    /\ minLevel copy = minLevel o
    /\ disableConsole copy = disableConsole o
    /\ maxSize copy = maxSize o /\ maxFiles copy = maxFiles o
    /\ frequency copy = frequency o
    /\ logDir copy = str_or (Some (logDir o)) "./logs"
    /\ logFileName copy = str_or (Some (logFileName o)) "app.log"
    /\ transports copy = [] /\ children copy = []
    /\ enabled copy
       = negb (stripLogs E) && enabled o && (negb (isProd E) || pinoAvailable E)
    /\ (forall config r, r < length h ->
          exists h2, setConfig E config r h1 = Some h2 /\ h2 !! w = Some copy).
Proof.
  intros Hwf Ho.
  set (copy := constructor E (with_options o bindings)).
  assert (heap_wf (h ++ [copy])) as Hwf1
    by (apply heap_wf_alloc; [done | apply constructor_named | done]).
  assert (forall p, ~ edge (h ++ [copy]) p (length h)) as Hnoedge.
  { intros p Hp. apply alloc_edge in Hp; [|done].
    apply (wf_order h Hwf) in Hp. lia. }
  exists (length h), (h ++ [copy]), copy.
  split; [unfold with_; by rewrite Ho|].
  split; [by apply lookup_ge_None_2|].
  split; [by apply list_lookup_middle|].
  split.
  { intros r Hr. destruct (decide (r < length h)).
    - by apply lookup_app_l.
    - rewrite !lookup_ge_None_2; [done|lia|rewrite length_app; simpl; lia]. }
  split; [exact Hnoedge|].
  split.
  { unfold copy, constructor, str_or; simpl.
    destruct (String.eqb (namespace o) "") eqn:Hn; [|done].
    apply String.eqb_eq in Hn. by apply (wf_named h Hwf) in Ho. }
  do 9 (split; [done|]).
  split.
  { unfold copy, constructor; simpl.
    destruct (stripLogs E), (enabled o), (isProd E), (pinoAvailable E); done. }
  intros config r Hr.
  destruct (setConfig_spec E config (h ++ [copy]) Hwf1 r)
    as (h2 & Hrun & _ & _ & _ & _ & Hout); [rewrite length_app; lia|].
  exists h2. split; [done|].
  rewrite Hout; [by apply list_lookup_middle|].
  intros Hd. apply rtc_inv_r in Hd as [->|(y & _ & Hy)]; [lia|].
  by apply Hnoedge in Hy.
Qed.

Lemma C10_with_fresh_witness :
  let this := constructor dev_env (with_transports [healthy_sink] (named "A")) in
  exists w h1 copy,
    with_ dev_env 0 ∅ [this] = Some (w, h1)
    /\ h1 !! w = Some copy
    /\ namespace copy = "A"
    /\ transports copy = []
    /\ enabled copy = true
    /\ exists h2,
         setConfig dev_env (with_enabled false no_options) 0 h1 = Some h2
         /\ h2 !! w = Some copy.
Proof.
  intros this.
  destruct (C10_with_fresh dev_env [this] 0 this ∅)
    as (w & h1 & copy & Hrun & _ & Hw & _ & _ & Hns & _ & _ & _ & _ & _ & _
        & _ & Hts & _ & Hen & Hlater).
  - apply heap_wf_single.
  - reflexivity.
  - exists w, h1, copy. split; [exact Hrun|]. split; [exact Hw|].
    split; [exact Hns|]. split; [exact Hts|]. split; [exact Hen|].
    apply Hlater. simpl. lia.
Defined.

(** ** Dotted paths *)

Lemma append_cons x (a b : string) : String x a +:+ b = String x (a +:+ b).
Proof. reflexivity. Qed.

Lemma append_assoc (a b c : string) : (a +:+ b) +:+ c = a +:+ (b +:+ c).
Proof.
  induction a as [|x a IH]; [done|]. by rewrite !append_cons, IH.
Qed.

Lemma split_dot_nonempty s : split_dot s <> [].
Proof.
  destruct s as [|c s]; simpl; [done|].
  destruct (Ascii.eqb c "."); [done|]. by destruct (split_dot s).
Qed.

Lemma split_dot_dotfree s : Forall (fun x => dotfree x = true) (split_dot s).
Proof.
  induction s as [|c s IH]; simpl; [by repeat constructor|].
  destruct (Ascii.eqb c ".") eqn:Hc; [by constructor|].
  destruct (split_dot s) as [|x xs]; [by repeat constructor; simpl; rewrite Hc|].
  apply Forall_cons in IH as [Hx Hxs].
  constructor; [|done]. simpl. by rewrite Hc, Hx.
Qed.

Lemma split_dot_of_dotfree s : dotfree s = true -> split_dot s = [s].
Proof.
  induction s as [|c s IH]; simpl; [done|].
  destruct (Ascii.eqb c "."); simpl; [done|]. intros Hs. by rewrite IH.
Qed.

Lemma split_dot_app a b :
  split_dot (a +:+ "." +:+ b) = split_dot a ++ split_dot b.
Proof.
  induction a as [|c a IH]; [done|]. rewrite append_cons. simpl.
  destruct (Ascii.eqb c "."); [by rewrite IH|].
  rewrite IH. pose proof (split_dot_nonempty a).
  by destruct (split_dot a).
Qed.

Lemma join_dots_split s : join_dots (split_dot s) = s.
Proof.
  induction s as [|c s IH]; simpl; [done|].
  destruct (Ascii.eqb c ".") eqn:Hc.
  - apply Ascii.eqb_eq in Hc as ->.
    pose proof (split_dot_nonempty s).
    destruct (split_dot s) as [|x xs]; [done|]. simpl in *. by rewrite IH.
  - pose proof (split_dot_nonempty s).
    destruct (split_dot s) as [|x [|y ys]]; [done|..]; simpl in *; by rewrite <- IH.
Qed.

Lemma join_from_dots root parts : join_from root parts = join_dots (root :: parts).
Proof.
  revert root. induction parts as [|x parts IH]; intros root; [done|].
  unfold join_from in *. simpl fold_left. rewrite IH.
  destruct parts as [|y parts]; [done|].
  change (join_dots ((root +:+ "." +:+ x) :: y :: parts))
    with ((root +:+ "." +:+ x) +:+ "." +:+ join_dots (y :: parts)).
  change (join_dots (root :: x :: y :: parts))
    with (root +:+ "." +:+ x +:+ "." +:+ join_dots (y :: parts)).
  rewrite append_assoc. by f_equal.
Qed.

(** The loop ends with [currentPath === path]. *)
Lemma join_from_split s :
  join_from (hd "" (split_dot s)) (tl (split_dot s)) = s.
Proof.
  rewrite join_from_dots. pose proof (split_dot_nonempty s) as Hne.
  rewrite <- (join_dots_split s) at 3. by destruct (split_dot s).
Qed.

(** A path ending in a dot-free segment splits in one way only. *)
Lemma dotted_inj p b p' b' :
  dotfree b = true -> dotfree b' = true ->
  p +:+ "." +:+ b = p' +:+ "." +:+ b' -> p = p' /\ b = b'.
Proof.
  intros Hb Hb' Heq.
  apply (f_equal split_dot) in Heq.
  rewrite !split_dot_app, (split_dot_of_dotfree b), (split_dot_of_dotfree b')
    in Heq by done.
  apply app_inj_tail in Heq as [Hp ->]. split; [|done].
  by rewrite <- (join_dots_split p), Hp, join_dots_split.
Qed.

Lemma dotted_not_dotfree p b : dotfree (p +:+ "." +:+ b) = false.
Proof.
  induction p as [|c p IH]; [done|]. rewrite append_cons. simpl.
  rewrite IH. by destruct (negb _).
Qed.

(** ** The registry *)

Lemma heap_ext_refl h : heap_ext h h.
Proof. intros r o k c Ho Hk. by exists o. Qed.

Lemma heap_ext_trans h1 h2 h3 : heap_ext h1 h2 -> heap_ext h2 h3 -> heap_ext h1 h3.
Proof.
  intros H12 H23 r o k c Ho Hk.
  destruct (H12 r o k c Ho Hk) as (o' & Ho' & Hk'). by eapply H23.
Qed.

Lemma heap_ext_alloc h o : heap_ext h (h ++ [o]).
Proof.
  intros r x k c Hx Hk. exists x. split; [by apply alloc_lookup_old|done].
Qed.

Lemma heap_ext_skeleton g h : skeleton <$> g = skeleton <$> h -> heap_ext h g.
Proof.
  intros Hsk r o k c Ho Hk.
  destruct (lookup_lt_is_Some_2 g r) as [o' Ho'].
  { rewrite (skeleton_length g h Hsk). by eapply lookup_lt_Some. }
  destruct (skeleton_lookup g h r o' Hsk Ho') as (o'' & Ho'' & _ & Hc).
  exists o'. split; [done|]. rewrite Hc. by simplify_eq.
Qed.

Lemma state_ext_refl st : state_ext st st.
Proof. split; [done|apply heap_ext_refl]. Qed.

Lemma state_ext_trans st1 st2 st3 :
  state_ext st1 st2 -> state_ext st2 st3 -> state_ext st1 st3.
Proof.
  intros [Hr1 Hh1] [Hr2 Hh2]. split; [by etrans|by eapply heap_ext_trans].
Qed.

(** What a returning [child] call guarantees. *)
Lemma child_spec E this s b h c h' :
  heap_wf h -> child E this s b h = Some (c, h') ->
  heap_wf h' /\ length h <= length h' /\ c < length h' /\ heap_ext h h'
  /\ exists o', h' !! this = Some o' /\ assoc_get s (children o') = Some c.
Proof.
  intros Hwf Hrun.
  destruct (h !! this) as [o|] eqn:Ho; [|unfold child in Hrun; by rewrite Ho in Hrun].
  assert (this < length h) as Hlt by by eapply lookup_lt_Some.
  destruct (child_total E this s b h Hwf Hlt) as (c0 & h0 & Hrun0 & Hwf' & Hlen & Hc).
  assert (c0 = c /\ h0 = h') as [-> ->] by (split; congruence).
  do 3 (split; [done|]).
  destruct (assoc_get s (children o)) as [x|] eqn:Hx.
  - rewrite (child_cached E this s b h o x) in Hrun by done. simplify_eq.
    split; [apply heap_ext_refl|]. by exists o.
  - rewrite (child_fresh E this s b h o) in Hrun by done. simplify_eq.
    split.
    + intros r x k c Hr Hk. destruct (decide (r = this)) as [->|Hne].
      * eexists. split.
        { apply list_lookup_insert_eq. rewrite length_app; simpl; lia. }
        simpl. rewrite assoc_get_snoc. assert (x = o) as -> by congruence.
        by rewrite Hk.
      * exists x. split; [|done].
        rewrite list_lookup_insert_ne by done. by apply alloc_lookup_old.
    + eexists. split.
      { apply list_lookup_insert_eq. rewrite length_app; simpl; lia. }
      simpl. rewrite assoc_get_snoc, Hx. by rewrite String.eqb_refl.
Qed.

Section Registry.
Variable E : Env.

(** Registering a fresh child under [path.x]. *)
Lemma state_wf_register st path x cur c h1 :
  state_wf st -> dotfree x = true ->
  loggerRegistry st !! path = Some cur ->
  loggerRegistry st !! (path +:+ "." +:+ x) = None ->
  child E cur x None (heap st) = Some (c, h1) ->
  let st1 := {| heap := h1;
                loggerRegistry :=
                  <[path +:+ "." +:+ x := c]> (loggerRegistry st) |} in
  state_wf st1 /\ state_ext st st1.
Proof.
  intros [Hwf Hlive Htree] Hx Hcur Hnone Hchild st1.
  destruct (child_spec E cur x None (heap st) c h1 Hwf Hchild)
    as (Hwf1 & Hlen & Hc & Hext & o' & Ho' & Hkey).
  split; [split|split]; simpl.
  - done.
  - intros p r Hp. apply lookup_insert_Some in Hp as [[_ <-]|[_ Hp]]; [done|].
    apply Hlive in Hp. lia.
  - intros p b r Hb Hp.
    apply lookup_insert_Some in Hp as [[Heq <-]|[Hne Hp]].
    + apply dotted_inj in Heq as [<- <-]; [|done..].
      exists cur, o'. split; [|done].
      rewrite lookup_insert_ne; [done|]. intros Heq. by rewrite Heq, Hcur in Hnone.
    + destruct (Htree p b r Hb Hp) as (rp & op & Hrp & Hop & Hk).
      destruct (Hext rp op b r Hop Hk) as (op' & Hop' & Hk').
      exists rp, op'. split; [|done].
      rewrite lookup_insert_ne; [done|]. intros Heq. by rewrite Heq, Hrp in Hnone.
  - by apply insert_subseteq.
  - done.
Qed.

(** The loop of [getLogger] returns, ends on the registry entry of the
    full path, and only adds to the state. *)
Lemma walk_spec parts :
  forall cur path st,
    state_wf st -> Forall (fun x => dotfree x = true) parts ->
    loggerRegistry st !! path = Some cur ->
    exists r st',
      walk E parts cur path st = Some (r, st')
      /\ state_wf st' /\ state_ext st st'
      /\ loggerRegistry st' !! join_from path parts = Some r.
Proof.
  induction parts as [|x parts IH]; intros cur path st Hst Hparts Hcur.
  - exists cur, st. split; [done|]. split; [done|].
    split; [apply state_ext_refl|done].
  - apply Forall_cons in Hparts as [Hx Hparts].
    destruct (loggerRegistry st !! (path +:+ "." +:+ x)) as [r1|] eqn:Hreg.
    + assert (walk E (x :: parts) cur path st
              = walk E parts r1 (path +:+ "." +:+ x) st) as ->
        by (simpl; rewrite Hreg; simpl; by rewrite Hreg).
      by apply IH.
    + destruct (child_total E cur x None (heap st)) as (c & h1 & Hchild & _);
        [apply Hst | by eapply (st_live st Hst) |].
      assert (walk E (x :: parts) cur path st
              = walk E parts c (path +:+ "." +:+ x)
                  {| heap := h1;
                     loggerRegistry :=
                       <[path +:+ "." +:+ x := c]> (loggerRegistry st) |}) as ->.
      { simpl. rewrite Hreg, Hchild; simpl. by rewrite lookup_insert_eq. }
      destruct (state_wf_register st path x cur c h1) as [Hst1 Hext1]; [done..|].
      destruct (IH c (path +:+ "." +:+ x) _ Hst1 Hparts)
        as (r & st' & Hrun & Hst' & Hext' & Hr);
        [simpl; by rewrite lookup_insert_eq|].
      exists r, st'. split; [done|]. split; [done|].
      split; [by eapply state_ext_trans|done].
Qed.

(** Registering a fresh root. *)
Lemma state_wf_root st rootName :
  state_wf st -> dotfree rootName = true ->
  loggerRegistry st !! rootName = None ->
  let st1 := {| heap := heap st ++ [constructor E (named rootName)];
                loggerRegistry :=
                  <[rootName := length (heap st)]> (loggerRegistry st) |} in
  state_wf st1 /\ state_ext st st1.
Proof.
  intros [Hwf Hlive Htree] Hroot Hnone st1.
  split; [split|split]; simpl.
  - apply heap_wf_alloc; [done | apply constructor_named | done].
  - intros p r Hp. rewrite length_app; simpl.
    apply lookup_insert_Some in Hp as [[_ <-]|[_ Hp]]; [lia|].
    apply Hlive in Hp. lia.
  - intros p b r Hb Hp.
    apply lookup_insert_Some in Hp as [[Heq _]|[Hne Hp]].
    + pose proof (dotted_not_dotfree p b) as Hd. rewrite <- Heq in Hd. congruence.
    + destruct (Htree p b r Hb Hp) as (rp & op & Hrp & Hop & Hk).
      exists rp, op. split; [|split; [by apply alloc_lookup_old|done]].
      rewrite lookup_insert_ne; [done|]. intros Heq. by rewrite Heq, Hrp in Hnone.
  - by apply insert_subseteq.
  - apply heap_ext_alloc.
Qed.

(** [getLogger(path)] returns, leaves [path] registered to the logger it
    returned, and only adds to the state. *)
Lemma getLogger_spec path st :
  state_wf st ->
  exists r st',
    getLogger E path st = Some (r, st')
    /\ state_wf st' /\ state_ext st st'
    /\ loggerRegistry st' !! path = Some r.
Proof.
  intros Hst. unfold getLogger.
  destruct (loggerRegistry st !! path) as [r|] eqn:Hreg.
  { exists r, st. split; [done|]. split; [done|].
    split; [apply state_ext_refl|done]. }
  pose proof (split_dot_dotfree path) as Hparts.
  pose proof (split_dot_nonempty path) as Hne.
  pose proof (join_from_split path) as Hjoin.
  destruct (split_dot path) as [|rootName parts]; [done|].
  apply Forall_cons in Hparts as [Hroot Hparts]. simpl in *.
  destruct (loggerRegistry st !! rootName) as [r0|] eqn:Hr0.
  - rewrite Hr0; simpl.
    destruct (walk_spec parts r0 rootName st) as (r & st' & Hrun & Hst' & Hext & Hr);
      [done..|].
    exists r, st'. by rewrite Hjoin in Hr.
  - destruct (state_wf_root st rootName) as [Hst1 Hext1]; [done..|].
    destruct (walk_spec parts (length (heap st)) rootName _ Hst1 Hparts)
      as (r & st' & Hrun & Hst' & Hext & Hr);
      [simpl; by rewrite lookup_insert_eq|].
    exists r, st'. rewrite Hjoin in Hr. split; [|split; [done|]].
    + unfold alloc. simpl. by rewrite lookup_insert_eq.
    + split; [by eapply state_ext_trans|done].
Qed.

End Registry.

(** ** The life of the process *)

Lemma state_wf_empty : state_wf empty_state.
Proof.
  split; simpl.
  - apply heap_wf_nil.
  - intros p r Hp. by rewrite lookup_empty in Hp.
  - intros p b r _ Hp. by rewrite lookup_empty in Hp.
Qed.

(** Replacing the store by a larger one keeps the state well-formed. *)
Lemma state_wf_heap st h' :
  state_wf st -> heap_wf h' -> length (heap st) <= length h' ->
  heap_ext (heap st) h' ->
  let st' := {| heap := h'; loggerRegistry := loggerRegistry st |} in
  state_wf st' /\ state_ext st st'.
Proof.
  intros [Hwf Hlive Htree] Hwf' Hlen Hext st'. split; [split|split]; simpl.
  - done.
  - intros p r Hp. apply Hlive in Hp. lia.
  - intros p b r Hb Hp.
    destruct (Htree p b r Hb Hp) as (rp & op & Hrp & Hop & Hk).
    destruct (Hext rp op b r Hop Hk) as (op' & Hop' & Hk'). by exists rp, op'.
  - done.
  - done.
Qed.

Lemma setConfig_live E config this h h' :
  setConfig E config this h = Some h' -> this < length h.
Proof.
  unfold setConfig. destruct (length h) eqn:Hlen; simpl; [done|].
  destruct (h !! this) as [o|] eqn:Ho; [|done].
  intros _. rewrite <- Hlen. by eapply lookup_lt_Some.
Qed.

Lemma api_step_wf E st st' :
  state_wf st -> api_step E st st' -> state_wf st' /\ state_ext st st'.
Proof.
  intros Hst Hstep. destruct Hstep as
    [path st r st' Hrun | this s b st c h' Hrun | config this st h' Hrun
    | this bindings st w h' Hrun | options st].
  - destruct (getLogger_spec E path st Hst) as (r0 & st0 & Hrun0 & Hst0 & Hext & _).
    by simplify_eq.
  - destruct (child_spec E this s b (heap st) c h' (st_heap st Hst) Hrun)
      as (Hwf' & Hlen & _ & Hext & _).
    by apply state_wf_heap.
  - pose proof (setConfig_live E config this _ _ Hrun) as Hlive.
    destruct (setConfig_spec E config (heap st) (st_heap st Hst) this Hlive)
      as (h0 & Hrun0 & Hwf' & Hlen & Hsk & _).
    assert (h0 = h') as -> by congruence.
    apply state_wf_heap; [done..|lia|by apply heap_ext_skeleton].
  - unfold with_ in Hrun. destruct (heap st !! this) as [o|]; [|done].
    simpl in Hrun. unfold alloc in Hrun. simplify_eq.
    apply state_wf_heap; [done| |rewrite length_app; lia|apply heap_ext_alloc].
    apply heap_wf_alloc; [done|apply constructor_named|apply Hst].
  - apply state_wf_heap; [done| |rewrite length_app; lia|apply heap_ext_alloc].
    apply heap_wf_alloc; [done|apply constructor_named|apply Hst].
Qed.

Lemma later_wf E st st' :
  state_wf st -> later E st st' -> state_wf st' /\ state_ext st st'.
Proof.
  intros Hst Hlater. induction Hlater as [st|st st1 st2 Hstep _ IH].
  - split; [done|apply state_ext_refl].
  - destruct (api_step_wf E st st1 Hst Hstep) as [Hst1 Hext1].
    destruct (IH Hst1) as [Hst2 Hext2].
    split; [done|by eapply state_ext_trans].
Qed.

(** ** C8: one logger per path *)

(** C8. [getLogger(path)] returns a logger [r]; whatever the application
    does afterwards, every later [getLogger(path)] returns that same
    reference [r]; and for a segment [b], the child [r.child(b)] is the very
    logger that every later [getLogger(path + "." + b)] returns. *)
Theorem C8_getLogger_canonical (E : Env) (st : State) (path : string) :
  state_wf st ->
  exists r st1,
    getLogger E path st = Some (r, st1)
    /\ (forall st2, later E st1 st2 ->
          exists st3, getLogger E path st2 = Some (r, st3))
    /\ (forall b bindings, dotfree b = true ->
          exists c h2,
            child E r b bindings (heap st1) = Some (c, h2)
            /\ forall st2,
                 later E {| heap := h2; loggerRegistry := loggerRegistry st1 |} st2 ->
                 exists st3,
                   getLogger E (path +:+ "." +:+ b) st2 = Some (c, st3)).
Proof.
  intros Hst.
  destruct (getLogger_spec E path st Hst) as (r & st1 & Hrun & Hst1 & _ & Hr).
  exists r, st1. split; [done|]. split.
  - intros st2 Hlater.
    destruct (later_wf E st1 st2 Hst1 Hlater) as [Hst2 [Hreg _]].
    destruct (getLogger_spec E path st2 Hst2) as (r' & st3 & Hrun' & _ & [Hreg' _] & Hr').
    exists st3. rewrite Hrun'. do 2 f_equal.
    pose proof (lookup_weaken _ _ _ _ Hr Hreg) as Hr2.
    pose proof (lookup_weaken _ _ _ _ Hr2 Hreg') as Hr3. congruence.
  - intros b bindings Hb.
    destruct (child_total E r b bindings (heap st1)) as (c & h2 & Hchild & _);
      [apply Hst1 | by eapply (st_live st1 Hst1) |].
    exists c, h2. split; [done|]. intros st2 Hlater.
    destruct (child_spec E r b bindings (heap st1) c h2 (st_heap st1 Hst1) Hchild)
      as (_ & _ & _ & _ & o' & Ho' & Hkey).
    destruct (api_step_wf E st1 _ Hst1 (step_child E r b bindings st1 c h2 Hchild))
      as [Hst1' _].
    destruct (later_wf E _ st2 Hst1' Hlater) as [Hst2 [Hreg Hheap]].
    simpl in Hreg, Hheap.
    destruct (getLogger_spec E (path +:+ "." +:+ b) st2 Hst2)
      as (r' & st3 & Hrun' & Hst3 & [Hreg' Hheap'] & Hr').
    exists st3. rewrite Hrun'. do 2 f_equal.
    destruct (st_tree st3 Hst3 path b r' Hb Hr') as (rp & op & Hrp & Hop & Hk).
    pose proof (lookup_weaken _ _ _ _ Hr Hreg) as Hr2.
    pose proof (lookup_weaken _ _ _ _ Hr2 Hreg') as Hr3.
    assert (rp = r) as -> by congruence.
    destruct (Hheap r o' b c Ho' Hkey) as (o2 & Ho2 & Hk2).
    destruct (Hheap' r o2 b c Ho2 Hk2) as (o3 & Ho3 & Hk3).
    congruence.
Qed.

(** The specification's example on a fresh registry:
    [getLogger("A").child("B")], then [getLogger("A.B")]. *)
Lemma C8_getLogger_canonical_witness :
  exists r st1 c h2 st3 st4,
    getLogger dev_env "A" empty_state = Some (r, st1)
    /\ getLogger dev_env "A" st1 = Some (r, st3)
    /\ child dev_env r "B" None (heap st1) = Some (c, h2)
    /\ getLogger dev_env "A.B"
         {| heap := h2; loggerRegistry := loggerRegistry st1 |}
       = Some (c, st4).
Proof.
  destruct (C8_getLogger_canonical dev_env empty_state "A" state_wf_empty)
    as (r & st1 & Hfirst & Hagain & Hchild).
  destruct (Hagain st1) as (st3 & Hsecond); [apply rtc_refl|].
  destruct (Hchild "B" None) as (c & h2 & Hc & Hpath); [reflexivity|].
  destruct (Hpath {| heap := h2; loggerRegistry := loggerRegistry st1 |})
    as (st4 & Hthird); [apply rtc_refl|].
  exists r, st1, c, h2, st3, st4. repeat split; assumption.
Defined.

(** The state the module exports is one the API reaches from the empty
    registry. *)
Lemma commonLoggers_reachable E logger names :
  forall st, state_wf st -> logger < length (heap st) ->
  exists h, forEach (fun name h => snd <$> child E logger name None h)
              names (heap st) = Some h
            /\ later E st {| heap := h; loggerRegistry := loggerRegistry st |}.
Proof.
  induction names as [|name names IH]; intros st Hst Hlive.
  - exists (heap st). split; [done|]. destruct st. apply rtc_refl.
  - destruct (child_total E logger name None (heap st))
      as (c & h1 & Hchild & _ & Hlen & _); [apply Hst | done |].
    pose proof (step_child E logger name None st c h1 Hchild) as Hstep.
    destruct (api_step_wf E st _ Hst Hstep) as [Hst1 _].
    destruct (IH _ Hst1) as (h & Hrun & Hlater); [simpl; lia|].
    exists h. simpl. rewrite Hchild; simpl. split; [done|].
    eapply rtc_l; [exact Hstep|exact Hlater].
Qed.

Lemma module_state_reachable E :
  exists logger st,
    module_state E = Some (logger, st)
    /\ later E empty_state st /\ state_wf st.
Proof.
  destruct (getLogger_spec E "QwickApps" empty_state state_wf_empty)
    as (logger & st & Hrun & Hst & _ & Hreg).
  destruct (commonLoggers_reachable E logger commonLogger_names st Hst)
    as (h & Hchildren & Hlater); [by eapply (st_live st Hst)|].
  eexists logger, _. unfold module_state.
  fold empty_state. rewrite Hrun. cbn -[forEach]. rewrite Hchildren.
  split; [done|].
  assert (later E empty_state {| heap := h; loggerRegistry := loggerRegistry st |})
    as Hall.
  { eapply rtc_l; [by eapply step_getLogger|exact Hlater]. }
  split; [exact Hall|]. by apply (later_wf E empty_state _ state_wf_empty).
Qed.

(** ** C5: acquiring pino when the module is loaded *)

(** An error thrown while loading pino is swallowed: the module loads and
    reports pino as unavailable. *)
Lemma module_init_load_error_swallowed (H : Host) (exn : JsValue) :
  require_pino H = Throws exn ->
  window_defined H = true \/ process_defined H = true ->
  exists env, module_init H = Returns env
              /\ pinoAvailable env = false /\ basePino env = false.
Proof.
  intros Hreq Hhost. unfold module_init. rewrite Hreq.
  assert (try_or (if require_defined H then Throws exn else Returns false) false
          = Returns false) as -> by by destruct (require_defined H).
  simpl. destruct Hhost as [Hw|Hp].
  - rewrite Hw. simpl. eexists. by split.
  - unfold process_env. rewrite Hp.
    destruct (negb (window_defined H)); simpl; eexists; by split.
Qed.

(** C5 (what the code does instead). When [require('pino')] succeeds on a
    Node host and the construction of the root pino instance throws, the
    exception is not caught: loading the logging module throws it. *)
Theorem C5_construction_error_escapes (H : Host) (exn : JsValue) :
  require_defined H = true -> require_pino H = Returns true ->
  process_defined H = true -> truthy_str (HOSTNAME H) = true ->
  pinoModule_call H = Throws exn ->
  module_init H = Throws exn.
Proof.
  intros Hreq Hpino Hproc Hhost Hcall.
  unfold module_init, process_env.
  rewrite Hreq, Hpino, Hproc, Hhost, Hcall. simpl.
  by destruct (negb (window_defined H)).
Qed.

Lemma C5_construction_error_escapes_witness :
  module_init broken_pino_host = Throws pino_type_error
  /\ exists env, module_init no_pino_host = Returns env
                 /\ pinoAvailable env = false.
Proof.
  split.
  - apply (C5_construction_error_escapes broken_pino_host pino_type_error);
      reflexivity.
  - eexists. split; reflexivity.
Defined.

(** * Further properties of the emission pipeline *)



Lemma gated_false_iff E this level :
  gated E this level = false
  <-> level = Error
      \/ (enabled this = true
          /\ (pinoAvailable E = true
              \/ (levelOrder (minLevel this) <= levelOrder level)%Z)).
Proof.
  unfold gated, levelEnabled.
  destruct level; simpl;
    try (rewrite orb_false_iff, andb_false_iff, !negb_false_iff, Z.leb_le;
         split; [intros [? ?]; by right | intros [?|[? ?]]; [done|by split]]).
  split; [by left|done].
Qed.

(** X2. A call whose context is taken apart does something exactly when
    it is an error call, or the logger is enabled and either pino is
    available or the level reaches the minimum level; with pino available
    the minimum level of the logger filters nothing. *)
Theorem log_emits_iff (E : Env) (level : LogLevel) (now : Instant)
  (this : LoggerObj) (message : string) (args : list JsValue) :
  context_ok args = true ->
  fst (log E level now this message args) <> []
  <-> level = Error
      \/ (enabled this = true
          /\ (pinoAvailable E = true
              \/ (levelOrder (minLevel this) <= levelOrder level)%Z)).
Proof.
  intros Hok%context_ok_deletable.
  rewrite <- gated_false_iff, log_is_emit.
  destruct (gated E this level) eqn:Hg.
  - rewrite emit_gated by done. simpl. split; [done|discriminate].
  - rewrite emit_ungated by done. simpl. split; [done|discriminate].
Qed.

(** With pino in production, where the minimum level is [info], a debug
    call still reaches the backend. *)
Lemma log_emits_iff_witness :
  let this := constructor pino_env (named "App") in
  fst (log pino_env Debug noon this "x" []) <> [].
Proof.
  intros this.
  apply (log_emits_iff pino_env Debug noon this "x" []); [reflexivity|].
  right. split; [reflexivity|]. left. reflexivity.
Defined.

(** X3. When no transport throws, a call that passes the gate and whose
    context is taken apart invokes every transport of the list once, in
    order, each with the level, the namespace, the message and the entry
    the backend got, prints no diagnostic, and then writes its console
    line. *)
Theorem log_all_transports_served (E : Env) (level : LogLevel)
  (now : Instant) (this : LoggerObj) (message : string)
  (args : list JsValue) :
  gated E this level = false ->
  context_ok args = true ->
  Forall (returns_on level (namespace this) message (build_entry message args))
    (transports this) ->
  log E level now this message args
  = (EvBackend (backend this) level (build_entry message args)
       (snd (take_context args))
     :: map (handle_call level (namespace this) message
               (build_entry message args)) (transports this)
     ++ (if negb (LogLevel_eqb level Debug) && negb (disableConsole this)
         then [EvConsole (level_name level)
                 (formatConsoleMessage now (namespace this) message)]
         else []),
     Normal).
Proof.
  intros Hg Hok%context_ok_deletable Hall.
  rewrite log_is_emit, emit_ungated by done.
  unfold transport_stage. rewrite fanout_all_return by done.
  destruct (transports this); simpl; by destruct (negb (LogLevel_eqb level Debug)).
Qed.

Lemma log_all_transports_served_witness :
  let this :=
    constructor dev_env (with_transports [healthy_sink; healthy_sink] (named "App")) in
  log dev_env Info noon this "ready" [JString "extra"]
  = ([EvBackend (ConsoleBackend "App") Info {["msg" := JString "ready"]}
        [JString "extra"];
      EvTransport "second" Info "App" "ready" {["msg" := JString "ready"]};
      EvTransport "second" Info "App" "ready" {["msg" := JString "ready"]};
      EvConsole "info" "14:23:05 [App] ready"], Normal).
Proof.
  intros this.
  rewrite (log_all_transports_served dev_env Info noon this "ready"
             [JString "extra"]).
  - vm_compute. reflexivity.
  - reflexivity.
  - reflexivity.
  - repeat constructor.
Defined.

Lemma fanout_calls_listed ts level ns message entry :
  Forall (fun ev => exists t, t ∈ ts /\ ev = handle_call level ns message entry t)
    (fst (fanout ts level ns message entry)).
Proof.
  induction ts as [|t ts IH]; simpl; [constructor|].
  assert (exists t0, t0 ∈ t :: ts
            /\ EvTransport (tname t) level ns message entry
               = handle_call level ns message entry t0) as Hhead
    by (exists t; split; [left|done]).
  destruct (handle t level ns message entry); simpl.
  - constructor; [done|]. eapply Forall_impl; [exact IH|].
    intros ev (t0 & Ht0 & ->). exists t0. split; [by right|done].
  - by repeat constructor.
Qed.

(** X4. A call never reaches a transport that is not in the logger's list,
    and what a transport is handed is always the level, the logger's
    namespace, the message and the backend's entry: the positional
    arguments of the call never reach a transport. *)
Theorem log_transport_calls (E : Env) (level : LogLevel) (now : Instant)
  (this : LoggerObj) (message : string) (args : list JsValue) :
  Forall (fun ev =>
            forall t l ns m ctx, ev = EvTransport t l ns m ctx ->
              (exists tr, tr ∈ transports this /\ tname tr = t)
              /\ l = level /\ ns = namespace this /\ m = message
              /\ ctx = build_entry message args)
    (fst (log E level now this message args)).
Proof.
  rewrite log_is_emit. destruct (gated E this level) eqn:Hg.
  { rewrite emit_gated by done. constructor. }
  destruct (error_deletable args) eqn:Hdel.
  2:{ destruct (emit_locked E now this level message args
                  (negb (LogLevel_eqb level Debug)) Hg Hdel) as [msg ->].
      constructor. }
  rewrite emit_ungated by done. simpl.
  constructor; [done|]. apply Forall_app. split.
  - unfold transport_stage, try_catch.
    destruct (negb _); [|constructor].
    pose proof (fanout_calls_listed (transports this) level (namespace this)
                  message (build_entry message args)) as Hf.
    assert (forall evs,
              Forall (fun ev => exists t, t ∈ transports this
                        /\ ev = handle_call level (namespace this) message
                                  (build_entry message args) t) evs ->
              Forall (fun ev => forall t l ns m ctx,
                        ev = EvTransport t l ns m ctx ->
                        (exists tr, tr ∈ transports this /\ tname tr = t)
                        /\ l = level /\ ns = namespace this /\ m = message
                        /\ ctx = build_entry message args) evs) as Hconv.
    { intros evs Hevs. eapply Forall_impl; [exact Hevs|].
      intros ev (tr & Htr & ->) t l ns m ctx Heq.
      unfold handle_call in Heq. simplify_eq. split; [by exists tr|done]. }
    destruct (fanout _ _ _ _ _) as [evs [|e]]; simpl in *; [by apply Hconv|].
    apply Forall_app. split; [by apply Hconv|]. by repeat constructor.
  - destruct (_ && _); by repeat constructor.
Qed.

(** X5. Only a leading plain object is taken as context: when the first
    argument is anything else (an Error, a string, an array) or there is
    none, the entry is just [{msg: message}] and the backend receives every
    argument, unchanged, after it. *)
Theorem log_positional_args_forwarded (E : Env) (level : LogLevel)
  (now : Instant) (this : LoggerObj) (message : string)
  (args : list JsValue) :
  gated E this level = false ->
  (forall a0 rest, args = a0 :: rest -> isPlainObject a0 = false) ->
  exists tail,
    fst (log E level now this message args)
    = EvBackend (backend this) level {["msg" := JString message]} args :: tail.
Proof.
  intros Hg Hfirst.
  assert (take_context args = (None, args)) as Htake.
  { destruct args as [|a0 rest]; [done|].
    specialize (Hfirst a0 rest eq_refl). unfold take_context.
    by rewrite Hfirst. }
  assert (error_deletable args = true) as Hdel.
  { unfold error_deletable. by rewrite Htake. }
  rewrite log_is_emit, emit_ungated by done. simpl.
  unfold build_entry. rewrite Htake. simpl. by eexists.
Qed.

Lemma log_positional_args_forwarded_witness :
  let this := constructor dev_env (named "App") in
  exists tail,
    fst (error dev_env noon this "Failed to load:" [boom; JPlain ∅])
    = EvBackend (ConsoleBackend "App") Error
        {["msg" := JString "Failed to load:"]} [boom; JPlain ∅] :: tail.
Proof.
  intros this.
  apply (log_positional_args_forwarded dev_env Error noon this
           "Failed to load:" [boom; JPlain ∅]).
  - reflexivity.
  - intros a0 rest Heq. injection Heq as <- _. reflexivity.
Defined.

Lemma build_entry_plain message c rest :
  isPlainObject c = true ->
  (forall a n m st, own_properties c !! "error" <> Some (a, JErrorInst n m st)) ->
  enumerable_values (own_properties c) !! "__proto__" = None ->
  build_entry message (c :: rest)
  = enumerable_values (own_properties c) ∪ {["msg" := JString message]}.
Proof.
  intros Hc Hno Hproto. unfold build_entry.
  rewrite take_context_plain by done. cbn [fst].
  assert (lift_error (Some c) = Returns (None, Some (own_properties c)))
    as ->.
  { unfold lift_error.
    destruct (own_properties c !! "error") as [[a []]|] eqn:Herr; try done.
    by destruct (Hno a name message0 stack). }
  simpl. unfold object_assign. f_equal. by apply delete_id.
Qed.

(** X6. A context whose [error] property is not an Error instance (or is
    missing), and which has no enumerable property of its own named
    [__proto__], is merged as it is: the entry holds every enumerable
    property of the context, [error] included, and gets no [err] of its
    own. *)
Theorem log_error_not_lifted (E : Env) (level : LogLevel) (now : Instant)
  (this : LoggerObj) (message : string) (c : JsValue)
  (rest : list JsValue) :
  gated E this level = false ->
  isPlainObject c = true ->
  (forall a n m st, own_properties c !! "error" <> Some (a, JErrorInst n m st)) ->
  enumerable_values (own_properties c) !! "__proto__" = None ->
  exists entry tail,
    log E level now this message (c :: rest)
    = (EvBackend (backend this) level entry rest :: tail, Normal)
    /\ entry
       = enumerable_values (own_properties c) ∪ {["msg" := JString message]}
    /\ entry !! "error" = enumerable_values (own_properties c) !! "error"
    /\ entry !! "err" = enumerable_values (own_properties c) !! "err".
Proof.
  intros Hg Hc Hno Hproto.
  assert (error_deletable (c :: rest) = true) as Hdel.
  { unfold error_deletable. rewrite take_context_plain by done. simpl.
    destruct (own_properties c !! "error") as [[a []]|] eqn:Herr; try done.
    by destruct (Hno a name message0 stack). }
  rewrite log_is_emit, emit_ungated by done.
  rewrite take_context_plain by done. simpl.
  rewrite build_entry_plain by done.
  eexists _, _. split; [done|]. split; [done|].
  rewrite !lookup_union, !lookup_singleton_ne by done.
  split.
  - by destruct (enumerable_values (own_properties c) !! "error").
  - by destruct (enumerable_values (own_properties c) !! "err").
Qed.

Lemma log_error_not_lifted_witness :
  let this := constructor dev_env (named "App") in
  let context : JsObj := {[ "error" := JString "timeout"; "retries" := JNumber 3 ]} in
  exists entry tail,
    warn dev_env noon this "retrying" [JPlain context]
    = (EvBackend (ConsoleBackend "App") Warn entry [] :: tail, Normal)
    /\ entry !! "error" = Some (JString "timeout")
    /\ entry !! "err" = None.
Proof.
  intros this context.
  destruct (log_error_not_lifted dev_env Warn noon this "retrying"
              (JPlain context) [])
    as (entry & tail & Hrun & _ & Herror & Herr).
  - reflexivity.
  - reflexivity.
  - intros a n m st. vm_compute. discriminate.
  - reflexivity.
  - exists entry, tail. split; [exact Hrun|]. split.
    + rewrite Herror. reflexivity.
    + rewrite Herr. reflexivity.
Defined.

Lemma build_entry_msg message c rest v :
  isPlainObject c = true ->
  error_deletable (c :: rest) = true ->
  enumerable_values (own_properties c) !! "msg" = Some v ->
  build_entry message (c :: rest) !! "msg" = Some v.
Proof.
  intros Hc Hdel Hmsg. unfold build_entry.
  unfold error_deletable in Hdel.
  rewrite take_context_plain in * by done. simpl in *.
  unfold lift_error.
  destruct (own_properties c !! "error") as [[a e]|] eqn:Herr.
  - destruct e; simpl;
      try (apply lookup_union_Some_l; by rewrite lookup_delete_ne).
    rewrite Hdel. simpl. rewrite lookup_insert_ne by done.
    apply lookup_union_Some_l.
    rewrite lookup_delete_ne, enumerable_values_delete by done.
    by rewrite lookup_delete_ne.
  - simpl. apply lookup_union_Some_l. by rewrite lookup_delete_ne.
Qed.

(** X7. An enumerable property of the context named [msg] replaces the
    message in the entry that the backend and the transports get, while
    the console line still shows the message argument. *)
Theorem log_context_msg_wins (E : Env) (level : LogLevel) (now : Instant)
  (this : LoggerObj) (message : string) (c : JsValue)
  (rest : list JsValue) (v : JsValue) :
  gated E this level = false ->
  isPlainObject c = true ->
  context_ok (c :: rest) = true ->
  enumerable_values (own_properties c) !! "msg" = Some v ->
  exists entry tevs,
    log E level now this message (c :: rest)
    = (EvBackend (backend this) level entry rest
       :: tevs
       ++ (if negb (LogLevel_eqb level Debug) && negb (disableConsole this)
           then [EvConsole (level_name level)
                   (formatConsoleMessage now (namespace this) message)]
           else []),
       Normal)
    /\ entry !! "msg" = Some v
    /\ Forall (fun ev => is_transport_stage ev = true) tevs.
Proof.
  intros Hg Hc Hok%context_ok_deletable Hmsg.
  rewrite log_is_emit, emit_ungated by done.
  rewrite take_context_plain by done. simpl.
  eexists _, _. split; [|split; [by apply build_entry_msg|]].
  - by destruct (negb (LogLevel_eqb level Debug)).
  - apply transport_stage_events.
Qed.

Lemma log_context_msg_wins_witness :
  let this := constructor dev_env (named "App") in
  let context : JsObj := {[ "msg" := JString "shadow" ]} in
  exists entry tevs,
    info dev_env noon this "ready" [JPlain context]
    = (EvBackend (ConsoleBackend "App") Info entry []
       :: tevs ++ [EvConsole "info" "14:23:05 [App] ready"], Normal)
    /\ entry !! "msg" = Some (JString "shadow").
Proof.
  intros this context.
  destruct (log_context_msg_wins dev_env Info noon this "ready"
              (JPlain context) [] (JString "shadow"))
    as (entry & tevs & Hrun & Hmsg & _).
  - reflexivity.
  - reflexivity.
  - reflexivity.
  - reflexivity.
  - exists entry, tevs. split; [exact Hrun | exact Hmsg].
Defined.

(** * Further properties of the constructor and the store *)

(** X8. With pino, a logger's backend is the pino child bound to
    [ns = namespace] and to the caller's bindings, and a binding named [ns]
    given by the caller replaces the namespace; without pino the bindings
    are dropped and the backend is the console stub in development and the
    no-op backend in production. *)
Theorem constructor_backend (E : Env) (options : LoggerOptions) :
  let ns := namespace (constructor E options) in
  let given := default ∅ (opt_bindings options) in
  (pinoAvailable E && basePino E = true ->
   exists b,
     backend (constructor E options) = PinoChild b
     /\ b !! "ns" = Some (default (JString ns) (given !! "ns"))
     /\ forall k, k <> "ns" -> b !! k = given !! k)
  /\ (pinoAvailable E && basePino E = false ->
      backend (constructor E options)
      = if isProd E then NoopBackend else ConsoleBackend ns).
Proof.
  intros ns given. unfold constructor, buildBackend; simpl. split; intros ->.
  - eexists. split; [done|]. unfold object_spread. split.
    + rewrite lookup_union, lookup_singleton_eq.
      fold given. by destruct (given !! "ns").
    + intros k Hk. rewrite lookup_union, lookup_singleton_ne by done.
      fold given. by destruct (given !! k).
  - by destruct (isProd E).
Qed.

Lemma constructor_backend_witness :
  let options :=
    {| opt_namespace := Some "App"; opt_enabled := None; opt_level := None;
       opt_bindings := Some {[ "ns" := JString "custom"; "pid" := JNumber 7 ]};
       opt_logDir := None; opt_logFileName := None;
       opt_disableConsole := None; opt_maxSize := None; opt_maxFiles := None;
       opt_frequency := None; opt_transports := None |} in
  (exists b, backend (constructor pino_env options) = PinoChild b
             /\ b !! "ns" = Some (JString "custom")
             /\ b !! "pid" = Some (JNumber 7))
  /\ backend (constructor prod_env options) = NoopBackend.
Proof.
  intros options.
  destruct (constructor_backend pino_env options) as [Hpino _].
  destruct (constructor_backend prod_env options) as [_ Hnone].
  split.
  - destruct Hpino as (b & Hb & Hns & Hrest); [reflexivity|].
    exists b. split; [exact Hb|]. split; [exact Hns|].
    rewrite Hrest by discriminate. reflexivity.
  - apply Hnone. reflexivity.
Defined.

(** X9. A child that is not cached yet is allocated at the next free
    reference with the parent's transport list, minimum level,
    [disableConsole] and rotation settings and no children; its [enabled]
    is the constructor's verdict on the parent's flag and transports; the
    parent's children map gains that one entry and no other logger
    changes. *)
Theorem child_fresh_inherits (E : Env) (h : Heap) (this : ref)
  (o : LoggerObj) (s : string) (b : option JsObj) :
  h !! this = Some o -> assoc_get s (children o) = None ->
  exists h' oc,
    child E this s b h = Some (length h, h')
    /\ h' !! length h = Some oc
    /\ h' !! this = Some (with_children o (children o ++ [(s, length h)]))
    /\ (forall r, r <> this -> r < length h -> h' !! r = h !! r)
    /\ length h' = S (length h)
    /\ transports oc = transports o /\ minLevel oc = minLevel o
    /\ disableConsole oc = disableConsole o
    /\ maxSize oc = maxSize o /\ maxFiles oc = maxFiles o
    /\ frequency oc = frequency o /\ children oc = []
    /\ enabled oc
       = negb (stripLogs E) && enabled o
         && (negb (isProd E) || pinoAvailable E
             || bool_decide (transports o <> [])).
Proof.
  intros Ho Hs.
  assert (this < length h) as Hlt by by eapply lookup_lt_Some.
  eexists _, _. split; [by apply child_fresh|].
  split; [rewrite list_lookup_insert_ne by lia; by apply list_lookup_middle|].
  split; [apply list_lookup_insert_eq; rewrite length_app; simpl; lia|].
  split.
  { intros r Hr Hrlt. rewrite list_lookup_insert_ne by done.
    by apply lookup_app_l. }
  split; [rewrite length_insert, length_app; simpl; lia|].
  do 7 (split; [done|]).
  unfold constructor; simpl.
  destruct (stripLogs E), (enabled o), (isProd E), (pinoAvailable E),
    (transports o); done.
Qed.

Lemma child_fresh_inherits_witness :
  let parent :=
    constructor prod_env (with_transports [healthy_sink] (named "A")) in
  exists h' oc,
    child prod_env 0 "B" None [parent] = Some (1, h')
    /\ h' !! 1 = Some oc
    /\ transports oc = [healthy_sink]
    /\ enabled oc = true.
Proof.
  intros parent.
  destruct (child_fresh_inherits prod_env [parent] 0 parent "B" None)
    as (h' & oc & Hrun & Hoc & _ & _ & _ & Hts & _ & _ & _ & _ & _ & _ & Hen);
    [reflexivity | reflexivity |].
  exists h', oc. split; [exact Hrun|]. split; [exact Hoc|].
  split; [exact Hts|]. rewrite Hen. reflexivity.
Defined.

(** X10. [setConfig({enabled: false})], with no transports or an empty list
    in the partial, silences the whole subtree: afterwards the receiver and
    every cached descendant is disabled, and a call below error level on
    any of them does nothing. *)
Theorem setConfig_disables_subtree (E : Env) (config : LoggerOptions)
  (h : Heap) (this : ref) :
  heap_wf h -> this < length h ->
  opt_enabled config = Some false ->
  default [] (opt_transports config) = [] ->
  exists h',
    setConfig E config this h = Some h'
    /\ forall d o', descendant h this d -> h' !! d = Some o' ->
         enabled o' = false
         /\ forall level now message args, level <> Error ->
              log E level now o' message args = ([], Normal).
Proof.
  intros Hwf Hthis Hen Hts.
  destruct (setConfig_spec E config h Hwf this Hthis)
    as (h' & Hrun & _ & _ & _ & Hin & _).
  exists h'. split; [exact Hrun|]. intros d o' Hd Ho'.
  rewrite Hin in Ho' by done.
  destruct (h !! d) as [o|]; [|done]. simpl in Ho'. injection Ho' as <-.
  assert (enabled (setConfig_fields E config o) = false) as Hoff.
  { unfold setConfig_fields; simpl. rewrite Hen.
    destruct (opt_transports config) as [ts|]; simpl in *; [subst ts|];
      simpl; by rewrite andb_false_r. }
  split; [exact Hoff|]. intros level now message args Hlevel.
  rewrite log_is_emit. apply emit_gated. unfold gated. rewrite Hoff.
  by destruct level.
Qed.

Lemma setConfig_disables_subtree_witness :
  exists h h' o1,
    two_children dev_env = Some h
    /\ enabled <$> h !! 1 = Some true
    /\ setConfig dev_env (with_enabled false no_options) 0 h = Some h'
    /\ h' !! 1 = Some o1
    /\ enabled o1 = false
    /\ info dev_env noon o1 "x" [] = ([], Normal).
Proof.
  destruct (two_children dev_env) as [h|] eqn:Hh;
    [|vm_compute in Hh; discriminate].
  destruct (two_children_wf dev_env h Hh) as [Hwf Hlen].
  destruct (setConfig_disables_subtree dev_env (with_enabled false no_options)
              h 0 Hwf Hlen) as (h' & Hrun & Hsub); [reflexivity..|].
  vm_compute in Hh. injection Hh as <-.
  destruct (h' !! 1) as [o1|] eqn:Ho1.
  - destruct (Hsub 1 o1) as [Hoff Hquiet]; [|exact Ho1|].
    { apply rtc_once. eexists _, "B". split; [reflexivity|].
      apply list_elem_of_In. left. reflexivity. }
    eexists _, h', o1. split; [reflexivity|]. split; [reflexivity|].
    split; [exact Hrun|]. split; [exact Ho1|]. split; [exact Hoff|].
    apply (Hquiet Info). discriminate.
  - exfalso. vm_compute in Hrun. injection Hrun as <-. discriminate Ho1.
Defined.

(** ** What every logger of the process satisfies *)

(** A property of loggers that the constructor establishes and that the
    two field updates of the class preserve holds of every logger, for
    the life of the process. *)
Section EveryLogger.
Variable E : Env.
Variable P : LoggerObj -> Prop.
Hypothesis P_new : forall options, P (constructor E options).
Hypothesis P_children : forall o cs, P o -> P (with_children o cs).
Hypothesis P_config : forall config o, P o -> P (setConfig_fields E config o).

Lemma child_every this s b h c h' :
  Forall P h -> child E this s b h = Some (c, h') -> Forall P h'.
Proof.
  intros Hall Hrun. unfold child in Hrun.
  destruct (h !! this) as [o|] eqn:Ho; [|done]. simpl in Hrun.
  destruct (assoc_get s (children o)); simpl in Hrun; simplify_eq; [done|].
  apply Forall_insert.
  - apply Forall_app. split; [done|]. by repeat constructor.
  - apply P_children. by eapply Forall_lookup_1.
Qed.

Lemma setConfig_rec_every config fuel :
  forall this h h',
    Forall P h -> setConfig_rec E fuel config this h = Some h' -> Forall P h'.
Proof.
  induction fuel as [|fuel IH]; intros this h h' Hall Hrun; [done|].
  simpl in Hrun. destruct (h !! this) as [o|] eqn:Ho; [|done]. simpl in Hrun.
  assert (Forall P (<[this := setConfig_fields E config o]> h)) as Hall1.
  { apply Forall_insert; [done|]. apply P_config. by eapply Forall_lookup_1. }
  revert Hall1 Hrun. generalize (<[this := setConfig_fields E config o]> h).
  induction (children o) as [|kc cs IHcs]; intros g Hg Hrun; simpl in Hrun.
  - by simplify_eq.
  - destruct (setConfig_rec E fuel config kc.2 g) as [g1|] eqn:Hg1; [|done].
    simpl in Hrun. eapply IHcs; [|exact Hrun]. by eapply IH.
Qed.

Lemma walk_every parts :
  forall cur path st r st',
    Forall P (heap st) -> walk E parts cur path st = Some (r, st') ->
    Forall P (heap st').
Proof.
  induction parts as [|x parts IH]; intros cur path st r st' Hall Hrun;
    simpl in Hrun; [by simplify_eq|].
  destruct (loggerRegistry st !! (path +:+ "." +:+ x)) as [r1|] eqn:Hreg.
  - simpl in Hrun. rewrite Hreg in Hrun. simpl in Hrun. by eapply IH.
  - destruct (child E cur x None (heap st)) as [[c h1]|] eqn:Hchild; [|done].
    simpl in Hrun. rewrite lookup_insert_eq in Hrun. simpl in Hrun.
    eapply IH; [|exact Hrun]. simpl. by eapply child_every.
Qed.

Lemma api_step_every st st' :
  Forall P (heap st) -> api_step E st st' -> Forall P (heap st').
Proof.
  intros Hall Hstep. destruct Hstep as
    [path st r st' Hrun | this s b st c h' Hrun | config this st h' Hrun
    | this bindings st w h' Hrun | options st]; simpl.
  - unfold getLogger in Hrun.
    destruct (loggerRegistry st !! path); [by simplify_eq|].
    destruct (loggerRegistry st !! hd "" (split_dot path)) as [r0|] eqn:Hroot.
    + rewrite Hroot in Hrun. simpl in Hrun. by eapply walk_every.
    + unfold alloc in Hrun. simpl in Hrun.
      rewrite lookup_insert_eq in Hrun. simpl in Hrun.
      eapply walk_every; [|exact Hrun]. simpl.
      apply Forall_app. split; [done|]. by repeat constructor.
  - by eapply child_every.
  - by eapply setConfig_rec_every.
  - unfold with_ in Hrun. destruct (heap st !! this); [|done].
    unfold alloc in Hrun. simpl in Hrun. simplify_eq.
    apply Forall_app. split; [done|]. by repeat constructor.
  - apply Forall_app. split; [done|]. by repeat constructor.
Qed.

Lemma later_every st st' :
  Forall P (heap st) -> later E st st' -> Forall P (heap st').
Proof.
  intros Hall Hlater. induction Hlater as [st|st st1 st2 Hstep _ IH]; [done|].
  apply IH. by eapply api_step_every.
Qed.

End EveryLogger.

(** X11. With the strip flag set, every logger the process ever holds is
    disabled, whatever [setConfig] is asked to do, so no call below error
    level ever does anything. *)
Theorem strip_silences_process (E : Env) (st : State) (r : ref)
  (o : LoggerObj) :
  stripLogs E = true -> later E empty_state st -> heap st !! r = Some o ->
  enabled o = false
  /\ forall level now message args, level <> Error ->
       log E level now o message args = ([], Normal).
Proof.
  intros Hstrip Hlater Ho.
  assert (Forall (fun x => enabled x = false) (heap st)) as Hall.
  { apply (later_every E (fun x => enabled x = false)) with (st := empty_state);
      [| | |constructor|done].
    - intros options. unfold constructor; simpl. by rewrite Hstrip.
    - done.
    - intros config x Hx. unfold setConfig_fields; simpl. rewrite Hstrip, Hx.
      destruct (opt_enabled config), (opt_transports config); simpl;
        by rewrite ?andb_false_r. }
  pose proof (Forall_lookup_1 _ _ _ _ Hall Ho) as Hoff. simpl in Hoff.
  split; [done|]. intros level now message args Hlevel.
  rewrite log_is_emit. apply emit_gated. unfold gated. rewrite Hoff.
  by destruct level.
Qed.

Lemma strip_silences_process_witness :
  exists r st o,
    getLogger strip_env "A" empty_state = Some (r, st)
    /\ heap st !! r = Some o
    /\ enabled o = false
    /\ warn strip_env noon o "x" [] = ([], Normal).
Proof.
  destruct (getLogger strip_env "A" empty_state) as [[r st]|] eqn:Hrun;
    [|vm_compute in Hrun; discriminate].
  destruct (heap st !! r) as [o|] eqn:Ho.
  - destruct (strip_silences_process strip_env st r o) as [Hoff Hquiet].
    + reflexivity.
    + apply rtc_once. by eapply step_getLogger.
    + exact Ho.
    + exists r, st, o. split; [reflexivity|]. split; [exact Ho|].
      split; [exact Hoff|]. apply (Hquiet Warn). discriminate.
  - exfalso. vm_compute in Hrun. injection Hrun as <- <-. discriminate Ho.
Defined.

(** ** Registered loggers are named after their path *)

Lemma canon_root root :
  dotfree root = true -> canon root = str_or (Some root) "Anonymous".
Proof. intros Hroot. unfold canon. by rewrite split_dot_of_dotfree. Qed.

Lemma canon_snoc p x :
  dotfree x = true -> canon (p +:+ "." +:+ x) = canon p +:+ "." +:+ x.
Proof.
  intros Hx. unfold canon.
  rewrite split_dot_app, (split_dot_of_dotfree x) by done.
  pose proof (split_dot_nonempty p) as Hne.
  destruct (split_dot p) as [|root rest]; [done|]. simpl.
  unfold join_from. by rewrite fold_left_app.
Qed.

Lemma canon_id path : hd "" (split_dot path) <> "" -> canon path = path.
Proof.
  intros Hroot. unfold canon.
  pose proof (join_from_split path) as Hjoin.
  destruct (split_dot path) as [|root rest]; [done|]. simpl in *.
  apply String.eqb_neq in Hroot. by rewrite Hroot.
Qed.

Lemma ns_ext_refl (h : Heap) : ns_ext h h.
Proof. intros r o Ho. by exists o. Qed.

Lemma ns_ext_trans (h1 h2 h3 : Heap) : ns_ext h1 h2 -> ns_ext h2 h3 -> ns_ext h1 h3.
Proof.
  intros H12 H23 r o Ho. destruct (H12 r o Ho) as (o2 & Ho2 & <-).
  by apply H23.
Qed.

Lemma ns_ext_alloc (h : Heap) o : ns_ext h (h ++ [o]).
Proof. intros r x Hx. exists x. split; [by apply alloc_lookup_old|done]. Qed.

Lemma ns_ext_skeleton (g h : Heap) :
  skeleton <$> g = skeleton <$> h -> ns_ext h g.
Proof.
  intros Hsk r o Ho.
  destruct (lookup_lt_is_Some_2 g r) as [o' Ho'].
  { rewrite (skeleton_length g h Hsk). by eapply lookup_lt_Some. }
  destruct (skeleton_lookup g h r o' Hsk Ho') as (o'' & Ho'' & Hns & _).
  exists o'. split; [done|]. by simplify_eq.
Qed.

Lemma ns_ext_child E this s b (h : Heap) c h' :
  child E this s b h = Some (c, h') -> ns_ext h h'.
Proof.
  intros Hrun. unfold child in Hrun.
  destruct (h !! this) as [o|] eqn:Ho; [|done]. simpl in Hrun.
  destruct (assoc_get s (children o)); simpl in Hrun; simplify_eq;
    [apply ns_ext_refl|].
  intros r x Hx. destruct (decide (r = this)) as [->|Hne].
  - eexists. split.
    + apply list_lookup_insert_eq. rewrite length_app.
      apply lookup_lt_Some in Ho. lia.
    + by simplify_eq.
  - exists x. rewrite list_lookup_insert_ne by done.
    split; [by apply alloc_lookup_old|done].
Qed.

(** The registry stays named when only the store changes. *)
Lemma registry_named_heap st h' :
  state_wf st -> registry_named st -> ns_ext (heap st) h' ->
  registry_named {| heap := h'; loggerRegistry := loggerRegistry st |}.
Proof.
  intros Hst Hnamed Hext p r o' Hp Ho'. simpl in *.
  destruct (lookup_lt_is_Some_2 (heap st) r) as [o Ho];
    [by eapply (st_live st Hst)|].
  destruct (Hext r o Ho) as (o'' & Ho'' & Hns).
  assert (o'' = o') as -> by congruence.
  rewrite Hns. by eapply Hnamed.
Qed.

Section RegistryNames.
Variable E : Env.

Lemma walk_named parts :
  forall cur path st r st',
    state_wf st -> registry_named st ->
    Forall (fun x => dotfree x = true) parts ->
    loggerRegistry st !! path = Some cur ->
    walk E parts cur path st = Some (r, st') ->
    registry_named st'.
Proof.
  induction parts as [|x parts IH];
    intros cur path st r st' Hst Hnamed Hparts Hcur Hrun; simpl in Hrun;
    [by simplify_eq|].
  apply Forall_cons in Hparts as [Hx Hparts].
  destruct (loggerRegistry st !! (path +:+ "." +:+ x)) as [r1|] eqn:Hreg.
  - simpl in Hrun. rewrite Hreg in Hrun. simpl in Hrun. by eapply IH.
  - destruct (child E cur x None (heap st)) as [[c h1]|] eqn:Hchild; [|done].
    simpl in Hrun. rewrite lookup_insert_eq in Hrun. simpl in Hrun.
    destruct (state_wf_register E st path x cur c h1) as [Hst1 _]; [done..|].
    eapply IH; [exact Hst1| |done| |exact Hrun];
      [|simpl; by rewrite lookup_insert_eq].
    destruct (child_spec E cur x None (heap st) c h1 (st_heap st Hst) Hchild)
      as (Hwf1 & _ & Hc & _ & o' & Ho' & Hkey).
    pose proof (ns_ext_child E cur x None (heap st) c h1 Hchild) as Hext.
    intros p r0 o0 Hp Ho0. simpl in *.
    apply lookup_insert_Some in Hp as [[<- <-]|[Hne Hp]].
    + rewrite canon_snoc by done.
      rewrite (wf_namespace h1 Hwf1 cur o' x c o0 Ho');
        [|by apply assoc_get_elem|done].
      f_equal.
      destruct (lookup_lt_is_Some_2 (heap st) cur) as [o Ho];
        [by eapply (st_live st Hst)|].
      destruct (Hext cur o Ho) as (o'' & Ho'' & Hns).
      assert (o'' = o') as -> by congruence.
      rewrite Hns. by eapply Hnamed.
    + eapply (registry_named_heap st h1 Hst Hnamed Hext); simpl; done.
Qed.

Lemma getLogger_named path st r st' :
  state_wf st -> registry_named st ->
  getLogger E path st = Some (r, st') -> registry_named st'.
Proof.
  intros Hst Hnamed Hrun. unfold getLogger in Hrun.
  destruct (loggerRegistry st !! path); [by simplify_eq|].
  pose proof (split_dot_dotfree path) as Hparts.
  pose proof (split_dot_nonempty path) as Hne.
  destruct (split_dot path) as [|rootName parts]; [done|].
  apply Forall_cons in Hparts as [Hroot Hparts]. simpl in Hrun.
  destruct (loggerRegistry st !! rootName) as [r0|] eqn:Hr0.
  - rewrite Hr0 in Hrun. simpl in Hrun. by eapply walk_named.
  - unfold alloc in Hrun. simpl in Hrun.
    rewrite lookup_insert_eq in Hrun. simpl in Hrun.
    destruct (state_wf_root E st rootName) as [Hst1 _]; [done..|].
    eapply walk_named; [exact Hst1| |done| |exact Hrun];
      [|simpl; by rewrite lookup_insert_eq].
    intros p r1 o1 Hp Ho1. simpl in *.
    apply lookup_insert_Some in Hp as [[<- <-]|[Hne' Hp]].
    + rewrite list_lookup_middle in Ho1 by done. injection Ho1 as <-.
      rewrite canon_root by done. done.
    + eapply (registry_named_heap st _ Hst Hnamed (ns_ext_alloc _ _)); simpl; done.
Qed.

Lemma api_step_named st st' :
  state_wf st -> registry_named st -> api_step E st st' -> registry_named st'.
Proof.
  intros Hst Hnamed Hstep. destruct Hstep as
    [path st r st' Hrun | this s b st c h' Hrun | config this st h' Hrun
    | this bindings st w h' Hrun | options st].
  - by eapply getLogger_named.
  - apply registry_named_heap; [done..|]. by eapply ns_ext_child.
  - pose proof (setConfig_live E config this _ _ Hrun) as Hlive.
    destruct (setConfig_spec E config (heap st) (st_heap st Hst) this Hlive)
      as (h0 & Hrun0 & _ & _ & Hsk & _).
    assert (h0 = h') as -> by congruence.
    apply registry_named_heap; [done..|]. by apply ns_ext_skeleton.
  - unfold with_ in Hrun. destruct (heap st !! this); [|done].
    unfold alloc in Hrun. simpl in Hrun. simplify_eq.
    apply registry_named_heap; [done..|]. apply ns_ext_alloc.
  - apply registry_named_heap; [done..|]. apply ns_ext_alloc.
Qed.

Lemma later_named st st' :
  state_wf st -> registry_named st -> later E st st' ->
  state_wf st' /\ registry_named st'.
Proof.
  intros Hst Hnamed Hlater.
  induction Hlater as [st|st st1 st2 Hstep _ IH]; [done|].
  destruct (api_step_wf E st st1 Hst Hstep) as [Hst1 _].
  apply IH; [done|]. exact (api_step_named st st1 Hst Hnamed Hstep).
Qed.

End RegistryNames.

(** X12. At any time in the life of the process, the logger that
    [getLogger(path)] returns has the namespace [path]; only when the
    first segment of the path is empty does the namespace start with
    [Anonymous] instead. *)
Theorem getLogger_namespace (E : Env) (st : State) (path : string)
  (r : ref) (st' : State) :
  later E empty_state st -> getLogger E path st = Some (r, st') ->
  exists o,
    heap st' !! r = Some o
    /\ namespace o = canon path
    /\ (hd "" (split_dot path) <> "" -> namespace o = path).
Proof.
  intros Hlater Hrun.
  destruct (later_named E empty_state st state_wf_empty) as [Hst Hnamed];
    [by intros p r0 o0 Hp|done|].
  destruct (getLogger_spec E path st Hst) as (r0 & st0 & Hrun0 & Hst' & _ & Hreg).
  assert (r0 = r /\ st0 = st') as [-> ->] by (split; congruence).
  pose proof (getLogger_named E path st r st' Hst Hnamed Hrun) as Hnamed'.
  destruct (lookup_lt_is_Some_2 (heap st') r) as [o Ho];
    [by eapply (st_live st' Hst')|].
  exists o. split; [done|].
  assert (namespace o = canon path) as Hns by by eapply Hnamed'.
  split; [done|]. intros Hroot. by rewrite Hns, canon_id.
Qed.

Lemma getLogger_namespace_witness :
  exists r st o,
    getLogger dev_env "QwickForge.Core" empty_state = Some (r, st)
    /\ heap st !! r = Some o
    /\ namespace o = "QwickForge.Core".
Proof.
  destruct (getLogger dev_env "QwickForge.Core" empty_state) as [[r st]|] eqn:Hrun;
    [|vm_compute in Hrun; discriminate].
  destruct (getLogger_namespace dev_env empty_state "QwickForge.Core" r st)
    as (o & Ho & _ & Hns); [apply rtc_refl | exact Hrun |].
  exists r, st, o. split; [reflexivity|]. split; [exact Ho|].
  apply Hns. vm_compute. discriminate.
Defined.

(** X13. [getLogger] materializes the ancestors: once
    [getLogger(p + "." + b)] has returned [r], the path [p] is registered
    too, [getLogger(p)] returns its logger without changing anything, and
    that logger caches [r] as its child [b]. *)
Theorem getLogger_registers_parent (E : Env) (st : State) (p b : string)
  (r : ref) (st' : State) :
  state_wf st -> dotfree b = true ->
  getLogger E (p +:+ "." +:+ b) st = Some (r, st') ->
  exists rp op,
    getLogger E p st' = Some (rp, st')
    /\ heap st' !! rp = Some op
    /\ assoc_get b (children op) = Some r
    /\ child E rp b None (heap st') = Some (r, heap st').
Proof.
  intros Hst Hb Hrun.
  destruct (getLogger_spec E (p +:+ "." +:+ b) st Hst)
    as (r0 & st0 & Hrun0 & Hst' & _ & Hreg).
  assert (r0 = r /\ st0 = st') as [-> ->] by (split; congruence).
  destruct (st_tree st' Hst' p b r Hb Hreg) as (rp & op & Hrp & Hop & Hk).
  exists rp, op. split; [unfold getLogger; by rewrite Hrp|].
  split; [done|]. split; [done|]. by eapply child_cached.
Qed.

Lemma getLogger_registers_parent_witness :
  exists r st rp,
    getLogger dev_env "A.B" empty_state = Some (r, st)
    /\ getLogger dev_env "A" st = Some (rp, st)
    /\ child dev_env rp "B" None (heap st) = Some (r, heap st).
Proof.
  destruct (getLogger dev_env "A.B" empty_state) as [[r st]|] eqn:Hrun;
    [|vm_compute in Hrun; discriminate].
  destruct (getLogger_registers_parent dev_env empty_state "A" "B" r st)
    as (rp & op & Hparent & _ & _ & Hchild);
    [apply state_wf_empty | reflexivity | exact Hrun |].
  exists r, st, rp. split; [reflexivity|]. split; [exact Hparent | exact Hchild].
Defined.

(** * Further properties of the module's start-up *)

(** X14. Whenever pino cannot be had -- there is no [require], or
    [require('pino')] throws, or it yields nothing -- and the host has a
    [window] or a [process], the module loads, reports pino as unavailable
    and has no root pino instance; production mode is read from
    [NODE_ENV] only when [process] exists. *)
Theorem module_init_without_pino (H : Host) :
  require_defined H = false
  \/ (exists exn, require_pino H = Throws exn)
  \/ require_pino H = Returns false ->
  window_defined H = true \/ process_defined H = true ->
  exists env,
    module_init H = Returns env
    /\ pinoAvailable env = false /\ basePino env = false
    /\ isProd env = process_defined H && str_is (NODE_ENV H) "production"
    /\ stripLogs env = process_defined H && str_is (STRIP_LOGS H) "true".
Proof.
  intros Hnopino Hhost. unfold module_init.
  assert (try_or (if require_defined H then require_pino H else Returns false)
            false = Returns false) as ->.
  { destruct Hnopino as [->|[[exn ->]| ->]]; [done|..];
      by destruct (require_defined H). }
  simpl. unfold process_env.
  destruct Hhost as [->| ->]; simpl.
  - eexists. by repeat split.
  - destruct (negb (window_defined H)); simpl; eexists; by repeat split.
Qed.

Lemma module_init_without_pino_witness :
  (exists env, module_init browser_host = Returns env
               /\ pinoAvailable env = false /\ isProd env = false)
  /\ (exists env, module_init no_pino_host = Returns env
                  /\ pinoAvailable env = false /\ isProd env = true).
Proof.
  split.
  - destruct (module_init_without_pino browser_host)
      as (env & Hrun & Hp & _ & Hprod & _);
      [left; reflexivity | left; reflexivity |].
    exists env. split; [exact Hrun|]. split; [exact Hp|exact Hprod].
  - destruct (module_init_without_pino no_pino_host)
      as (env & Hrun & Hp & _ & Hprod & _);
      [right; left; eexists; reflexivity | right; reflexivity |].
    exists env. split; [exact Hrun|]. split; [exact Hp|exact Hprod].
Defined.

(** X15. On a host with neither [window] nor [process] the module cannot
    be loaded at all: the unguarded [process.env] of the Logfire switch
    throws a ReferenceError, with or without pino. *)
Theorem module_init_needs_process (H : Host) :
  window_defined H = false -> process_defined H = false ->
  module_init H = Throws (ReferenceError "process is not defined").
Proof.
  intros Hw Hp. unfold module_init, process_env. rewrite Hw, Hp.
  destruct (require_defined H); simpl; [|done].
  by destruct (require_pino H) as [[]|].
Qed.

Lemma module_init_needs_process_witness :
  module_init worker_host = Throws (ReferenceError "process is not defined").
Proof. apply module_init_needs_process; reflexivity. Defined.

(** X16. When the module does load, it never reports more than it has: a
    root pino instance implies that pino is available, and pino is
    available only if [require('pino')] returned a module on a host with
    [process]. *)
Theorem module_init_sound (H : Host) (env : Env) :
  module_init H = Returns env ->
  (basePino env = true -> pinoAvailable env = true)
  /\ (pinoAvailable env = true ->
      require_defined H = true /\ require_pino H = Returns true
      /\ process_defined H = true /\ pinoModule_call H = Returns (basePino env)).
Proof.
  unfold module_init, process_env.
  destruct (require_defined H), (require_pino H) as [[]|],
    (process_defined H), (window_defined H), (truthy_str (HOSTNAME H)),
    (os_hostname H), (pinoModule_call H) as [[]|];
    simpl; intros Hrun; simplify_eq; simpl; split; intros; try done;
    by repeat split.
Qed.

Lemma module_init_sound_witness :
  exists env,
    module_init node_host = Returns env
    /\ pinoAvailable env = true
    /\ pinoModule_call node_host = Returns (basePino env).
Proof.
  destruct (module_init node_host) as [env|exn] eqn:Hrun;
    [|vm_compute in Hrun; discriminate].
  destruct (module_init_sound node_host env Hrun) as [_ Hpino].
  assert (pinoAvailable env = true) as Hav
    by (vm_compute in Hrun; injection Hrun as <-; reflexivity).
  exists env. split; [reflexivity|]. split; [exact Hav|].
  apply (Hpino Hav).
Defined.

(** * Properties of the bootstrap logger *)

Section SafeEnvFacts.
Variable toLowerCase : string -> string.

Lemma whitelisted_iff (config : StartupConfig) key :
  negb (Nat.eqb (length (envWhitelist config)) 0)
  && negb (existsb (String.eqb key) (envWhitelist config)) = false
  <-> envWhitelist config = [] \/ key ∈ envWhitelist config.
Proof.
  destruct (envWhitelist config) as [|w ws]; [split; [by left|done]|].
  change (negb (Nat.eqb (length (w :: ws)) 0)) with true.
  rewrite andb_true_l, negb_false_iff. split.
  - intros Hex. right. apply list_elem_of_In.
    apply existsb_exists in Hex as (x & Hx & Heq).
    by apply String.eqb_eq in Heq as ->.
  - intros [?|Hin]; [done|]. apply existsb_exists.
    exists key. split; [by apply list_elem_of_In|apply String.eqb_refl].
Qed.

Lemma isBlacklisted_pattern (config : StartupConfig) (key pattern : string) :
  pattern ∈ envBlacklist config ->
  includes (toLowerCase key) (toLowerCase pattern) = true ->
  isBlacklisted toLowerCase config key = true.
Proof.
  intros Hpattern Hincl. unfold isBlacklisted. apply existsb_exists.
  exists (toLowerCase pattern). split; [|done].
  apply in_map. by apply list_elem_of_In.
Qed.

(** X17. [getSafeEnv] keeps a variable exactly when its name is not
    [__proto__], its value is not empty and, if a whitelist is configured,
    its name is on it; the value kept is [[REDACTED]] when the name is
    blacklisted -- whitelisted or not -- and the variable's own value
    otherwise. *)
Theorem getSafeEnv_spec (config : StartupConfig) (env : gmap string string)
  (key v : string) :
  getSafeEnv toLowerCase config env !! key = Some v
  <-> key <> "__proto__"
      /\ exists raw,
           env !! key = Some raw /\ raw <> ""
           /\ (envWhitelist config = [] \/ key ∈ envWhitelist config)
           /\ v = if isBlacklisted toLowerCase config key then "[REDACTED]"
                  else raw.
Proof.
  unfold getSafeEnv. rewrite map_lookup_imap.
  destruct (env !! key) as [raw|]; simpl;
    [|split; [done|by intros (_ & ? & ? & _)]].
  unfold safe_entry, assigned.
  destruct (String.eqb raw "") eqn:Hraw.
  { apply String.eqb_eq in Hraw as ->. split; [done|].
    intros (_ & raw & Heq & Hne & _). by simplify_eq. }
  apply String.eqb_neq in Hraw.
  pose proof (whitelisted_iff config key) as Hwl.
  destruct (negb _ && negb _).
  { split; [done|]. intros (_ & raw' & _ & _ & Hallowed & _).
    by apply Hwl in Hallowed. }
  destruct (String.eqb_spec key "__proto__") as [Hproto|Hproto].
  { split; [|by intros [? _]].
    by destruct (isBlacklisted toLowerCase config key). }
  split.
  - intros Hv. split; [done|]. exists raw. split; [done|]. split; [done|].
    split; [by apply Hwl|].
    destruct (isBlacklisted toLowerCase config key); by simplify_eq.
  - intros (_ & raw' & Heq & _ & _ & ->). simplify_eq.
    by destruct (isBlacklisted toLowerCase config key).
Qed.

(** X18. No blacklisted variable leaks: if the lower-cased name of a
    variable contains a lower-cased pattern of the blacklist, whatever
    [getSafeEnv] records for it is [[REDACTED]]. *)
Theorem getSafeEnv_redacts (config : StartupConfig)
  (env : gmap string string) (key v pattern : string) :
  pattern ∈ envBlacklist config ->
  includes (toLowerCase key) (toLowerCase pattern) = true ->
  getSafeEnv toLowerCase config env !! key = Some v ->
  v = "[REDACTED]".
Proof.
  intros Hpattern Hincl Hv.
  unfold getSafeEnv in Hv. rewrite map_lookup_imap in Hv.
  destruct (env !! key) as [raw|]; [simpl in Hv|done].
  unfold safe_entry, assigned in Hv.
  rewrite (isBlacklisted_pattern config key pattern) in Hv by done.
  destruct (String.eqb raw ""); [done|].
  destruct (negb _ && negb _); [done|].
  destruct (String.eqb key "__proto__"); by simplify_eq.
Qed.

End SafeEnvFacts.

Lemma getSafeEnv_spec_witness :
  getSafeEnv string_lower DEFAULT_CONFIG sample_process_env !! "PORT"
  = Some "3000"
  /\ getSafeEnv string_lower DEFAULT_CONFIG sample_process_env !! "EMPTY" = None.
Proof.
  split.
  - apply (getSafeEnv_spec string_lower DEFAULT_CONFIG sample_process_env).
    split; [discriminate|].
    exists "3000". split; [reflexivity|]. split; [discriminate|].
    split; [left; reflexivity | reflexivity].
  - destruct (getSafeEnv string_lower DEFAULT_CONFIG sample_process_env !! "EMPTY")
      as [v|] eqn:Hv; [|reflexivity].
    apply (getSafeEnv_spec string_lower) in Hv as (_ & raw & Hraw & Hne & _).
    vm_compute in Hraw. injection Hraw as <-. by destruct Hne.
Defined.

Lemma getSafeEnv_redacts_witness :
  getSafeEnv string_lower DEFAULT_CONFIG sample_process_env !! "LOGFIRE_TOKEN"
  = Some "[REDACTED]".
Proof.
  destruct (getSafeEnv string_lower DEFAULT_CONFIG sample_process_env
              !! "LOGFIRE_TOKEN") as [v|] eqn:Hv;
    [|vm_compute in Hv; discriminate].
  f_equal.
  apply (getSafeEnv_redacts string_lower DEFAULT_CONFIG sample_process_env
           "LOGFIRE_TOKEN" v "TOKEN").
  - apply list_elem_of_In. vm_compute. tauto.
  - reflexivity.
  - exact Hv.
Defined.

(** ** Rotation *)

Lemma append_inj_l (a b c : string) : a +:+ b = a +:+ c -> b = c.
Proof.
  induction a as [|x a IH]; [done|]. rewrite !append_cons.
  intros Heq. injection Heq as Heq. by apply IH.
Qed.

Lemma append_nil_r (a : string) : a +:+ "" = a.
Proof. induction a as [|x a IH]; [done|]. by rewrite append_cons, IH. Qed.

Lemma rotation_slot_inj logPath i j :
  rotation_slot logPath i = rotation_slot logPath j -> i = j.
Proof.
  unfold rotation_slot, backup_path.
  destruct i as [|i], j as [|j]; simpl; intros Heq; [done|..].
  - rewrite <- (append_nil_r logPath) in Heq at 1.
    by apply append_inj_l in Heq.
  - rewrite <- (append_nil_r logPath) in Heq at 2.
    by apply append_inj_l in Heq.
  - do 2 apply append_inj_l in Heq. by apply pretty_nat_inj in Heq.
Qed.

Lemma backup_path_slot logPath i :
  backup_path logPath (i + 1) = rotation_slot logPath (S i).
Proof. by rewrite Nat.add_1_r. Qed.

Section Rotation.
Variable config : StartupConfig.
Variable logPath : string.
Variable fs : FileSystem.

(** The file system after the rounds [maxBackups - 1] down to
    [maxBackups - m] of the loop. *)
Lemma rotate_rounds m :
  m <= maxBackups config ->
  (forall k,
     fold_left (rotate_step config logPath)
       (rev (seq (maxBackups config - m) m)) fs !! rotation_slot logPath k
     = if decide (k < maxBackups config - m \/ maxBackups config <= k)
       then fs !! rotation_slot logPath k
       else if decide (k = maxBackups config - m) then None
       else fs !! rotation_slot logPath (k - 1))
  /\ (forall path, (forall k, path <> rotation_slot logPath k) ->
        fold_left (rotate_step config logPath)
          (rev (seq (maxBackups config - m) m)) fs !! path = fs !! path).
Proof.
  intros Hm. set (n := maxBackups config) in *.
  induction m as [|m IH].
  { split; [|done]. intros k. simpl. case_decide; [done|lia]. }
  destruct IH as [IHslot IHother]; [lia|].
  assert (rev (seq (n - S m) (S m)) = rev (seq (n - m) m) ++ [n - S m]) as ->.
  { replace (n - m) with (S (n - S m)) by lia. done. }
  rewrite fold_left_app. cbn [fold_left].
  set (fsm := fold_left (rotate_step config logPath) (rev (seq (n - m) m)) fs)
    in *.
  remember (n - S m) as j eqn:Hjdef.
  assert (fsm !! rotation_slot logPath j = fs !! rotation_slot logPath j) as Hj.
  { rewrite IHslot. case_decide; [done|lia]. }
  unfold rotate_step. rewrite Hj.
  destruct (fs !! rotation_slot logPath j) as [content|] eqn:Hcur.
  - destruct (Nat.eqb_spec j (maxBackups config - 1)) as [Hlast|Hnotlast].
    + split.
      * intros k. destruct (decide (k = j)) as [->|Hkj].
        { rewrite lookup_delete_eq.
          repeat case_decide; try done; exfalso; lia. }
        rewrite lookup_delete_ne
          by (intros Heq; by apply rotation_slot_inj in Heq).
        rewrite IHslot. fold n in Hlast.
        repeat case_decide; try done; exfalso; lia.
      * intros path Hpath. rewrite lookup_delete_ne by done. by apply IHother.
    + rewrite backup_path_slot. fold n in Hnotlast. split.
      * intros k. destruct (decide (k = S j)) as [->|HkSj].
        { rewrite lookup_insert_eq. replace (S j - 1) with j by lia.
          repeat case_decide; try done; exfalso; lia. }
        rewrite lookup_insert_ne
          by (intros Heq; by apply rotation_slot_inj in Heq).
        destruct (decide (k = j)) as [->|Hkj].
        { rewrite lookup_delete_eq.
          repeat case_decide; try done; exfalso; lia. }
        rewrite lookup_delete_ne
          by (intros Heq; by apply rotation_slot_inj in Heq).
        rewrite IHslot. repeat case_decide; try done; exfalso; lia.
      * intros path Hpath.
        rewrite lookup_insert_ne, lookup_delete_ne by done. by apply IHother.
  - split; [|done]. intros k. rewrite IHslot.
    repeat case_decide; try done; try (exfalso; lia).
    + assert (k = j) as -> by lia. done.
    + assert (k - 1 = j) as -> by lia. done.
Qed.

End Rotation.

(** X19. When the log has reached [maxFileSize] and [maxBackups] is at
    least one, rotation leaves no log, moves the log to [.1] and every
    backup [.k] to [.(k+1)] up to [.(maxBackups - 1)] -- so the oldest of
    them is dropped and [maxBackups - 1] copies are kept -- and touches no
    other file, not even [.maxBackups]. *)
Theorem rotateIfNeeded_shifts (config : StartupConfig) (logPath : string)
  (fs : FileSystem) (content : string) :
  fs !! logPath = Some content ->
  (maxFileSize config <= N.of_nat (String.length content))%N ->
  1 <= maxBackups config ->
  let fs' := rotateIfNeeded config logPath fs in
  fs' !! logPath = None
  /\ (forall k, 1 <= k < maxBackups config ->
        fs' !! backup_path logPath k = fs !! rotation_slot logPath (k - 1))
  /\ (forall k, maxBackups config <= k ->
        fs' !! backup_path logPath k = fs !! backup_path logPath k)
  /\ (forall path, path <> logPath ->
        (forall k, path <> backup_path logPath k) -> fs' !! path = fs !! path).
Proof.
  intros Hlog Hsize Hn fs'. unfold fs', rotateIfNeeded. rewrite Hlog.
  apply N.ltb_ge in Hsize. rewrite Hsize.
  destruct (rotate_rounds config logPath fs (maxBackups config))
    as [Hslot Hother]; [done|].
  rewrite Nat.sub_diag in Hslot, Hother. simpl seq in Hslot, Hother.
  assert (forall k, 1 <= k ->
            backup_path logPath k = rotation_slot logPath k) as Hbk.
  { intros k Hk. unfold rotation_slot. by destruct k; [lia|]. }
  split; [|split; [|split]].
  - pose proof (Hslot 0) as H0.
    change (rotation_slot logPath 0) with logPath in H0. rewrite H0.
    repeat case_decide; try done; exfalso; lia.
  - intros k Hk. rewrite Hbk, Hslot by lia.
    repeat case_decide; try done; exfalso; lia.
  - intros k Hk. rewrite !Hbk, Hslot by lia.
    repeat case_decide; try done; exfalso; lia.
  - intros path Hlogne Hbackup. apply Hother.
    intros k. destruct k; [done|]. rewrite <- Hbk by lia. apply Hbackup.
Qed.

Lemma rotateIfNeeded_shifts_witness :
  let fs' := rotateIfNeeded small_limit "startup.log" full_log_dir in
  fs' !! "startup.log" = None
  /\ fs' !! "startup.log.1" = Some "0123456789"
  /\ fs' !! "startup.log.2" = Some "older"
  /\ fs' !! "startup.log.3" = None
  /\ fs' !! "other.txt" = Some "kept".
Proof.
  intros fs'.
  destruct (rotateIfNeeded_shifts small_limit "startup.log" full_log_dir
              "0123456789") as (Hlog & Hshift & Hkeep & Hother).
  - reflexivity.
  - vm_compute. discriminate.
  - simpl. lia.
  - split; [exact Hlog|].
    split; [apply (Hshift 1); simpl; lia|].
    split; [apply (Hshift 2); simpl; lia|].
    split; [apply (Hkeep 3); simpl; lia|].
    vm_compute. reflexivity.
Defined.

(** X20. Rotation does nothing when there is no log, when the log is
    below [maxFileSize], or when [maxBackups] is zero (the log then grows
    without bound); with [maxBackups = 1] a full log is deleted and no
    copy of it is kept. *)
Theorem rotateIfNeeded_edges (config : StartupConfig) (logPath : string)
  (fs : FileSystem) :
  (fs !! logPath = None -> rotateIfNeeded config logPath fs = fs)
  /\ (forall content, fs !! logPath = Some content ->
        (N.of_nat (String.length content) < maxFileSize config)%N ->
        rotateIfNeeded config logPath fs = fs)
  /\ (maxBackups config = 0 -> rotateIfNeeded config logPath fs = fs)
  /\ (forall content, maxBackups config = 1 ->
        fs !! logPath = Some content ->
        (maxFileSize config <= N.of_nat (String.length content))%N ->
        rotateIfNeeded config logPath fs = delete logPath fs).
Proof.
  unfold rotateIfNeeded. split; [|split; [|split]].
  - by intros ->.
  - intros content -> Hsize. apply N.ltb_lt in Hsize. by rewrite Hsize.
  - intros ->. destruct (fs !! logPath); [|done]. by destruct (_ <? _)%N.
  - intros content Hn Hlog Hsize. rewrite Hlog, Hn.
    apply N.ltb_ge in Hsize. rewrite Hsize. simpl.
    unfold rotate_step, rotation_slot. simpl. by rewrite Hlog, Hn.
Qed.

Lemma rotateIfNeeded_edges_witness :
  rotateIfNeeded small_limit "missing.log" full_log_dir = full_log_dir
  /\ rotateIfNeeded DEFAULT_CONFIG "startup.log" full_log_dir = full_log_dir.
Proof.
  destruct (rotateIfNeeded_edges small_limit "missing.log" full_log_dir)
    as (Hmissing & _).
  destruct (rotateIfNeeded_edges DEFAULT_CONFIG "startup.log" full_log_dir)
    as (_ & Hsmall & _).
  split.
  - apply Hmissing. reflexivity.
  - apply (Hsmall "0123456789"); [reflexivity | vm_compute; reflexivity].
Defined.

(** ** Diagnostics *)

Lemma has_phase_iff (entries : list StartupLogEntry) (phase : string) :
  existsb (fun e => String.eqb (se_phase e) phase) entries = true
  <-> exists e, e ∈ entries /\ se_phase e = phase.
Proof.
  rewrite existsb_exists. split; intros (e & He & Hp); exists e.
  - split; [by apply list_elem_of_In|]. by apply String.eqb_eq.
  - split; [by apply list_elem_of_In|]. by apply String.eqb_eq.
Qed.

(** X21. [getDiagnostics] reports [failed] as soon as any parsed entry is
    in the ERROR phase, even when READY entries are present, [success]
    when there is a READY entry and no ERROR entry; it returns the last
    hundred entries at most, but every error-level entry of the log. *)
Theorem getDiagnostics_report (entries : list StartupLogEntry)
  (phases : list (StartupPhase * (Z * option Z))) :
  let d := getDiagnostics entries phases in
  (diag_status d = failed <-> exists e, e ∈ entries /\ se_phase e = "ERROR")
  /\ (diag_status d = success
      <-> (exists e, e ∈ entries /\ se_phase e = "READY")
          /\ ~ exists e, e ∈ entries /\ se_phase e = "ERROR")
  /\ length (diag_entries d) = Nat.min (length entries) 100
  /\ diag_entries d `suffix_of` entries
  /\ (forall e, e ∈ diag_errors d <-> e ∈ entries /\ se_level e = "error").
Proof.
  intros d. unfold d, getDiagnostics; simpl.
  rewrite <- !has_phase_iff.
  destruct (existsb _ entries) eqn:Hfailed;
    destruct (existsb (fun e => String.eqb (se_phase e) "READY") entries)
      eqn:Hready.
  all: split; [split; (done || by intros)|].
  all: split; [split; [done || by intros | by intros [? ?]]|].
  all: split; [rewrite length_drop; lia|].
  all: split; [apply suffix_drop|].
  all: intros e; rewrite list_elem_of_filter; split; intros [H1 H2];
    split; try done; by apply String.eqb_eq.
Qed.

(** ** Phases *)

Lemma StartupPhase_eqb_eq (a b : StartupPhase) :
  StartupPhase_eqb a b = true <-> a = b.
Proof. by destruct a, b. Qed.

Lemma StartupPhase_eqb_neq (a b : StartupPhase) :
  StartupPhase_eqb a b = false <-> a <> b.
Proof. by destruct a, b. Qed.

Lemma phase_name_inj (a b : StartupPhase) :
  phase_name a = phase_name b -> a = b.
Proof. by destruct a, b. Qed.

Lemma phases_get_set (p q : StartupPhase) t (m : Startup.PhaseMap) :
  Startup.phases_get p (Startup.phases_set q t m)
  = if StartupPhase_eqb q p then Some t else Startup.phases_get p m.
Proof.
  induction m as [|[p' t'] m IH]; simpl; [done|].
  destruct (StartupPhase_eqb p' q) eqn:Hpq; simpl.
  - apply StartupPhase_eqb_eq in Hpq as ->.
    by destruct (StartupPhase_eqb q p).
  - rewrite IH. destruct (StartupPhase_eqb p' p) eqn:Hpp; [|done].
    apply StartupPhase_eqb_eq in Hpp as ->.
    apply StartupPhase_eqb_neq in Hpq.
    destruct (StartupPhase_eqb q p) eqn:Hqp; [|done].
    apply StartupPhase_eqb_eq in Hqp. by subst.
Qed.

Lemma phases_get_keys (p : StartupPhase) (m : Startup.PhaseMap) :
  is_Some (Startup.phases_get p m) <-> p ∈ map fst m.
Proof.
  induction m as [|[p' t'] m IH]; simpl.
  - split; [by intros [? ?]|by intros ?%elem_of_nil].
  - rewrite elem_of_cons. destruct (StartupPhase_eqb p' p) eqn:Hpp.
    + apply StartupPhase_eqb_eq in Hpp as ->. split; [by left|by eexists].
    + apply StartupPhase_eqb_neq in Hpp. rewrite IH.
      split; [by right|]. by intros [->|?].
Qed.

Lemma phases_set_keys (p q : StartupPhase) t (m : Startup.PhaseMap) :
  p ∈ map fst (Startup.phases_set q t m) <-> p = q \/ p ∈ map fst m.
Proof.
  rewrite <- !phases_get_keys, phases_get_set.
  destruct (StartupPhase_eqb q p) eqn:Hqp.
  - apply StartupPhase_eqb_eq in Hqp as ->. split; [by left|by eexists].
  - apply StartupPhase_eqb_neq in Hqp. split; [by right|].
    by intros [->|?].
Qed.

Lemma phases_set_NoDup (q : StartupPhase) t (m : Startup.PhaseMap) :
  NoDup (map fst m) -> NoDup (map fst (Startup.phases_set q t m)).
Proof.
  induction m as [|[p' t'] m IH]; simpl.
  - intros _. apply NoDup_singleton.
  - rewrite NoDup_cons. intros [Hfresh Hm].
    destruct (StartupPhase_eqb p' q) eqn:Hpq; simpl.
    + apply StartupPhase_eqb_eq in Hpq as ->. by apply NoDup_cons.
    + apply StartupPhase_eqb_neq in Hpq. apply NoDup_cons.
      split; [|by apply IH].
      rewrite phases_set_keys. by intros [?|?].
Qed.

Lemma phases_elem_get (p : StartupPhase) t (m : Startup.PhaseMap) :
  NoDup (map fst m) -> (p, t) ∈ m -> Startup.phases_get p m = Some t.
Proof.
  induction m as [|[p' t'] m IH]; simpl; [by intros _ ?%elem_of_nil|].
  rewrite NoDup_cons, elem_of_cons. intros [Hfresh Hm] [Heq|Hin].
  - simplify_eq. by rewrite (proj2 (StartupPhase_eqb_eq p' p')).
  - destruct (StartupPhase_eqb p' p) eqn:Hpp; [|by apply IH].
    apply StartupPhase_eqb_eq in Hpp as ->. destruct Hfresh.
    apply list_elem_of_fmap. by exists (p, t).
Qed.

(** What a phase is reported as in a summary. *)
Lemma phase_summary_fold (p : StartupPhase) (m : Startup.PhaseMap)
  (acc : JsObj) :
  NoDup (map fst m) ->
  fold_left
    (fun acc pt =>
       <[phase_name (fst pt) := report_value (phase_report (snd pt))]> acc)
    m acc !! phase_name p
  = match Startup.phases_get p m with
    | Some t => Some (report_value (phase_report t))
    | None => acc !! phase_name p
    end.
Proof.
  revert acc. induction m as [|[p' t'] m IH]; intros acc; simpl; [done|].
  rewrite NoDup_cons. intros [Hfresh Hm]. rewrite IH by done.
  destruct (StartupPhase_eqb p' p) eqn:Hpp.
  - apply StartupPhase_eqb_eq in Hpp as ->.
    destruct (Startup.phases_get p m) eqn:Hget.
    + destruct Hfresh. apply phases_get_keys. by eexists.
    + by rewrite lookup_insert_eq.
  - apply StartupPhase_eqb_neq in Hpp.
    destruct (Startup.phases_get p m); [done|].
    rewrite lookup_insert_ne; [done|]. by intros ?%phase_name_inj.
Qed.

Section StartupFacts.
Variable Date_now : nat -> Z.
Variable Date_of : Z -> Instant.
Variable toLowerCase : string -> string.
Variable toUpperCase : string -> string.

Lemma log_world (level : LogLevel) (message : string)
  (metadata : option JsObj) (this : Startup.StartupLogger)
  (w : Startup.World) :
  exists e line,
    Startup.log Date_now Date_of toUpperCase level message metadata this w
    = {| Startup.reads := S (S (Startup.reads w));
         Startup.outputs :=
           Startup.outputs w ++ [Startup.AppendEntry e; Startup.ConsoleLog line] |}
    /\ se_level e = level_name level
    /\ se_phase e = phase_name (Startup.currentPhase this)
    /\ se_message e = message
    /\ se_metadata e = metadata
    /\ se_error e = None
    /\ se_duration e
       = Some (Date_now (S (Startup.reads w)) - Startup.startTime this)%Z.
Proof. unfold Startup.log. simpl. by eexists _, _. Qed.

Lemma logError_world (message : string) (n m st : JsValue)
  (metadata : option JsObj) (this : Startup.StartupLogger)
  (w : Startup.World) :
  exists e line,
    Startup.logError Date_now Date_of toUpperCase message n m st metadata
      this w
    = {| Startup.reads := S (S (Startup.reads w));
         Startup.outputs :=
           Startup.outputs w
           ++ [Startup.AppendEntry e; Startup.ConsoleLog line;
               Startup.ConsoleError (if js_truthy st then st else m)] |}
    /\ se_level e = "error"
    /\ se_phase e = phase_name (Startup.currentPhase this)
    /\ se_message e = message
    /\ se_metadata e = metadata
    /\ se_error e = Some (error_fields n m st).
Proof. unfold Startup.logError. simpl. by eexists _, _. Qed.

Lemma close_current_get (this : Startup.StartupLogger) (w : Startup.World)
  (p : StartupPhase) :
  Startup.phases_get p (fst (Startup.close_current Date_now this w))
  = if StartupPhase_eqb (Startup.currentPhase this) p
    then match Startup.phases_get p (Startup.phases this) with
         | Some timing => Some (fst timing, Some (Date_now (Startup.reads w)))
         | None => None
         end
    else Startup.phases_get p (Startup.phases this).
Proof.
  unfold Startup.close_current.
  destruct (StartupPhase_eqb (Startup.currentPhase this) p) eqn:Hp.
  - apply StartupPhase_eqb_eq in Hp as <-.
    destruct (Startup.phases_get (Startup.currentPhase this)
                (Startup.phases this)) eqn:Hcur; simpl; [|done].
    rewrite phases_get_set.
    by rewrite (proj2 (StartupPhase_eqb_eq _ _) eq_refl).
  - destruct (Startup.phases_get (Startup.currentPhase this)
                (Startup.phases this)) eqn:Hcur; simpl; [|done].
    by rewrite phases_get_set, Hp.
Qed.

Lemma close_current_keys (this : Startup.StartupLogger) (w : Startup.World)
  (p : StartupPhase) :
  p ∈ map fst (fst (Startup.close_current Date_now this w))
  <-> p ∈ map fst (Startup.phases this).
Proof.
  rewrite <- !phases_get_keys, close_current_get.
  destruct (StartupPhase_eqb _ p); [|done].
  destruct (Startup.phases_get p _); [|done]. split; by eexists.
Qed.

Lemma close_current_NoDup (this : Startup.StartupLogger)
  (w : Startup.World) :
  NoDup (map fst (Startup.phases this)) ->
  NoDup (map fst (fst (Startup.close_current Date_now this w))).
Proof.
  intros Hm. unfold Startup.close_current.
  destruct (Startup.phases_get (Startup.currentPhase this)
              (Startup.phases this)); simpl; [|done].
  by apply phases_set_NoDup.
Qed.

Lemma close_current_world (this : Startup.StartupLogger)
  (w : Startup.World) :
  Startup.outputs (snd (Startup.close_current Date_now this w))
  = Startup.outputs w.
Proof.
  unfold Startup.close_current.
  by destruct (Startup.phases_get (Startup.currentPhase this)
                 (Startup.phases this)).
Qed.

(** The instance that [startPhase] leaves. *)
Lemma startPhase_state (phase : StartupPhase) (message : option string)
  (this : Startup.StartupLogger) (w : Startup.World) :
  let closed := Startup.close_current Date_now this w in
  fst (Startup.startPhase Date_now Date_of toUpperCase phase message this w)
  = {| Startup.config := Startup.config this;
       Startup.startTime := Startup.startTime this;
       Startup.currentPhase := phase;
       Startup.phaseStartTime := Date_now (Startup.reads (snd closed));
       Startup.phases :=
         Startup.phases_set phase
           (Date_now (Startup.reads (snd closed)), None) (fst closed) |}.
Proof.
  unfold Startup.startPhase.
  by destruct (Startup.close_current Date_now this w) as [closed w1].
Qed.

Lemma startPhase_world (phase : StartupPhase) (message : option string)
  (this : Startup.StartupLogger) (w : Startup.World) :
  exists e line,
    Startup.outputs
      (snd (Startup.startPhase Date_now Date_of toUpperCase phase message
              this w))
    = Startup.outputs w ++ [Startup.AppendEntry e; Startup.ConsoleLog line]
    /\ se_level e = "info"
    /\ se_phase e = phase_name phase
    /\ se_message e
       = str_or message ("Starting phase: " +:+ phase_name phase).
Proof.
  unfold Startup.startPhase.
  pose proof (close_current_world this w) as Hw.
  destruct (Startup.close_current Date_now this w) as [closed w1].
  simpl in *. rewrite <- Hw. by eexists _, _.
Qed.

Lemma completePhase_state (message : option string)
  (this : Startup.StartupLogger) (w : Startup.World) :
  fst (Startup.completePhase Date_now Date_of toUpperCase message this w)
  = {| Startup.config := Startup.config this;
       Startup.startTime := Startup.startTime this;
       Startup.currentPhase := Startup.currentPhase this;
       Startup.phaseStartTime := Startup.phaseStartTime this;
       Startup.phases :=
         fst (Startup.close_current Date_now this
                (snd (Startup.read_clock Date_now w))) |}.
Proof.
  unfold Startup.completePhase. simpl.
  by destruct (Startup.close_current Date_now this _) as [closed w1].
Qed.

Lemma complete_state (message : option string)
  (this : Startup.StartupLogger) (w : Startup.World) :
  fst (Startup.complete Date_now Date_of toUpperCase message this w)
  = fst (Startup.startPhase Date_now Date_of toUpperCase READY None this
           (snd (Startup.read_clock Date_now w))).
Proof.
  unfold Startup.complete. simpl.
  by destruct (Startup.startPhase _ _ _ _ _ _ _) as [this' w2].
Qed.

Lemma fail_state (n m st : JsValue) (message : option string)
  (this : Startup.StartupLogger) (w : Startup.World) :
  fst (Startup.fail Date_now Date_of toUpperCase n m st message this w)
  = fst (Startup.startPhase Date_now Date_of toUpperCase ERROR None this w).
Proof.
  unfold Startup.fail.
  by destruct (Startup.startPhase _ _ _ _ _ _ _) as [this' w2].
Qed.

(** The phases on record after a call. *)
Lemma startPhase_keys (phase : StartupPhase) (message : option string)
  (this : Startup.StartupLogger) (w : Startup.World) (p : StartupPhase) :
  p ∈ map fst
        (Startup.phases
           (fst (Startup.startPhase Date_now Date_of toUpperCase phase
                   message this w)))
  <-> p = phase \/ p ∈ map fst (Startup.phases this).
Proof.
  rewrite startPhase_state. simpl.
  by rewrite phases_set_keys, close_current_keys.
Qed.

Lemma call_keys (s : Startup.StartupLogger * Startup.World)
  (c : Startup.Call) (p : StartupPhase) :
  p ∈ map fst
        (Startup.phases (fst (Startup.call Date_now Date_of toUpperCase s c)))
  <-> p ∈ map fst (Startup.phases (fst s)) \/ Startup.opens c = Some p.
Proof.
  destruct s as [this w]. destruct c; simpl.
  - split; [by left|by intros [?|?]].
  - split; [by left|by intros [?|?]].
  - rewrite startPhase_keys. split; intros [?|?]; simplify_eq; auto.
  - rewrite completePhase_state. simpl. rewrite close_current_keys.
    split; [by left|by intros [?|?]].
  - rewrite complete_state, startPhase_keys.
    split; intros [?|?]; simplify_eq; auto.
  - rewrite fail_state, startPhase_keys.
    split; intros [?|?]; simplify_eq; auto.
Qed.

Section Clock.
Hypothesis clock_set : forall n, Date_now n <> 0%Z.

Lemma startPhase_inv (phase : StartupPhase) (message : option string)
  (this : Startup.StartupLogger) (w : Startup.World) :
  phases_inv this ->
  phases_inv
    (fst (Startup.startPhase Date_now Date_of toUpperCase phase message
            this w)).
Proof.
  intros [Hkeys Hclosed]. rewrite startPhase_state. split; simpl.
  - by apply phases_set_NoDup, close_current_NoDup.
  - intros p t. rewrite phases_get_set, close_current_get.
    intros Hget Hp.
    destruct (StartupPhase_eqb phase p) eqn:Hphase.
    { by apply StartupPhase_eqb_eq in Hphase. }
    destruct (StartupPhase_eqb (Startup.currentPhase this) p) eqn:Hcur.
    + destruct (Startup.phases_get p _) as [timing|]; [|done].
      simplify_eq. simpl. by eexists.
    + apply StartupPhase_eqb_neq in Hcur. by apply (Hclosed p t).
Qed.

Lemma completePhase_inv (message : option string)
  (this : Startup.StartupLogger) (w : Startup.World) :
  phases_inv this ->
  phases_inv
    (fst (Startup.completePhase Date_now Date_of toUpperCase message this w)).
Proof.
  intros [Hkeys Hclosed]. rewrite completePhase_state. split; simpl.
  - by apply close_current_NoDup.
  - intros p t. rewrite close_current_get. intros Hget Hp.
    destruct (StartupPhase_eqb (Startup.currentPhase this) p) eqn:Hcur.
    { by apply StartupPhase_eqb_eq in Hcur. }
    by apply (Hclosed p t).
Qed.

Lemma call_inv (s : Startup.StartupLogger * Startup.World)
  (c : Startup.Call) :
  phases_inv (fst s) ->
  phases_inv (fst (Startup.call Date_now Date_of toUpperCase s c)).
Proof.
  destruct s as [this w]. intros Hinv. destruct c; simpl; try done.
  - by apply startPhase_inv.
  - by apply completePhase_inv.
  - rewrite complete_state. by apply startPhase_inv.
  - rewrite fail_state. by apply startPhase_inv.
Qed.

Lemma run_inv (config : StartupConfig) (logPath : string)
  (process : Startup.Process) (fs : FileSystem) (w : Startup.World)
  (calls : list Startup.Call) :
  phases_inv
    (fst (Startup.run Date_now Date_of toLowerCase toUpperCase config logPath
            process fs w calls)).
Proof.
  unfold Startup.run, Startup.constructor. simpl.
  induction calls as [|c calls IH] using rev_ind; simpl.
  - split; simpl; [apply NoDup_nil_2|done].
  - rewrite fold_left_app. simpl. by apply call_inv.
Qed.

End Clock.

End StartupFacts.

Section StartupProperties.
Variable Date_now : nat -> Z.
Variable Date_of : Z -> Instant.
Variable toLowerCase : string -> string.
Variable toUpperCase : string -> string.

(** X22. The phases that a bootstrap logger has on record, and reports in
    its summaries, are exactly those opened by a call: the argument of a
    [startPhase], READY for [complete] and ERROR for [fail].  The INIT
    phase in which every instance starts is not on record unless the
    application starts it itself. *)
Theorem startup_phases_recorded (config : StartupConfig) (logPath : string)
  (process : Startup.Process) (fs : FileSystem) (w : Startup.World)
  (calls : list Startup.Call) (p : StartupPhase) :
  p ∈ map fst
        (Startup.phases
           (fst (Startup.run Date_now Date_of toLowerCase toUpperCase config
                   logPath process fs w calls)))
  <-> exists c, c ∈ calls /\ Startup.opens c = Some p.
Proof.
  unfold Startup.run, Startup.constructor. simpl.
  induction calls as [|c calls IH] using rev_ind; simpl.
  - split; [by intros ?%elem_of_nil|by intros (c & ?%elem_of_nil & _)].
  - rewrite fold_left_app. simpl. rewrite call_keys, IH. split.
    + intros [(c' & Hc & Ho)|Ho].
      * exists c'. split; [|done]. apply elem_of_app. by left.
      * exists c. split; [|done]. apply elem_of_app. right. by left.
    + intros (c' & Hc & Ho). apply elem_of_app in Hc as [Hc|Hc].
      * left. by exists c'.
      * right. apply list_elem_of_singleton in Hc. by subst.
Qed.

(** X23. As long as the clock never reads zero, the diagnostics of a
    bootstrap logger report at most one phase as incomplete, the current
    one: every phase left by [startPhase], [complete] or [fail] has its
    duration. *)
Theorem only_current_phase_incomplete (config : StartupConfig)
  (logPath : string) (process : Startup.Process) (fs : FileSystem)
  (w : Startup.World) (calls : list Startup.Call)
  (entries : list StartupLogEntry) (p : StartupPhase) :
  (forall n, Date_now n <> 0%Z) ->
  let this :=
    fst (Startup.run Date_now Date_of toLowerCase toUpperCase config logPath
           process fs w calls) in
  (p, incomplete)
    ∈ diag_phases (getDiagnostics entries (Startup.phases this)) ->
  p = Startup.currentPhase this.
Proof.
  intros Hclock this Hin. unfold getDiagnostics in Hin. simpl in Hin.
  apply list_elem_of_fmap in Hin as ([p' t] & Heq & Hin). simpl in Heq.
  injection Heq as <- Hreport.
  destruct (run_inv Date_now Date_of toLowerCase toUpperCase Hclock config
              logPath process fs w calls) as [Hkeys Hclosed].
  fold this in Hkeys, Hclosed.
  apply phases_elem_get in Hin; [|done].
  destruct (StartupPhase_eqb p (Startup.currentPhase this)) eqn:Hp.
  { by apply StartupPhase_eqb_eq in Hp. }
  apply StartupPhase_eqb_neq in Hp.
  destruct (Hclosed p t Hin Hp) as (e & He & Hne).
  unfold phase_report in Hreport. rewrite He in Hreport.
  by destruct (Z.eqb_spec e 0).
Qed.

(** X24. [complete] on a bootstrap logger, after any calls and as long as
    the clock never reads zero: it opens the READY phase, writes the entry
    of that phase and the completion entry, both in phase READY, and then
    the separator; the summary of the completion entry holds the total
    duration measured before READY was opened, reports READY itself as
    [incomplete], and reports every phase already on record with its
    duration. *)
Theorem complete_summary (config : StartupConfig) (logPath : string)
  (process : Startup.Process) (fs : FileSystem) (w : Startup.World)
  (calls : list Startup.Call) (message : option string)
  (this : Startup.StartupLogger) (w1 : Startup.World) :
  (forall n, Date_now n <> 0%Z) ->
  Startup.run Date_now Date_of toLowerCase toUpperCase config logPath process
    fs w calls = (this, w1) ->
  exists this' w' e1 line1 e2 line2 summary ph,
    Startup.complete Date_now Date_of toUpperCase message this w1
    = (this', w')
    /\ Startup.outputs w'
       = Startup.outputs w1
         ++ [Startup.AppendEntry e1; Startup.ConsoleLog line1;
             Startup.AppendEntry e2; Startup.ConsoleLog line2;
             Startup.AppendSeparator]
    /\ Startup.currentPhase this' = READY
    /\ se_phase e1 = "READY" /\ se_phase e2 = "READY"
    /\ se_message e2 = str_or message "Application startup complete"
    /\ se_metadata e2 = Some summary
    /\ summary !! "totalDuration"
       = Some (JNumber (Date_now (Startup.reads w1) - Startup.startTime this))
    /\ summary !! "phases" = Some (JPlain ph)
    /\ ph !! "READY" = Some (JString "incomplete")
    /\ forall p, p <> READY -> p ∈ map fst (Startup.phases this) ->
         exists ms, ph !! phase_name p = Some (JNumber ms).
Proof.
  intros Hclock Hrun.
  assert (phases_inv this) as Hinv.
  { pose proof (run_inv Date_now Date_of toLowerCase toUpperCase Hclock config
                  logPath process fs w calls) as H.
    by rewrite Hrun in H. }
  unfold Startup.complete. simpl.
  set (w0 := {| Startup.reads := S (Startup.reads w1);
                Startup.outputs := Startup.outputs w1 |}).
  pose proof (startPhase_state Date_now Date_of toUpperCase READY None this w0)
    as Hst.
  destruct (startPhase_world Date_now Date_of toUpperCase READY None this w0)
    as (e1 & line1 & Hout1 & Hlev1 & Hph1 & Hmsg1).
  pose proof (startPhase_inv Date_now Date_of toUpperCase Hclock READY None
                this w0 Hinv) as Hinv'.
  pose proof (startPhase_keys Date_now Date_of toUpperCase READY None this w0)
    as Hkeys'.
  destruct (Startup.startPhase Date_now Date_of toUpperCase READY None this w0)
    as [this' w2].
  simpl in Hst, Hout1, Hinv', Hkeys'.
  assert (Startup.currentPhase this' = READY) as Hcur by by rewrite Hst.
  assert (Startup.phases_get READY (Startup.phases this')
          = Some (Startup.phaseStartTime this', None)) as Hready.
  { rewrite Hst. simpl. by rewrite phases_get_set. }
  match goal with
  | |- context [Startup.log _ _ _ _ ?msg (Some ?s) _ ?w3] =>
      destruct (log_world Date_now Date_of toUpperCase Info msg (Some s) this'
                  w3)
        as (e2 & line2 & Hlog & Hlev2 & Hph2 & Hmsg2 & Hmeta2 & _);
      rewrite Hlog
  end.
  eexists this', _, e1, line1, e2, line2, _, _.
  split; [reflexivity|]. simpl. rewrite Hout1.
  split; [by rewrite <- !app_assoc|].
  split; [done|]. split; [done|].
  split; [by rewrite Hph2, Hcur|].
  split; [done|]. split; [exact Hmeta2|].
  split; [reflexivity|]. split; [reflexivity|].
  destruct Hinv' as [Hnodup Hclosed].
  unfold Startup.phase_summary. split.
  - change "READY" with (phase_name READY).
    rewrite phase_summary_fold by done. by rewrite Hready.
  - intros p Hp Hkey.
    assert (is_Some (Startup.phases_get p (Startup.phases this')))
      as [[s oe] Hget].
    { apply phases_get_keys, Hkeys'. by right. }
    rewrite phase_summary_fold, Hget by done.
    destruct (Hclosed p (s, oe) Hget) as (e & He & Hne);
      [by rewrite Hcur|].
    simpl in He. subst oe. unfold phase_report. simpl.
    destruct (Z.eqb_spec e 0); [done|]. by eexists.
Qed.

(** X25. [fail] opens the ERROR phase and writes two entries in it: the
    info entry of the phase and an error entry with the message (or
    [Startup failed]) and the name, message and stack of the error; the
    console gets the stack, or the message when there is no stack; the
    summary appended last carries the name and the message only.  Any
    diagnostics computed from entries that include the error entry has the
    status [failed] and lists it among the errors. *)
Theorem fail_report (n m st : JsValue) (message : option string)
  (this : Startup.StartupLogger) (w : Startup.World) :
  exists this' w' e1 line1 e2 line2 summary,
    Startup.fail Date_now Date_of toUpperCase n m st message this w
    = (this', w')
    /\ Startup.outputs w'
       = Startup.outputs w
         ++ [Startup.AppendEntry e1; Startup.ConsoleLog line1;
             Startup.AppendEntry e2; Startup.ConsoleLog line2;
             Startup.ConsoleError (if js_truthy st then st else m);
             Startup.AppendSummary summary]
    /\ Startup.currentPhase this' = ERROR
    /\ se_level e1 = "info" /\ se_phase e1 = "ERROR"
    /\ se_level e2 = "error" /\ se_phase e2 = "ERROR"
    /\ se_message e2 = str_or message "Startup failed"
    /\ se_error e2 = Some (error_fields n m st)
    /\ summary !! "type" = Some (JString "STARTUP_FAILED")
    /\ summary !! "error"
       = Some (JPlain {[ "name" := n; "message" := m ]})
    /\ forall entries phases,
         e2 ∈ entries ->
         diag_status (getDiagnostics entries phases) = failed
         /\ e2 ∈ diag_errors (getDiagnostics entries phases).
Proof.
  unfold Startup.fail.
  pose proof (startPhase_state Date_now Date_of toUpperCase ERROR None this w)
    as Hst.
  destruct (startPhase_world Date_now Date_of toUpperCase ERROR None this w)
    as (e1 & line1 & Hout1 & Hlev1 & Hph1 & Hmsg1).
  destruct (Startup.startPhase Date_now Date_of toUpperCase ERROR None this w)
    as [this' w1].
  simpl in Hst, Hout1.
  assert (Startup.currentPhase this' = ERROR) as Hcur by by rewrite Hst.
  destruct (logError_world Date_now Date_of toUpperCase
              (str_or message "Startup failed") n m st None this' w1)
    as (e2 & line2 & Hlog & Hlev2 & Hph2 & Hmsg2 & _ & Herr2).
  rewrite Hlog. simpl.
  eexists this', _, e1, line1, e2, line2, _.
  split; [reflexivity|]. simpl. rewrite Hout1.
  split; [by rewrite <- !app_assoc|].
  split; [done|]. split; [done|]. split; [done|]. split; [done|].
  assert (se_phase e2 = "ERROR") as Hph by by rewrite Hph2, Hcur.
  split; [done|]. split; [done|]. split; [done|].
  split; [reflexivity|]. split; [reflexivity|].
  intros entries phases He. unfold getDiagnostics. simpl. split.
  - assert (existsb (fun e => String.eqb (se_phase e) "ERROR") entries = true)
      as ->; [|done].
    apply has_phase_iff. by exists e2.
  - apply list_elem_of_filter. split; [|done]. by rewrite Hlev2.
Qed.

Lemma getSafeEnv_blacklisted (config : StartupConfig)
  (env : gmap string string) (key v : string) :
  isBlacklisted toLowerCase config key = true ->
  getSafeEnv toLowerCase config env !! key = Some v ->
  v = "[REDACTED]".
Proof.
  intros Hblack Hv.
  unfold getSafeEnv in Hv. rewrite map_lookup_imap in Hv.
  destruct (env !! key) as [raw|]; [simpl in Hv|done].
  unfold safe_entry, assigned in Hv. rewrite Hblack in Hv.
  destruct (String.eqb raw ""); [done|].
  destruct (negb _ && negb _); [done|].
  destruct (String.eqb key "__proto__"); by simplify_eq.
Qed.

(** X26. A new bootstrap logger starts in phase INIT with no phase on
    record, rotates the log before it writes anything, and writes one
    header stamped with its start time.  Without [includeEnv] the header
    has no environment; with it, the environment holds only variables that
    are set and not empty, and the value of every variable whose name
    matches the blacklist is [[REDACTED]]. *)
Theorem constructor_header (config : StartupConfig) (logPath : string)
  (process : Startup.Process) (fs : FileSystem) (w : Startup.World) :
  exists this header,
    Startup.constructor Date_now Date_of toLowerCase config logPath process
      fs w
    = (this, rotateIfNeeded config logPath fs,
       {| Startup.reads := S (Startup.reads w);
          Startup.outputs := Startup.outputs w ++ [Startup.AppendHeader header] |})
    /\ Startup.currentPhase this = INIT
    /\ Startup.phases this = []
    /\ Startup.startTime this = Date_now (Startup.reads w)
    /\ header !! "timestamp"
       = Some (JString (toISOString (Date_of (Startup.startTime this))))
    /\ (includeEnv config = false -> header !! "env" = Some JUndefined)
    /\ (includeEnv config = true ->
        exists e,
          header !! "env" = Some (JPlain e)
          /\ (forall key, is_Some (e !! key) ->
                exists raw, Startup.env process !! key = Some raw /\ raw <> "")
          /\ forall key pattern v,
               pattern ∈ envBlacklist config ->
               includes (toLowerCase key) (toLowerCase pattern) = true ->
               e !! key = Some v -> v = JString "[REDACTED]").
Proof.
  unfold Startup.constructor, Startup.writeHeader. simpl.
  eexists _, _. split; [reflexivity|]. simpl.
  split; [done|]. split; [done|]. split; [done|].
  split; [reflexivity|].
  split; [by intros ->|]. intros ->.
  eexists. split; [reflexivity|]. split.
  - intros key [v Hv]. rewrite lookup_fmap in Hv.
    destruct (getSafeEnv toLowerCase config (Startup.env process) !! key)
      as [v0|] eqn:Hget; [|done].
    unfold getSafeEnv in Hget. rewrite map_lookup_imap in Hget.
    destruct (Startup.env process !! key) as [raw|]; [|done].
    exists raw. split; [done|]. simpl in Hget. unfold safe_entry in Hget.
    destruct (String.eqb_spec raw ""); [done|done].
  - intros key pattern v Hpattern Hincl Hv. rewrite lookup_fmap in Hv.
    destruct (getSafeEnv toLowerCase config (Startup.env process) !! key)
      as [v0|] eqn:Hget; [|done].
    simpl in Hv. injection Hv as <-. f_equal.
    apply (getSafeEnv_blacklisted config (Startup.env process) key);
      [|done].
    by apply isBlacklisted_pattern with pattern.
Qed.

End StartupProperties.

Lemma only_current_phase_incomplete_witness :
  let this :=
    fst (Startup.run tick_clock (fun _ => noon) string_lower string_upper
           DEFAULT_CONFIG "startup.log" sample_process full_log_dir
           quiet_world
           [Startup.CallStartPhase CONFIG None;
            Startup.CallStartPhase DATABASE None]) in
  (DATABASE, incomplete) ∈ diag_phases (getDiagnostics [] (Startup.phases this))
  /\ DATABASE = Startup.currentPhase this.
Proof.
  intros this.
  assert ((DATABASE, incomplete)
            ∈ diag_phases (getDiagnostics [] (Startup.phases this))) as Hin.
  { vm_compute. right. left. }
  split; [exact Hin|].
  apply (only_current_phase_incomplete tick_clock (fun _ => noon)
           string_lower string_upper DEFAULT_CONFIG "startup.log"
           sample_process full_log_dir quiet_world
           [Startup.CallStartPhase CONFIG None;
            Startup.CallStartPhase DATABASE None] [] DATABASE).
  - intros n. unfold tick_clock. lia.
  - exact Hin.
Defined.

Lemma complete_summary_witness :
  let s :=
    Startup.run tick_clock (fun _ => noon) string_lower string_upper
      DEFAULT_CONFIG "startup.log" sample_process full_log_dir quiet_world
      [Startup.CallStartPhase CONFIG None] in
  exists this' w' (ph : JsObj),
    Startup.complete tick_clock (fun _ => noon) string_upper None
      (fst s) (snd s) = (this', w')
    /\ Startup.currentPhase this' = READY
    /\ ph !! "READY" = Some (JString "incomplete")
    /\ exists ms, ph !! "CONFIG" = Some (JNumber ms).
Proof.
  intros s.
  destruct (complete_summary tick_clock (fun _ => noon) string_lower
              string_upper DEFAULT_CONFIG "startup.log" sample_process
              full_log_dir quiet_world [Startup.CallStartPhase CONFIG None]
              None (fst s) (snd s))
    as (this' & w' & e1 & line1 & e2 & line2 & summary & ph & Hcomplete
        & _ & Hcur & _ & _ & _ & _ & _ & _ & Hready & Hothers).
  - intros n. unfold tick_clock. lia.
  - apply surjective_pairing.
  - exists this', w', ph. split; [exact Hcomplete|].
    split; [exact Hcur|]. split; [exact Hready|].
    apply (Hothers CONFIG); [discriminate|]. vm_compute. left.
Defined.
